(** * The blockchain synchroniser of ucoin (sync.js)

    A shallow embedding of [Synchroniser.sync] and of the helpers it closes
    over (the chunk planner, [incrementBlocks], [applyGivenBlock], [syncPeer],
    the watcher wrapper, [LoggerWatcher], [MultimeterWatcher]), followed by the
    properties of the synchroniser that are proved about it.

    Block numbers, heights and millisecond timestamps are integers ([Z]);
    percentages are the integer-valued or non-finite JavaScript numbers that
    [Math.floor] returns; strings are [string]. *)

From Stdlib Require Import QArith Qround.
From stdpp Require Import base tactics numbers list list_numbers sorting sets strings pretty.

#[local] Set Warnings "-clear-no-such-hyp".

Local Open Scope Z_scope.

(** ** Constants of the module *)

Definition CONST_BLOCKS_CHUNK : Z := 500.
Definition EVAL_REMAINING_INTERVAL : Z := 1000.
Definition COMPUTE_SPEED_ON_COUNT_CHUNKS : nat := 8.

(** ** The chunk planner

    [[
      var chunks = [];
      for (let i = localNumber + 1; i <= remoteNumber; i = i + chunkLen) {
        chunks.push([i, Math.min(i + chunkLen - 1, remoteNumber)]);
      }
    ]]
    The loop does not terminate for a negative [chunkLen]; the embedding counts
    its iterations against [fuel] and returns [None] when it runs out. *)

Definition chunk : Type := Z * Z.

Fixpoint chunks_loop (fuel : nat) (i remoteNumber chunkLen : Z) : option (list chunk) :=
  if i <=? remoteNumber then
    match fuel with
    | O => None
    | S fuel' =>
        option_map (cons (i, Z.min (i + chunkLen - 1) remoteNumber))
                   (chunks_loop fuel' (i + chunkLen) remoteNumber chunkLen)
    end
  else Some [].

Definition plan_chunks (fuel : nat) (localNumber remoteNumber chunkLen : Z)
  : option (list chunk) :=
  chunks_loop fuel (localNumber + 1) remoteNumber chunkLen.

(** The block numbers a chunk [[first, last]] stands for. *)
Definition chunk_numbers (c : chunk) : list Z := seqZ c.1 (c.2 - c.1 + 1).

(** The planner as the specification words it: the [k]-th chunk, counting from
    zero, is [[L+1+k*C, min(L+(k+1)*C, R)]], for [k] below the number of chunks
    [ceil((R-L)/C)]. *)
Definition spec_chunk (L R C k : Z) : chunk :=
  (L + 1 + k * C, Z.min (L + (k + 1) * C) R).

Definition spec_chunks (L R C : Z) : list chunk :=
  spec_chunk L R C <$> seqZ 0 ((R - L + C - 1) `div` C).

(** ** Data model

    A transaction as the remote sends it carries [signatories], [inputs],
    [outputs], [comment], [locktime] and [signatures]; [raw], [version],
    [currency], [issuers] and [hash] are the properties that
    [applyGivenBlock] assigns ([None] stands for a property that is not set). *)

Record transaction := Transaction {
  signatories : list string;
  inputs : list string;
  outputs : list string;
  comment : option string;
  locktime : option Z;
  signatures : list string;
  raw : option string;
  version : option Z;
  currency : option string;
  issuers : option (list string);
  hash : option string
}.

(** A block: its [number], its protocol [version] (read on the remote's
    current block), its transactions, and the rest of its content. *)
Record block := Block {
  number : Z;
  block_version : Z;
  transactions : list transaction;
  payload : string
}.

(** What is thrown, or what a promise is rejected with: a string or an
    [Error] object. The test [err != c] of [syncPeer] is the difference of
    two such values. *)
Inductive error :=
| Thrown (s : string)          (* throw 'text', reject('text') *)
| ErrorObj (message : string). (* throw Error('text') *)

Global Instance error_eq_dec : EqDecision error.
Proof. solve_decision. Defined.

(** [lib/constants]: the values the synchroniser reads. *)
Record constants := Constants {
  DOCUMENTS_VERSION : Z;
  FORK_ALLOWED : bool;
  ERROR_PEER_ALREADY_RECORDED : error;
  ERROR_PEER_UNKNOWN_REFERENCE_BLOCK : error
}.

(** ** Strings *)

(** The line feed, ['\n']. *)
Definition nl : string := String (Ascii.ascii_of_nat 10) EmptyString.

(** [Array.prototype.join]. *)
Definition join (sep : string) (l : list string) : string := String.concat sep l.

(** Truthiness of a property that is a string or undefined. *)
Definition truthy (o : option string) : bool :=
  match o with
  | Some (String _ _) => true
  | _ => false
  end.

(** [x || 0] for a property that is a number or undefined. *)
Definition or_zero (o : option Z) : Z :=
  match o with
  | Some n => n
  | None => 0
  end.

(** [String.prototype.toUpperCase] on the bytes of a hexadecimal digest:
    the letters [a]-[z] are mapped to [A]-[Z], every other byte is kept. *)
Definition upper_ascii (c : Ascii.ascii) : Ascii.ascii :=
  let n := Ascii.nat_of_ascii c in
  if (97 <=? n)%nat && (n <=? 122)%nat then Ascii.ascii_of_nat (n - 32) else c.

Fixpoint toUpperCase (s : string) : string :=
  match s with
  | EmptyString => EmptyString
  | String c s' => String (upper_ascii c) (toUpperCase s')
  end.

(** ** Rawification of transactions ([applyGivenBlock], first part) *)

(** Modelled from the spec: [lib/rawer] is not among the sources;
    [rawer.getTransaction(tx)] is the canonical serialized form of the
    transaction, the one [applyGivenBlock] has just stored in [tx.raw]. *)
Definition rawer_getTransaction (tx : transaction) : string :=
  default EmptyString (raw tx).

Section rawification.
Variable K : constants.
Variable conf_currency : string.     (* conf.currency *)
Variable hashf : string -> string.   (* ./hashf *)

Definition tx_header (tx : transaction) : string :=
  join ":" [ "TX"; pretty (DOCUMENTS_VERSION K);
             pretty (length (signatories tx));
             pretty (length (inputs tx));
             pretty (length (outputs tx));
             if truthy (comment tx) then "1" else "0";
             pretty (or_zero (locktime tx)) ] +:+ nl.

Definition tx_raw (tx : transaction) : string :=
  let raw := tx_header tx in
  let raw := raw +:+ (join nl (signatories tx) +:+ nl) in
  let raw := raw +:+ (join nl (inputs tx) +:+ nl) in
  let raw := raw +:+ (join nl (outputs tx) +:+ nl) in
  let raw := if truthy (comment tx)
             then raw +:+ (default EmptyString (comment tx) +:+ nl)
             else raw in
  raw +:+ (join nl (signatures tx) +:+ nl).

(** The body of [block.transactions.forEach(function (tx) { ... })]. *)
Definition rawify (tx : transaction) : transaction :=
  let tx1 :=
    {| signatories := signatories tx; inputs := inputs tx;
       outputs := outputs tx; comment := comment tx;
       locktime := locktime tx; signatures := signatures tx;
       raw := Some (tx_raw tx);
       version := Some (DOCUMENTS_VERSION K);
       currency := Some conf_currency;
       issuers := Some (signatories tx);
       hash := hash tx |} in
  {| signatories := signatories tx1; inputs := inputs tx1;
     outputs := outputs tx1; comment := comment tx1;
     locktime := locktime tx1; signatures := signatures tx1;
     raw := raw tx1; version := version tx1; currency := currency tx1;
     issuers := issuers tx1;
     hash := Some (toUpperCase (hashf (rawer_getTransaction tx1))) |}.

Definition rawify_block (b : block) : block :=
  {| number := number b; block_version := block_version b;
     transactions := rawify <$> transactions b; payload := payload b |}.
End rawification.

(** The canonical form as the specification lays it out: the header line,
    then every signatory, input, output, the comment when there is one, and
    every signature, each on a line of its own that ends with a line feed. *)
Definition lines (l : list string) : string :=
  foldr (fun s acc => s +:+ nl +:+ acc) EmptyString l.

Definition spec_header (doc_version : Z) (tx : transaction) : string :=
  "TX:" +:+ pretty doc_version +:+ ":" +:+ pretty (length (signatories tx))
        +:+ ":" +:+ pretty (length (inputs tx))
        +:+ ":" +:+ pretty (length (outputs tx))
        +:+ ":" +:+ (if truthy (comment tx) then "1" else "0")
        +:+ ":" +:+ pretty (or_zero (locktime tx)) +:+ nl.

Definition spec_comment (tx : transaction) : string :=
  match comment tx with
  | Some (String c s) => String c s +:+ nl
  | _ => EmptyString
  end.

Definition spec_canonical (doc_version : Z) (tx : transaction) : string :=
  spec_header doc_version tx
    +:+ lines (signatories tx) +:+ lines (inputs tx) +:+ lines (outputs tx)
    +:+ spec_comment tx +:+ lines (signatures tx).

(** What the code writes for a group: its items on a line each, and one
    empty line for a group without items. *)
Definition group_lines (l : list string) : string :=
  match l with
  | [] => nl
  | _ :: _ => lines l
  end.

Definition code_canonical (doc_version : Z) (tx : transaction) : string :=
  spec_header doc_version tx
    +:+ group_lines (signatories tx) +:+ group_lines (inputs tx)
    +:+ group_lines (outputs tx)
    +:+ spec_comment tx +:+ group_lines (signatures tx).

(** ** Numbers shown as percentages

    [Math.floor(x / r * 100)] is an integer, or [NaN] or an infinity when
    the divisor is zero. *)

Inductive jsnum := Num (z : Z) | NaN | PosInf | NegInf.

(** [a < b] *)
Definition js_lt (a b : jsnum) : bool :=
  match a, b with
  | Num x, Num y => x <? y
  | Num _, PosInf | NegInf, Num _ | NegInf, PosInf => true
  | _, _ => false
  end.

(** [a != b] *)
Definition js_neq (a b : jsnum) : bool :=
  match a, b with
  | Num x, Num y => negb (x =? y)
  | PosInf, PosInf | NegInf, NegInf => false
  | _, _ => true
  end.

(** [Math.round(Math.max(ms / 1000, 1))] on a number of milliseconds. The
    quotient is computed exactly; rounding it to a double first does not move
    it across a half-integer, which is a double itself. *)
Definition js_max (a b : Q) : Q := if Qle_bool a b then b else a.
Definition js_round (q : Q) : Z := Qfloor (Qplus q (Qmake 1 2)).
Definition round_seconds (ms : Z) : Z :=
  js_round (js_max (Qmake ms 1000) (inject_Z 1)).

(** ** Peering documents and Merkle summaries *)

Module Peering.
(** The six properties of a peering entry. *)
Record entry := Entry {
  version : Z;
  currency : string;
  pubkey : string;
  endpoints : list string;
  block : string;
  signature : string
}.
(** A peering document as a remote answers it: the entry and whatever other
    properties the JSON object has. *)
Record json := Json {
  fields : entry;
  others : list (string * string)
}.
End Peering.

(** [dal.merkleForPeers()]: [root()] and [leaves()]. *)
Record merkle := Merkle { merkle_root : string; merkle_leaves : list string }.

(** The remote's answer to [peers.get({})], read through [NodesMerkle]. *)
Record nodes_merkle := NodesMerkle {
  depth : Z; nodesCount : Z; leavesCount : Z; merkleRoot : string
}.
Definition root (rm : nodes_merkle) : string := merkleRoot rm.

(** ** Outcomes, events *)

(** A call returns a value, throws (a promise is rejected), or never
    returns (a loop that does not end, a promise that is never settled). *)
Inductive result (A : Type) :=
| Ok (a : A)
| Err (e : error)
| Hang.
Global Arguments Ok {A} a.
Global Arguments Err {A} e.
Global Arguments Hang {A}.

(** The objects pushed on the synchroniser's stream. *)
Inductive stream_event :=
| EvDownload (pct : jsnum)                  (* { download: pct } *)
| EvApplied (pct : jsnum)                   (* { applied: pct } *)
| EvSync (ok : bool) (msg : option error).  (* { sync: true }, { sync: false, msg: err } *)

Inductive peers_query :=
| QSummary                 (* getPeers({}) *)
| QLeaves                  (* getPeers({ leaves: true }) *)
| QLeaf (leaf : string).   (* getPeers({ leaf: leaf }) *)

(** What a run of [sync] does to the outside, in order. *)
Inductive event :=
| Push (e : stream_event)                     (* that.push(e) *)
| WriteStatus (str : string)                  (* watcher.writeStatus(str) *)
| WatcherEnd                                  (* watcher.end() *)
| SetInterval                                 (* logInterval = setInterval(..., 1000) *)
| ClearInterval                               (* clearInterval(logInterval) *)
| Connect (host : string) (port : Z)          (* vucoin(host, port, ...) *)
| GetCurrentBlockOrNull
| RemoteCurrent                               (* node.blockchain.current *)
| RemoteBlocks (count from : Z)               (* node.blockchain.blocks(count, from) *)
| SubmitBlock (b : block) (cautious forkAllowed : bool)
| SaveBlocksInMainBranch (bs : list block) (remoteNumber : Z)
| ObsoleteInMainBranch (b : option block)
| GetBlock (n : Z)
| SaveParametersForRootBlock (b : option block)
| RemotePeering                               (* node.network.peering.get *)
| SubmitP (p : Peering.json) (args : option (bool * bool))
| MerkleForPeers
| RemotePeers (q : peers_query).

(** ** The watchers *)

(** What the wrapper uses of a base watcher. [downloadPercent] and
    [appliedPercent] take their argument or [undefined] ([None]) and return
    a number. *)
Record BaseWatcher := {
  bw_state : Type;
  bw_init : bw_state;
  bw_writeStatus : string -> bw_state -> bw_state;
  bw_downloadPercent : option jsnum -> bw_state -> bw_state * jsnum;
  bw_appliedPercent : option jsnum -> bw_state -> bw_state * jsnum;
  bw_end : bw_state -> bw_state
}.

(** [LoggerWatcher]; [logged] keeps what went to [logger.info]. *)
Inductive log_line :=
| LogProgress (down applied : jsnum)   (* 'Downloaded %s%, Applied %s%' *)
| LogStatus (str : string).

Record logger_watcher := LoggerState {
  downPct : jsnum;
  appliedPct : jsnum;
  lastMsg : option string;
  logged : list log_line
}.

Module LoggerWatcher.
Definition init : logger_watcher :=
  {| downPct := Num 0; appliedPct := Num 0; lastMsg := None; logged := [] |}.

Definition showProgress (w : logger_watcher) : logger_watcher :=
  {| downPct := downPct w; appliedPct := appliedPct w; lastMsg := lastMsg w;
     logged := logged w ++ [LogProgress (downPct w) (appliedPct w)] |}.

Definition writeStatus (str : string) (w : logger_watcher) : logger_watcher :=
  if decide (Some str = lastMsg w) then w
  else {| downPct := downPct w; appliedPct := appliedPct w;
          lastMsg := Some str; logged := logged w ++ [LogStatus str] |}.

Definition downloadPercent (pct : option jsnum) (w : logger_watcher)
  : logger_watcher * jsnum :=
  match pct with
  | Some p =>
      let changed := js_lt (downPct w) p in
      let w1 := {| downPct := p; appliedPct := appliedPct w;
                   lastMsg := lastMsg w; logged := logged w |} in
      let w2 := if changed then showProgress w1 else w1 in
      (w2, downPct w2)
  | None => (w, downPct w)
  end.

Definition appliedPercent (pct : option jsnum) (w : logger_watcher)
  : logger_watcher * jsnum :=
  match pct with
  | Some p =>
      let changed := js_lt (appliedPct w) p in
      let w1 := {| downPct := downPct w; appliedPct := p;
                   lastMsg := lastMsg w; logged := logged w |} in
      let w2 := if changed then showProgress w1 else w1 in
      (w2, appliedPct w2)
  | None => (w, appliedPct w)
  end.

Definition end_ (w : logger_watcher) : logger_watcher := w.

Definition watcher : BaseWatcher :=
  {| bw_state := logger_watcher; bw_init := init;
     bw_writeStatus := writeStatus;
     bw_downloadPercent := downloadPercent;
     bw_appliedPercent := appliedPercent;
     bw_end := end_ |}.
End LoggerWatcher.

(** [MultimeterWatcher] draws two bars of the [multimeter] package, which is
    not part of this repository: a bar is a state with the [percent]
    getter-and-setter. *)
Record Bar := {
  bar_state : Type;
  bar_new : bar_state;
  bar_percent : option jsnum -> bar_state -> bar_state * jsnum
}.

Record multimeter_watcher (B : Bar) := MultimeterState {
  downloadBar : bar_state B;
  appliedBar : bar_state B;
  writtens : list string;
  destroyed : bool
}.
Global Arguments downloadBar {B} _.
Global Arguments appliedBar {B} _.
Global Arguments writtens {B} _.
Global Arguments destroyed {B} _.

Module MultimeterWatcher.
Section bars.
Variable B : Bar.

Definition init : multimeter_watcher B :=
  {| downloadBar := (bar_percent B (Some (Num 0)) (bar_new B)).1;
     appliedBar := (bar_percent B (Some (Num 0)) (bar_new B)).1;
     writtens := []; destroyed := false |}.

Definition writeStatus (str : string) (w : multimeter_watcher B)
  : multimeter_watcher B :=
  {| downloadBar := downloadBar w; appliedBar := appliedBar w;
     writtens := writtens w ++ [str]; destroyed := destroyed w |}.

Definition downloadPercent (pct : option jsnum) (w : multimeter_watcher B)
  : multimeter_watcher B * jsnum :=
  let '(bar, v) := bar_percent B pct (downloadBar w) in
  ({| downloadBar := bar; appliedBar := appliedBar w;
      writtens := writtens w; destroyed := destroyed w |}, v).

Definition appliedPercent (pct : option jsnum) (w : multimeter_watcher B)
  : multimeter_watcher B * jsnum :=
  let '(bar, v) := bar_percent B pct (appliedBar w) in
  ({| downloadBar := downloadBar w; appliedBar := bar;
      writtens := writtens w; destroyed := destroyed w |}, v).

Definition end_ (w : multimeter_watcher B) : multimeter_watcher B :=
  {| downloadBar := downloadBar w; appliedBar := appliedBar w;
     writtens := writtens w; destroyed := true |}.

Definition watcher : BaseWatcher :=
  {| bw_state := multimeter_watcher B; bw_init := init;
     bw_writeStatus := writeStatus;
     bw_downloadPercent := downloadPercent;
     bw_appliedPercent := appliedPercent;
     bw_end := end_ |}.
End bars.
End MultimeterWatcher.

(** ** The collaborators of a synchroniser

    [W] is the state of everything outside the synchroniser that its calls
    can change or depend on: the ledger and the DAL, the peering service,
    the remote node, the clock. A call takes the state, and returns the new
    state and the outcome. The answer of the remote to [blocks(count, from)]
    is a function of its arguments: the download chain runs beside the
    applier, a remote does not see what the applier does, and one run asks
    every range once. *)

Inductive js_to :=
| ToUndefined
| ToNull
| ToNumber (n : Z).

Record Env (W : Type) := {
  (* the arguments of the constructor *)
  host : string;
  port : Z;
  conf_currency : string;
  base : BaseWatcher;                 (* interactive ? MultimeterWatcher : LoggerWatcher *)
  (* modules of the repository and packages that are not among the sources *)
  K : constants;                                                  (* lib/constants *)
  hashf : string -> string;                                       (* ./hashf *)
  dos2unix : string -> string;                                    (* ./dos2unix *)
  Peer_getRaw : Peering.json -> string;   (* new Peer({}) copyValuesFrom(json), getRaw() *)
  floor_percent : Z -> Z -> jsnum;        (* Math.floor(x / r * 100) *)
  vucoin : string -> Z -> W -> W * result unit;
  clock : W -> W * Z;                                             (* new Date() *)
  (* server.dal, server.BlockchainService, server.PeeringService *)
  getCurrentBlockOrNull : W -> W * result (option block);
  getBlock : Z -> W -> W * result (option block);
  merkleForPeers : W -> W * result merkle;
  submitBlock : block -> bool -> bool -> W -> W * result unit;
  saveBlocksInMainBranch : list block -> Z -> W -> W * result unit;
  obsoleteInMainBranch : option block -> W -> W * result unit;
  saveParametersForRootBlock : option block -> W -> W * result unit;
  checkPeerSignature : Peering.json -> bool;
  submitP : Peering.json -> option (bool * bool) -> W -> W * result unit;
  (* the remote node *)
  blockchain_current : W -> W * result block;
  blockchain_blocks : Z -> Z -> result (list block);
  peering_get : W -> W * result Peering.json;
  peers_summary : W -> W * result nodes_merkle;
  peers_leaves : W -> W * result (list string);
  peers_leaf : string -> W -> W * result Peering.json
}.
Global Arguments host {W} _.
Global Arguments port {W} _.
Global Arguments conf_currency {W} _.
Global Arguments base {W} _.
Global Arguments K {W} _.
Global Arguments hashf {W} _.
Global Arguments dos2unix {W} _.
Global Arguments Peer_getRaw {W} _.
Global Arguments floor_percent {W} _.
Global Arguments vucoin {W} _.
Global Arguments clock {W} _.
Global Arguments getCurrentBlockOrNull {W} _.
Global Arguments getBlock {W} _.
Global Arguments merkleForPeers {W} _.
Global Arguments submitBlock {W} _.
Global Arguments saveBlocksInMainBranch {W} _.
Global Arguments obsoleteInMainBranch {W} _.
Global Arguments saveParametersForRootBlock {W} _.
Global Arguments checkPeerSignature {W} _.
Global Arguments submitP {W} _.
Global Arguments blockchain_current {W} _.
Global Arguments blockchain_blocks {W} _.
Global Arguments peering_get {W} _.
Global Arguments peers_summary {W} _.
Global Arguments peers_leaves {W} _.
Global Arguments peers_leaf {W} _.

(** [_.sortBy(blocks, 'number')]: a stable sort, ascending. *)
Fixpoint insert_by_number (b : block) (l : list block) : list block :=
  match l with
  | [] => [b]
  | x :: l' =>
      if number b <=? number x then b :: x :: l' else x :: insert_by_number b l'
  end.

Definition sortBy_number (blocks : list block) : list block :=
  foldr insert_by_number [] blocks.

(** The [reduce] of [incrementBlocks]: the sum of the differences between
    each timestamp and the one before it. *)
Fixpoint duration_from (prev : Z) (l : list Z) (sum : Z) : Z :=
  match l with
  | [] => sum
  | t :: l' => duration_from t l' (sum + (t - prev))
  end.

Definition duration (times : list Z) : Z :=
  match times with
  | [] => 0
  | t0 :: l => duration_from t0 l 0
  end.

(** [err.message || String(err)], and [None] when [err] itself is falsy. *)
Definition error_status (err : error) : option string :=
  match err with
  | Thrown EmptyString => None
  | Thrown s => Some s
  | ErrorObj EmptyString => Some "Error"
  | ErrorObj m => Some m
  end.

(** [String(err)] *)
Definition error_string (err : error) : string :=
  match err with
  | Thrown s => s
  | ErrorObj EmptyString => "Error"
  | ErrorObj m => "Error: " +:+ m
  end.

Definition is_undefined (t : js_to) : bool :=
  match t with ToUndefined => true | _ => false end.

(** Whether [to] is falsy. *)
Definition falsy (t : js_to) : bool :=
  match t with
  | ToNumber 0 | ToUndefined | ToNull => true
  | ToNumber _ => false
  end.

(** [to || n] *)
Definition to_or (t : js_to) (n : Z) : Z :=
  match t with
  | ToNumber 0 | ToUndefined | ToNull => n
  | ToNumber k => k
  end.

(** [chunkLen || CONST_BLOCKS_CHUNK] *)
Definition chunkLen_or_default (chunkLen : option Z) : Z :=
  match chunkLen with
  | Some 0 | None => CONST_BLOCKS_CHUNK
  | Some c => c
  end.

(** ** The synchroniser

    The download chain and the applier run side by side in the source: the
    download of chunk [i+1] starts when that of chunk [i] is done, while the
    applier awaits the chunks in order. The two touch different variables
    (the download percentage on one side; the ledger, the applied
    percentage, the counters and the clock on the other). The embedding runs
    the download of a chunk at the point where the applier awaits it. On a
    run that returns, each side's own sequence of events is that of the
    source, in which the downloads may be ahead of the applier. On a run
    that throws or stops during the block phase, the sequence of the
    applier's side (everything but the requests of blocks and the download
    percentages) is that of the source too; the download chain of the
    source, which the [catch] block does not stop, may have asked for
    chunks ahead of the applier and may push a download percentage after
    the terminal event, so that the requests of blocks and the download
    percentages of the embedding are the first of those of the source. The
    status lines of the one-second timer, which fire between the steps, are
    left out, and so is what goes to the logger of the module. *)

Section synchroniser.
Context {W : Type} (E : Env W).

(** The variables of the [Synchroniser] closure, and [logInterval] of the
    running [sync]. *)
Record state := State {
  world : W;
  speed : Q;
  syncStart : Z;
  times : list Z;
  blocksApplied : Z;
  baseWatcher : bw_state (base E);
  logInterval : bool
}.

Definition set_world (w : W) (s : state) : state :=
  State w (speed s) (syncStart s) (times s) (blocksApplied s)
        (baseWatcher s) (logInterval s).
Definition set_speed (q : Q) (s : state) : state :=
  State (world s) q (syncStart s) (times s) (blocksApplied s)
        (baseWatcher s) (logInterval s).
Definition set_syncStart (t : Z) (s : state) : state :=
  State (world s) (speed s) t (times s) (blocksApplied s)
        (baseWatcher s) (logInterval s).
Definition set_times (l : list Z) (s : state) : state :=
  State (world s) (speed s) (syncStart s) l (blocksApplied s)
        (baseWatcher s) (logInterval s).
Definition set_blocksApplied (n : Z) (s : state) : state :=
  State (world s) (speed s) (syncStart s) (times s) n
        (baseWatcher s) (logInterval s).
Definition set_baseWatcher (b : bw_state (base E)) (s : state) : state :=
  State (world s) (speed s) (syncStart s) (times s) (blocksApplied s)
        b (logInterval s).
Definition set_logInterval (b : bool) (s : state) : state :=
  State (world s) (speed s) (syncStart s) (times s) (blocksApplied s)
        (baseWatcher s) b.

(** [new Synchroniser(server, host, port, conf, interactive)] *)
Definition Synchroniser (w : W) : state :=
  let '(w', now) := clock E w in
  State w' (inject_Z 0) now [now] 0 (bw_init (base E)) false.

(** A computation of the synchroniser: from a state to an outcome, the new
    state and the events it caused. *)
Definition M (A : Type) : Type := state -> result A * state * list event.

Definition ret {A} (a : A) : M A := fun s => (Ok a, s, []).

Definition bind {A B} (m : M A) (f : A -> M B) : M B :=
  fun s =>
    match m s with
    | (Ok a, s1, t1) => let '(r, s2, t2) := f a s1 in (r, s2, t1 ++ t2)
    | (Err e, s1, t1) => (Err e, s1, t1)
    | (Hang, s1, t1) => (Hang, s1, t1)
    end.

Definition throw {A} (e : error) : M A := fun s => (Err e, s, []).

(** [try { m } catch (err) { h err }] *)
Definition catch {A} (m : M A) (h : error -> M A) : M A :=
  fun s =>
    match m s with
    | (Err e, s1, t1) => let '(r, s2, t2) := h e s1 in (r, s2, t1 ++ t2)
    | o => o
    end.

Definition emit (e : event) : M unit := fun s => (Ok tt, s, [e]).

Definition gets {A} (f : state -> A) : M A := fun s => (Ok (f s), s, []).

Definition modify (f : state -> state) : M unit := fun s => (Ok tt, f s, []).

(** A call to a collaborator, recorded as [e]. *)
Definition call {A} (e : event) (f : W -> W * result A) : M A :=
  fun s => let '(w, r) := f (world s) in (r, set_world w s, [e]).

Notation "x <- m ;; k" := (bind m (fun x => k))
  (at level 100, m at next level, right associativity, only parsing).
Notation "m ;;; k" := (bind m (fun _ => k))
  (at level 100, right associativity, only parsing).

Definition new_Date : M Z :=
  fun s => let '(w, now) := clock E (world s) in (Ok now, set_world w s, []).

(** *** The watcher wrapper *)

Definition base_downloadPercent (pct : option jsnum) : M jsnum :=
  fun s =>
    let '(b, v) := bw_downloadPercent (base E) pct (baseWatcher s) in
    (Ok v, set_baseWatcher b s, []).

Definition base_appliedPercent (pct : option jsnum) : M jsnum :=
  fun s =>
    let '(b, v) := bw_appliedPercent (base E) pct (baseWatcher s) in
    (Ok v, set_baseWatcher b s, []).

Definition watcher_writeStatus (str : string) : M unit :=
  fun s =>
    (Ok tt, set_baseWatcher (bw_writeStatus (base E) str (baseWatcher s)) s,
     [WriteStatus str]).

Definition watcher_end : M unit :=
  fun s =>
    (Ok tt, set_baseWatcher (bw_end (base E) (baseWatcher s)) s, [WatcherEnd]).

Definition watcher_downloadPercent (pct : option jsnum) : M jsnum :=
  match pct with
  | Some p =>
      cur <- base_downloadPercent None ;;
      (if js_lt cur p then emit (Push (EvDownload p)) else ret tt) ;;;
      base_downloadPercent (Some p)
  | None => base_downloadPercent None
  end.

Definition watcher_appliedPercent (pct : option jsnum) : M jsnum :=
  match pct with
  | Some p =>
      cur <- base_appliedPercent None ;;
      (if js_lt cur p then emit (Push (EvApplied p)) else ret tt) ;;;
      base_appliedPercent (Some p)
  | None => base_appliedPercent None
  end.

(** *** [incrementBlocks] and [applyGivenBlock] *)

Section blocks.
Variables (chunkLen localNumber remoteNumber : Z).

Definition incrementBlocks (increment : Z) : M unit :=
  modify (fun s => set_blocksApplied (blocksApplied s + increment) s) ;;;
  now <- new_Date ;;
  modify (fun s =>
    if decide (length (times s) = COMPUTE_SPEED_ON_COUNT_CHUNKS)
    then set_times (drop 1 (times s)) s else s) ;;;
  modify (fun s => set_times (times s ++ [now]) s) ;;;
  modify (fun s =>
    set_speed (Qdiv (inject_Z (chunkLen * (Z.of_nat (length (times s)) - 1)))
                    (inject_Z (round_seconds (duration (times s))))) s) ;;;
  now' <- new_Date ;;
  modify (set_syncStart now') ;;;
  applied <- gets blocksApplied ;;
  let pct := floor_percent E (applied + localNumber) remoteNumber in
  cur <- watcher_appliedPercent None ;;
  if js_neq cur pct
  then watcher_appliedPercent (Some pct) ;;; ret tt
  else ret tt.

Definition applyGivenBlock (cautious : bool) (remoteCurrentNumber : Z)
           (b : block) : M unit :=
  let b := rawify_block (K E) (conf_currency E) (hashf E) b in
  modify (fun s => set_blocksApplied (blocksApplied s + 1) s) ;;;
  now <- new_Date ;;
  modify (fun s =>
    set_speed (Qdiv (inject_Z (blocksApplied s))
                    (inject_Z (round_seconds (now - syncStart s)))) s) ;;;
  let pct := floor_percent E (number b) remoteCurrentNumber in
  cur <- watcher_appliedPercent None ;;
  (if js_neq cur pct
   then watcher_appliedPercent (Some pct) ;;; ret tt
   else ret tt) ;;;
  call (SubmitBlock b cautious (FORK_ALLOWED (K E)))
       (submitBlock E b cautious (FORK_ALLOWED (K E))).

(** The download of one chunk, from the chain of download promises. *)
Definition download (c : chunk) : M (list block) :=
  watcher_downloadPercent (Some (floor_percent E c.1 remoteNumber)) ;;;
  blocks <- call (RemoteBlocks (c.2 - c.1 + 1) c.1)
                 (fun w => (w, blockchain_blocks E (c.2 - c.1 + 1) c.1)) ;;
  watcher_downloadPercent (Some (floor_percent E c.2 remoteNumber)) ;;;
  ret blocks.

(** [for (let j = 0, len = blocks.length; j < len; j++)] *)
Fixpoint apply_cautious (cautious : bool) (blocks : list block) : M unit :=
  match blocks with
  | [] => ret tt
  | b :: rest =>
      applyGivenBlock cautious remoteNumber b ;;;
      incrementBlocks 1 ;;;
      apply_cautious cautious rest
  end.

(** [for (let i = 0; i < toApplyNoCautious.length; i++)]; the result is
    [chunk[2]] of the last chunk, which the loop leaves as the remote
    sent it ([previous] when there is no chunk left). *)
Fixpoint apply_chunks (cautious : bool) (chunks : list chunk)
         (previous : option (list block)) : M (option (list block)) :=
  match chunks with
  | [] => ret previous
  | c :: rest =>
      downloaded <- download c ;;
      let blocks := sortBy_number downloaded in
      (if cautious then apply_cautious cautious blocks
       else
         call (SaveBlocksInMainBranch blocks remoteNumber)
              (saveBlocksInMainBranch E blocks remoteNumber) ;;;
         incrementBlocks (Z.of_nat (length blocks))) ;;;
      apply_chunks cautious rest (Some downloaded)
  end.
End blocks.

(** *** [syncPeer] *)

Definition nonempty (s : string) : bool :=
  match s with EmptyString => false | String _ _ => true end.

Definition syncPeer : M unit :=
  json <- call RemotePeering (peering_get E) ;;
  let entry := Peer_getRaw E json in
  let signature := dos2unix E (Peering.signature (Peering.fields json)) in
  if negb (nonempty entry && nonempty signature)
  then throw (Thrown "Requires a peering entry + signature")
  else
    let signatureOK := checkPeerSignature E json in
    (if negb signatureOK
     then watcher_writeStatus
            ("Wrong signature for peer #" +:+ Peering.pubkey (Peering.fields json))
     else ret tt) ;;;
    catch (call (SubmitP json None) (submitP E json None))
          (fun err =>
             if decide (err <> ERROR_PEER_ALREADY_RECORDED (K E) /\
                        err <> ERROR_PEER_UNKNOWN_REFERENCE_BLOCK (K E))
             then throw err
             else ret tt).

(** *** The body of [sync] *)

(** What [sync] computes before it plans the chunks. *)
Record heights := Heights {
  localNumber : Z;
  remoteNumber : Z;
  cautious : bool
}.

Definition version_error (remoteVersion : Z) : error :=
  ErrorObj ("Could not sync with remote host. UCP version is "
              +:+ pretty remoteVersion +:+ " (Must be >= 2)").

(** From [getVucoin] to the choice of the mode. *)
Definition connect (to : js_to) (askedCautious : option bool) : M heights :=
  catch (call (Connect (host E) (port E)) (vucoin E (host E) (port E)))
        (fun err => throw (Thrown ("Cannot sync: " +:+ error_string err))) ;;;
  lCurrent <- call GetCurrentBlockOrNull (getCurrentBlockOrNull E) ;;
  watcher_writeStatus ("Connecting to " +:+ host E +:+ "...") ;;;
  rCurrent <- call RemoteCurrent (blockchain_current E) ;;
  let remoteVersion := block_version rCurrent in
  if remoteVersion <? 2 then throw (version_error remoteVersion)
  else
    let localNumber :=
      match lCurrent with Some b => number b | None => -1 end in
    let remoteNumber :=
      Z.min (number rCurrent) (to_or to (number rCurrent)) in
    let cautious :=
      match askedCautious with
      | Some true => true
      | Some false => false
      | None => 0 <=? localNumber
      end in
    ret (Heights localNumber remoteNumber cautious).

(** The planning loop, which may not return. *)
Definition plan (fuel : nat) (chunkLen : Z) (h : heights) : M (list chunk) :=
  fun s =>
    match plan_chunks fuel (localNumber h) (remoteNumber h) chunkLen with
    | Some chunks => (Ok chunks, s, [])
    | None => (Hang, s, [])
    end.

(** From the planning loop to [saveParametersForRootBlock]. *)
Definition download_and_apply (fuel : nat) (chunkLen : Z) (h : heights) : M unit :=
  chunks <- plan fuel chunkLen h ;;
  lastBlocks <- apply_chunks chunkLen (localNumber h) (remoteNumber h)
                             (cautious h) chunks None ;;
  (if negb (cautious h) && bool_decide (chunks <> [])
   then
     let lastBlock := last (default [] lastBlocks) in
     call (ObsoleteInMainBranch lastBlock) (obsoleteInMainBranch E lastBlock)
   else ret tt) ;;;
  watcher_appliedPercent (Some (Num 100)) ;;;
  rootBlock <- call (GetBlock 0) (getBlock E 0) ;;
  call (SaveParametersForRootBlock rootBlock)
       (saveParametersForRootBlock E rootBlock).

(** From [setInterval] to [saveParametersForRootBlock]. *)
Definition sync_blocks (fuel : nat) (chunkLen : Z) (h : heights) : M unit :=
  modify (set_logInterval true) ;;;
  emit SetInterval ;;;
  download_and_apply fuel chunkLen h.

(** [for (let i = 0; i < leavesToAdd.length; i++)] *)
Fixpoint add_leaves (to : js_to) (leavesToAdd : list string) : M unit :=
  match leavesToAdd with
  | [] => ret tt
  | leaf :: rest =>
      json3 <- call (RemotePeers (QLeaf leaf)) (peers_leaf E leaf) ;;
      let entry := Peering.fields json3 in
      watcher_writeStatus ("Peer " +:+ Peering.pubkey entry) ;;;
      call (SubmitP (Peering.Json entry []) (Some (false, is_undefined to)))
           (submitP E (Peering.Json entry []) (Some (false, is_undefined to))) ;;;
      add_leaves to rest
  end.

Definition leavesToAdd (local : merkle) (remote_leaves : list string) : list string :=
  filter (fun leaf => leaf ∉ merkle_leaves local) remote_leaves.

(** [if (rm.root() != merkle.root()) { ... } else { ... }] *)
Definition reconcile (to : js_to) (merkle : merkle) (rm : nodes_merkle) : M unit :=
  if bool_decide (root rm <> merkle_root merkle)
  then
    leaves <- call (RemotePeers QLeaves) (peers_leaves E) ;;
    add_leaves to (leavesToAdd merkle leaves)
  else watcher_writeStatus "Peers already known".

(** The [if (!nopeers) { ... }] block. *)
Definition sync_peers (to : js_to) : M unit :=
  watcher_writeStatus "Peers..." ;;;
  syncPeer ;;;
  merkle <- call MerkleForPeers (merkleForPeers E) ;;
  json2 <- call (RemotePeers QSummary) (peers_summary E) ;;
  reconcile to merkle json2.

(** The [catch (err) { ... }] block; cancelling the promises of [toApply]
    causes no event. *)
Definition on_error (err : error) : M unit :=
  emit (Push (EvSync false (Some err))) ;;;
  started <- gets logInterval ;;
  (if started then emit ClearInterval else ret tt) ;;;
  match error_status err with
  | Some text => watcher_writeStatus text
  | None => ret tt
  end ;;;
  watcher_end ;;;
  throw err.

(** The [try { ... }] block. *)
Definition sync_try (fuel : nat) (to : js_to) (chunkLen : Z)
           (askedCautious : option bool) (nopeers : bool) : M unit :=
  h <- connect to askedCautious ;;
  sync_blocks fuel chunkLen h ;;;
  (if nopeers then ret tt else sync_peers to) ;;;
  watcher_end ;;;
  emit (Push (EvSync true None)).

Definition sync (fuel : nat) (to : js_to) (chunkLen : option Z)
           (askedCautious : option bool) (nopeers : bool) : M unit :=
  modify (set_logInterval false) ;;;
  let chunkLen := chunkLen_or_default chunkLen in
  catch (sync_try fuel to chunkLen askedCautious nopeers) on_error.
End synchroniser.

Global Arguments world {W E} _.
Global Arguments speed {W E} _.
Global Arguments syncStart {W E} _.
Global Arguments times {W E} _.
Global Arguments blocksApplied {W E} _.
Global Arguments baseWatcher {W E} _.
Global Arguments logInterval {W E} _.
Global Arguments ret {W E A} _ _.
Global Arguments bind {W E A B} _ _ _.
Global Arguments throw {W E A} _ _.
Global Arguments catch {W E A} _ _ _.
Global Arguments emit {W E} _ _.
Global Arguments gets {W E A} _ _.
Global Arguments modify {W E} _ _.
Global Arguments call {W E A} _ _ _.

(** ** Reading a run *)

(** The numbers of the blocks handed to the ledger: one per [submitBlock],
    and those of the array of each [saveBlocksInMainBranch]. *)
Definition submitted (e : event) : list Z :=
  match e with
  | SubmitBlock b _ _ => [number b]
  | SaveBlocksInMainBranch bs _ => number <$> bs
  | _ => []
  end.

Definition ledger_numbers (t : list event) : list Z := concat (submitted <$> t).

(** The percentages pushed on the stream. *)
Definition download_pushes (t : list event) : list jsnum :=
  omap (fun e => match e with Push (EvDownload p) => Some p | _ => None end) t.

Definition applied_pushes (t : list event) : list jsnum :=
  omap (fun e => match e with Push (EvApplied p) => Some p | _ => None end) t.

(** The calls on the timer. *)
Definition is_timer (e : event) : bool :=
  match e with SetInterval | ClearInterval => true | _ => false end.

Definition timer_events (t : list event) : list event := filter is_timer t.

(** The leaves asked one by one, the requests for the list of leaves, and
    the entries submitted with the three-argument form of [submitP]. *)
Definition leaf_fetches (t : list event) : list string :=
  omap (fun e => match e with RemotePeers (QLeaf l) => Some l | _ => None end) t.

Definition is_leaf_list (e : event) : bool :=
  match e with RemotePeers QLeaves => true | _ => false end.

Definition leaf_lists (t : list event) : nat := length (filter is_leaf_list t).

(** What the synchroniser does about one missing leaf, once the remote has
    answered its value. *)
Definition leaf_exchange (to : js_to) (leaf : string) (answer : Peering.json)
  : list event :=
  [ RemotePeers (QLeaf leaf);
    WriteStatus ("Peer " +:+ Peering.pubkey (Peering.fields answer));
    SubmitP (Peering.Json (Peering.fields answer) []) (Some (false, is_undefined to)) ].

Definition leaf_submissions (t : list event) : list (Peering.json * (bool * bool)) :=
  omap (fun e => match e with SubmitP p (Some a) => Some (p, a) | _ => None end) t.

(** ** Properties of computations and classes of events *)

(** [emits P m]: whatever the state it starts from and however it ends,
    [m] leaves [logInterval] as it is and causes only events that
    satisfy [P]. *)
Definition emits {W} {E : Env W} {A} (P : event -> Prop) (m : M E A) : Prop :=
  forall s, logInterval (m s).1.2 = logInterval s /\ Forall P (m s).2.

(** The events each part of a run can cause. *)
Definition connect_event (e : event) : bool :=
  match e with
  | Connect _ _ | GetCurrentBlockOrNull | WriteStatus _ | RemoteCurrent => true
  | _ => false
  end.

Definition blocks_event (e : event) : bool :=
  match e with
  | Push (EvDownload _) | Push (EvApplied _) | RemoteBlocks _ _
  | SubmitBlock _ _ _ | SaveBlocksInMainBranch _ _ | ObsoleteInMainBranch _
  | GetBlock _ | SaveParametersForRootBlock _ => true
  | _ => false
  end.

Definition peers_event (to : js_to) (e : event) : bool :=
  match e with
  | WriteStatus _ | RemotePeering | MerkleForPeers | RemotePeers _
  | SubmitP _ None => true
  | SubmitP _ (Some (verify, erase)) =>
      negb verify && bool_decide (erase = is_undefined to)
  | _ => false
  end.

Definition error_event (e : event) : bool :=
  match e with
  | Push (EvSync false (Some _)) | ClearInterval | WriteStatus _ | WatcherEnd => true
  | _ => false
  end.

Definition body_event (to : js_to) (e : event) : bool :=
  blocks_event e || peers_event to e ||
  match e with WatcherEnd | Push (EvSync true None) => true | _ => false end.

Definition status_of (err : error) : list event :=
  match error_status err with
  | Some text => [WriteStatus text]
  | None => []
  end.


(** The order of [_.sortBy(blocks, 'number')]. *)
Definition by_number (x y : block) : Prop := number x <= number y.

(** The remote answered [a] when asked for the leaf [l]. *)
Definition answered {W} (E : Env W) (l : string) (a : Peering.json) : Prop :=
  exists w w', peers_leaf E l w = (w', Ok a).

(** The errors of [submitP] that [syncPeer] does not throw again. *)
Definition swallowed {W} (E : Env W) (e : error) : Prop :=
  e = ERROR_PEER_ALREADY_RECORDED (K E) \/
  e = ERROR_PEER_UNKNOWN_REFERENCE_BLOCK (K E).

(** What [syncPeer] returns when [submitP] of the remote's entry
    answers [r]. *)
Definition own_entry_outcome {W} (E : Env W) (r : result unit) : result unit :=
  match r with
  | Ok _ => Ok tt
  | Err e => if decide (swallowed E e) then Ok tt else Err e
  | Hang => Hang
  end.

(** The status line of a signature that does not verify. *)
Definition wrong_signature {W} (E : Env W) (json : Peering.json) : list event :=
  if checkPeerSignature E json then []
  else [WriteStatus ("Wrong signature for peer #"
                       +:+ Peering.pubkey (Peering.fields json))].

(** ** A small network, to run the synchroniser on

    The remote holds the blocks [0 .. remote], without transactions, and
    answers [blocks(count, from)] with the blocks asked for, highest first;
    the local services accept everything, except [submitP] of the remote's
    own entry, which answers [own_entry]; the clock advances by 100 ms at
    each reading. The percentage is the floor of the exact quotient, which is
    what [Math.floor(x / r * 100)] gives whenever [x / r] and its product by
    100 are computed without rounding, as they are for [r = 1]. *)

Definition exact_percent (x r : Z) : jsnum :=
  if r =? 0 then (if x =? 0 then NaN else if 0 <? x then PosInf else NegInf)
  else Num ((x * 100) `div` r).

Definition plain_block (n : Z) : block :=
  {| number := n; block_version := 2; transactions := []; payload := EmptyString |}.

Definition peer_of (key : string) : Peering.json :=
  Peering.Json (Peering.Entry 1 "beta_brousouf" key ["BASIC_MERKLED_API remote 8999"]
                              "0-DA39A3EE" ("SIG" +:+ key))
               [("status", "UP")].

Record scenario := Scenario {
  sc_local : option Z;          (* the number of the local current block *)
  sc_remote : Z;                (* the number of the remote current block *)
  sc_version : Z;               (* the version of the remote current block *)
  sc_own_entry : result unit;   (* the answer of submitP to the remote's own entry *)
  sc_local_leaves : list string;
  sc_remote_leaves : list string
}.

Definition leaves_root (leaves : list string) : string := join "+" leaves.

Definition demo (sc : scenario) : Env Z :=
  {| host := "remote"; port := 8999; conf_currency := "beta_brousouf";
     base := LoggerWatcher.watcher;
     K := Constants 1 true (Thrown "Peer already recorded")
                    (Thrown "Unknown reference block of peer");
     hashf := fun s => s;
     dos2unix := fun s => s;
     Peer_getRaw := fun p => Peering.pubkey (Peering.fields p);
     floor_percent := exact_percent;
     vucoin := fun _ _ w => (w, Ok tt);
     clock := fun w => (w + 100, w);
     getCurrentBlockOrNull := fun w => (w, Ok (plain_block <$> sc_local sc));
     getBlock := fun n w => (w, Ok (Some (plain_block n)));
     merkleForPeers := fun w =>
       (w, Ok (Merkle (leaves_root (sc_local_leaves sc)) (sc_local_leaves sc)));
     submitBlock := fun _ _ _ w => (w, Ok tt);
     saveBlocksInMainBranch := fun _ _ w => (w, Ok tt);
     obsoleteInMainBranch := fun _ w => (w, Ok tt);
     saveParametersForRootBlock := fun _ w => (w, Ok tt);
     checkPeerSignature := fun _ => true;
     submitP := fun _ args w =>
       (w, match args with None => sc_own_entry sc | Some _ => Ok tt end);
     blockchain_current := fun w =>
       (w, Ok {| number := sc_remote sc; block_version := sc_version sc;
                 transactions := []; payload := EmptyString |});
     blockchain_blocks := fun count from =>
       Ok (reverse (plain_block <$> seqZ from count));
     peering_get := fun w => (w, Ok (peer_of "REMOTE"));
     peers_summary := fun w =>
       (w, Ok (NodesMerkle 1 3 (Z.of_nat (length (sc_remote_leaves sc)))
                           (leaves_root (sc_remote_leaves sc))));
     peers_leaves := fun w => (w, Ok (sc_remote_leaves sc));
     peers_leaf := fun leaf w => (w, Ok (peer_of leaf)) |}.

(** A node that has block 0 and a remote that is at block 2. *)
Definition catching_up : scenario :=
  Scenario (Some 0) 2 2 (Ok tt) ["a"] ["a"; "b"; "c"].

(** A node that has block 0 and a remote that is at block 1. *)
Definition one_behind : scenario :=
  Scenario (Some 0) 1 2 (Ok tt) ["a"] ["a"].

(** A node without a chain and a remote at block 1200. *)
Definition fresh_node : scenario :=
  Scenario None 1200 2 (Ok tt) ["a"] ["a"].

(** A remote that speaks version 1 of the protocol. *)
Definition old_remote : scenario :=
  Scenario (Some 0) 2 1 (Ok tt) ["a"] ["a"].

(** A node that already knows the remote's own entry. *)
Definition known_remote : scenario :=
  Scenario (Some 0) 2 2 (Err (Thrown "Peer already recorded")) ["a"] ["a"; "b"; "c"].

(** A peering service that fails on the remote's own entry. *)
Definition failing_peering : scenario :=
  Scenario (Some 0) 2 2 (Err (Thrown "Connection refused")) ["a"] ["a"; "b"; "c"].

(** A transaction without inputs. *)
Definition no_input_tx : transaction :=
  {| signatories := ["HgTTJLAQ5sqfknMq7yLPZbehtuLSsKj9CxWN7k8QvYJd"];
     inputs := [];
     outputs := ["BYfWYFrsyjpvpFysgu19rGK3VHBkz4MqmQbNyEuVU64g:30"];
     comment := None; locktime := None;
     signatures := ["42yQm4hGTJYWkPg39hQAUgP6S6EQ4vTfXdJuxKEHL1ih6YHiDL2hcwrFgBHjXLRgxRhj2VNVqqc6b4JayKqTE14r"];
     raw := None; version := None; currency := None; issuers := None;
     hash := None |}.

(** ** Reading a run, continued *)

(** The arguments [(count, from)] of the calls of [blocks]. *)
Definition rpc_blocks (t : list event) : list (Z * Z) :=
  omap (fun e => match e with RemoteBlocks c f => Some (c, f) | _ => None end) t.

(** The arguments of the calls of [obsoleteInMainBranch]. *)
Definition obsolete_calls (t : list event) : list (option block) :=
  omap (fun e => match e with ObsoleteInMainBranch b => Some b | _ => None end) t.

(** The terminal events pushed on the stream. *)
Definition terminal_events (t : list event) : list (bool * option error) :=
  omap (fun e => match e with Push (EvSync ok msg) => Some (ok, msg) | _ => None end) t.

Definition is_end (e : event) : bool :=
  match e with WatcherEnd => true | _ => false end.

(** The number of calls of [watcher.end()]. *)
Definition watcher_ends (t : list event) : nat := length (filter is_end t).

(** The calls about peers: to the remote and to the peering service. *)
Definition is_peer_event (e : event) : bool :=
  match e with
  | RemotePeering | SubmitP _ _ | MerkleForPeers | RemotePeers _ => true
  | _ => false
  end.

(** The calls to a collaborator: the remote, the DAL, the services. *)
Definition is_call (e : event) : bool :=
  match e with
  | Push _ | WriteStatus _ | WatcherEnd | SetInterval | ClearInterval => false
  | _ => true
  end.

(** The events of a run before it ends: all but [watcher.end()] and the
    terminal events. *)
Definition progress_event (e : event) : bool :=
  match e with
  | WatcherEnd | Push (EvSync _ _) | ClearInterval => false
  | _ => true
  end.

(** The events of the blocks in each mode: no bulk save and no
    [obsoleteInMainBranch] in cautious mode, no [submitBlock] in the other. *)
Definition mode_event (cautious : bool) (e : event) : bool :=
  match e with
  | SubmitBlock _ c _ => cautious && c
  | SaveBlocksInMainBranch _ _ | ObsoleteInMainBranch _ => negb cautious
  | _ => true
  end.

(** [steps Rel m]: whatever the state [m] starts from and however it ends,
    the state it ends in is related by [Rel] to the one it started from. *)
Definition steps {W} {E : Env W} {A} (Rel : state E -> state E -> Prop)
    (m : M E A) : Prop :=
  forall s, Rel s (m s).1.2.

(** The counters of the estimator are what they were. *)
Definition same_counters {W} {E : Env W} (s s' : state E) : Prop :=
  times s' = times s /\ blocksApplied s' = blocksApplied s.

(** The counter of applied blocks has not decreased, and a window of at most
    [COMPUTE_SPEED_ON_COUNT_CHUNKS] timestamps, not empty, is still one. *)
Definition counters_kept {W} {E : Env W} (s s' : state E) : Prop :=
  blocksApplied s <= blocksApplied s' /\
  ((length (times s) <= COMPUTE_SPEED_ON_COUNT_CHUNKS)%nat ->
   (length (times s') <= COMPUTE_SPEED_ON_COUNT_CHUNKS)%nat) /\
  (times s <> [] -> times s' <> []).

(** [window_push now times]: what [incrementBlocks] does to the window. *)
Definition window_push (now : Z) (times : list Z) : list Z :=
  (if decide (length times = COMPUTE_SPEED_ON_COUNT_CHUNKS)
   then drop 1 times else times) ++ [now].

(** The events of the download chain, and the events of a run without
    them: those of the applier's side. *)
Definition download_side (e : event) : bool :=
  match e with
  | Push (EvDownload _) | RemoteBlocks _ _ => true
  | _ => false
  end.

Definition is_applier_side (e : event) : bool := negb (download_side e).

Definition applier_events (t : list event) : list event := filter is_applier_side t.

(** The events that move blocks: the requests of blocks to the remote, what
    is handed to the ledger, and the download percentages. *)
Definition is_transfer (e : event) : bool :=
  match e with
  | RemoteBlocks _ _ | SubmitBlock _ _ _ | SaveBlocksInMainBranch _ _
  | ObsoleteInMainBranch _ | Push (EvDownload _) => true
  | _ => false
  end.

(** ** The small network, with faults *)

Record faults := Faults {
  ft_connect : result unit;              (* the answer of the connection *)
  ft_own_entry : Peering.json;           (* the remote's answer to [peering.get] *)
  ft_leaf : Peering.json -> result unit; (* the answer of [submitP] for a leaf *)
  ft_block : Z -> result unit;           (* the answer of [submitBlock], by number *)
  ft_blocks : option (list Z)            (* the numbers of the blocks that the remote
                                            answers to every request, if not those asked *)
}.

Definition faulty (sc : scenario) (ft : faults) : Env Z :=
  let E := demo sc in
  {| host := host E; port := port E; conf_currency := conf_currency E;
     base := base E; K := K E; hashf := hashf E; dos2unix := dos2unix E;
     Peer_getRaw := Peer_getRaw E; floor_percent := floor_percent E;
     vucoin := fun _ _ w => (w, ft_connect ft);
     clock := clock E;
     getCurrentBlockOrNull := getCurrentBlockOrNull E;
     getBlock := getBlock E;
     merkleForPeers := merkleForPeers E;
     submitBlock := fun b _ _ w => (w, ft_block ft (number b));
     saveBlocksInMainBranch := saveBlocksInMainBranch E;
     obsoleteInMainBranch := obsoleteInMainBranch E;
     saveParametersForRootBlock := saveParametersForRootBlock E;
     checkPeerSignature := checkPeerSignature E;
     submitP := fun p args w =>
       (w, match args with None => sc_own_entry sc | Some _ => ft_leaf ft p end);
     blockchain_current := blockchain_current E;
     blockchain_blocks := fun count from =>
       match ft_blocks ft with
       | Some numbers => Ok (plain_block <$> numbers)
       | None => blockchain_blocks E count from
       end;
     peering_get := fun w => (w, Ok (ft_own_entry ft));
     peers_summary := peers_summary E;
     peers_leaves := peers_leaves E;
     peers_leaf := peers_leaf E |}.

(** A remote that refuses the connection. *)
Definition unreachable : faults :=
  Faults (Err (ErrorObj "connect ECONNREFUSED")) (peer_of "REMOTE")
         (fun _ => Ok tt) (fun _ => Ok tt) None.


(** A peering service that already has the peer [b]. *)
Definition known_leaf : faults :=
  Faults (Ok tt) (peer_of "REMOTE")
         (fun p => if decide (Peering.pubkey (Peering.fields p) = "b")
                   then Err (Thrown "Peer already recorded") else Ok tt)
         (fun _ => Ok tt) None.

(** A ledger that refuses the block 2. *)
Definition rejected_block : faults :=
  Faults (Ok tt) (peer_of "REMOTE") (fun _ => Ok tt)
         (fun n => if n =? 2 then Err (Thrown "ruleNumber") else Ok tt) None.

(** A remote that answers the blocks 7, 5 and 7 to every request. *)
Definition stray_blocks : faults :=
  Faults (Ok tt) (peer_of "REMOTE") (fun _ => Ok tt) (fun _ => Ok tt)
         (Some [7; 5; 7]).

(** A node that has block 0 and a remote that is at block 3. *)
Definition three_behind : scenario :=
  Scenario (Some 0) 3 2 (Ok tt) ["a"] ["a"].

(** A node that is ahead of the remote. *)
Definition ahead : scenario :=
  Scenario (Some 5) 2 2 (Ok tt) ["a"] ["a"].

(** A relation between the state before and the state after that looks at
    the counters only, and composes. *)
Record counter_rel {W} {E : Env W} (Rel : state E -> state E -> Prop) : Prop :=
  CounterRel {
    rel_other : forall s s',
      times s' = times s -> blocksApplied s' = blocksApplied s -> Rel s s';
    rel_trans : forall s1 s2 s3, Rel s1 s2 -> Rel s2 s3 -> Rel s1 s3
  }.

(** ** The callback of the timer

    [setInterval(() => { if (remoteNumber > 1 && speed > 0) { ... } },
    EVAL_REMAINING_INTERVAL)]: the callback reads the variables of the run
    and of the synchroniser when it fires. [timer_callback] is the number of
    seconds that it hands to [moment.duration(...).humanize()] for the
    status line, or [None] when it writes nothing. *)
Definition remain {W} {E : Env W} (h : heights) (s : state E) : Z :=
  remoteNumber h - (localNumber h + 1 + blocksApplied s).

Definition timer_callback {W} {E : Env W} (h : heights) (s : state E) : option Q :=
  if (1 <? remoteNumber h) && negb (Qle_bool (speed s) (inject_Z 0))
  then Some (Qdiv (inject_Z (remain h s)) (speed s))
  else None.

(** ** Sequences of calls on a base watcher *)

Inductive watcher_call :=
| CallWriteStatus (str : string)
| CallDownloadPercent (pct : option jsnum)
| CallAppliedPercent (pct : option jsnum)
| CallEnd.

Definition watcher_step (B : BaseWatcher) (w : bw_state B) (c : watcher_call)
  : bw_state B :=
  match c with
  | CallWriteStatus str => bw_writeStatus B str w
  | CallDownloadPercent pct => (bw_downloadPercent B pct w).1
  | CallAppliedPercent pct => (bw_appliedPercent B pct w).1
  | CallEnd => bw_end B w
  end.

Definition watcher_calls (B : BaseWatcher) (calls : list watcher_call)
           (w : bw_state B) : bw_state B :=
  foldl (watcher_step B) w calls.

(** The status lines asked for, and those that went to the log. *)
Definition statuses_asked (calls : list watcher_call) : list string :=
  omap (fun c => match c with CallWriteStatus str => Some str | _ => None end) calls.

Definition statuses_logged (log : list log_line) : list string :=
  omap (fun l => match l with LogStatus str => Some str | _ => None end) log.

(** A list without the elements that repeat the one before them, [prev]
    being the one before the first. *)
Fixpoint squeeze (prev : option string) (l : list string) : list string :=
  match l with
  | [] => []
  | x :: l =>
      if decide (Some x = prev) then squeeze prev l else x :: squeeze (Some x) l
  end.

(** The window after the timestamps [nows] have been pushed, one by one. *)
Definition window_pushes (times nows : list Z) : list Z :=
  foldl (fun ts now => window_push now ts) times nows.

(** ** The exchanges about the missing leaves

    [leaves_exchanged E to w leaves answers]: from the state [w] of the
    collaborators, the remote answers [answers] to the requests of the
    leaves [leaves], one after the other, and [submitP] accepts each entry
    (the six fields of the answer, with the arguments [false] and
    [to === undefined]) before the next leaf is asked. *)
Fixpoint leaves_exchanged {W} (E : Env W) (to : js_to) (w : W)
         (leaves : list string) (answers : list Peering.json) : Prop :=
  match leaves, answers with
  | [], [] => True
  | leaf :: leaves, a :: answers =>
      exists w1 w2,
        peers_leaf E leaf w = (w1, Ok a) /\
        submitP E (Peering.Json (Peering.fields a) [])
                (Some (false, is_undefined to)) w1 = (w2, Ok tt) /\
        leaves_exchanged E to w2 leaves answers
  | _, _ => False
  end.

(** * Properties *)

(** ** The chunk planner *)

(** A run of the loop that returns chunks had a positive step. *)
Lemma chunks_loop_returns fuel i R C cs :
  chunks_loop fuel i R C = Some cs -> i <= R -> 1 <= C.
Proof.
  intros Hrun Hi. destruct (Z_lt_le_dec C 1) as [HC|]; [exfalso|done].
  revert i cs Hrun Hi. induction fuel as [|fuel IH]; intros i cs; simpl;
    destruct (Z.leb_spec i R); try discriminate; try lia.
  destruct (chunks_loop fuel (i + C) R C) as [cs'|] eqn:Hnext; [|discriminate].
  intros _ _. apply (IH (i + C) cs'); [done|lia].
Qed.

Section planner_facts.
Variables (R C : Z).
Hypothesis C_pos : 1 <= C.

Lemma chunks_loop_past fuel i : R < i -> chunks_loop fuel i R C = Some [].
Proof.
  intros Hi. destruct fuel; simpl; destruct (Z.leb_spec i R); auto; lia.
Qed.

Lemma spec_chunks_past L : R <= L -> spec_chunks L R C = [].
Proof using C_pos.
  intros HL. unfold spec_chunks. rewrite seqZ_nil; [done|].
  assert ((R - L + C - 1) `div` C < 1); [|lia].
  apply Z.div_lt_upper_bound; lia.
Qed.

Lemma spec_chunks_step L :
  L < R ->
  spec_chunks L R C = (L + 1, Z.min (L + C) R) :: spec_chunks (L + C) R C.
Proof using C_pos.
  intros HL. unfold spec_chunks.
  replace (R - L + C - 1) with ((R - (L + C) + C - 1) + 1 * C) by lia.
  rewrite Z.div_add by lia.
  set (n := (R - (L + C) + C - 1) `div` C).
  assert (0 <= n) by (apply Z.div_pos; lia).
  rewrite seqZ_cons by lia. cbn [fmap list_fmap].
  f_equal.
  - unfold spec_chunk. f_equal; [lia | f_equal; lia].
  - replace (Z.pred (n + 1)) with n by lia.
    replace (Z.succ 0) with (1 + 0) by lia.
    rewrite <- fmap_add_seqZ, <- list_fmap_compose.
    apply list_fmap_ext. intros _ k _. unfold spec_chunk; simpl.
    f_equal; [lia | f_equal; lia].
Qed.

(** With enough fuel the loop returns, and returns the chunks of the
    closed form. *)
Lemma chunks_loop_spec fuel L :
  (Z.to_nat (R - L) <= fuel)%nat ->
  chunks_loop fuel (L + 1) R C = Some (spec_chunks L R C).
Proof using C_pos.
  revert L. induction fuel as [|fuel IH]; intros L Hf.
  - rewrite chunks_loop_past by lia. by rewrite spec_chunks_past by lia.
  - destruct (Z_lt_le_dec L R) as [HL|HL].
    + simpl. destruct (Z.leb_spec (L + 1) R); [|lia].
      replace (L + 1 + C) with ((L + C) + 1) by lia.
      rewrite IH by lia. rewrite (spec_chunks_step L) by lia.
      simpl. do 3 f_equal. lia.
    + rewrite chunks_loop_past by lia. by rewrite spec_chunks_past by lia.
Qed.

Lemma chunks_loop_ordered fuel i cs :
  chunks_loop fuel i R C = Some cs -> Forall (fun c : chunk => c.1 <= c.2) cs.
Proof using C_pos.
  revert i cs. induction fuel as [|fuel IH]; intros i cs; simpl;
    destruct (Z.leb_spec i R); try discriminate.
  - intros [= <-]. constructor.
  - destruct (chunks_loop fuel (i + C) R C) as [cs'|] eqn:E; [|discriminate].
    intros [= <-]. constructor; [simpl; lia | eauto].
  - intros [= <-]. constructor.
Qed.

(** The chunks, laid end to end, are the numbers [i, i+1, ..., R]. *)
Lemma chunks_loop_tiles fuel i cs :
  chunks_loop fuel i R C = Some cs ->
  concat (chunk_numbers <$> cs) = seqZ i (R - i + 1).
Proof using C_pos.
  revert i cs. induction fuel as [|fuel IH]; intros i cs; simpl;
    destruct (Z.leb_spec i R); try discriminate.
  - intros [= <-]. by rewrite seqZ_nil by lia.
  - destruct (chunks_loop fuel (i + C) R C) as [cs'|] eqn:E; [|discriminate].
    intros [= <-]. cbn [fmap list_fmap concat]. rewrite (IH _ _ E).
    unfold chunk_numbers; simpl.
    destruct (Z.le_gt_cases (i + C) R).
    + rewrite Z.min_l by lia.
      replace (i + C - 1 - i + 1) with C by lia.
      replace (R - i + 1) with (C + (R - (i + C) + 1)) by lia.
      by rewrite (seqZ_app i C) by lia.
    + rewrite Z.min_r by lia.
      rewrite (seqZ_nil (i + C)) by lia. by rewrite app_nil_r.
  - intros [= <-]. by rewrite seqZ_nil by lia.
Qed.
End planner_facts.

(** C4. For a chunk width [C >= 1] the planning loop returns within
    [max(0, R-L)] iterations, whatever the heights [L] (in particular
    [L >= -1]) and [R]; its chunks are [[L+1, min(L+C,R)]],
    [[L+C+1, min(L+2C,R)]], ... in this order; each has its first bound at
    most its last; laid end to end they enumerate [L+1, ..., R] once each
    (no gap, no overlap); and the list is empty when [R <= L]. *)
Theorem planner_tiles (fuel : nat) (L R C : Z) :
  -1 <= L -> 1 <= C -> (Z.to_nat (R - L) <= fuel)%nat ->
  exists cs,
    plan_chunks fuel L R C = Some cs /\
    cs = spec_chunks L R C /\
    (forall k : nat, (k < length cs)%nat ->
       cs !! k = Some (L + 1 + Z.of_nat k * C, Z.min (L + (Z.of_nat k + 1) * C) R)) /\
    Forall (fun c : chunk => c.1 <= c.2) cs /\
    concat (chunk_numbers <$> cs) = seqZ (L + 1) (R - L) /\
    (R <= L -> cs = []).
Proof.
  intros _ HC Hf. exists (spec_chunks L R C).
  assert (Hrun : plan_chunks fuel L R C = Some (spec_chunks L R C))
    by (by apply chunks_loop_spec).
  split_and!; auto.
  - intros k Hk. unfold spec_chunks in *.
    rewrite length_fmap, length_seqZ in Hk.
    rewrite list_lookup_fmap, lookup_seqZ_lt by lia. done.
  - by apply (chunks_loop_ordered R C HC fuel (L + 1)).
  - rewrite (chunks_loop_tiles R C HC fuel (L + 1) _ Hrun). f_equal; lia.
  - by apply spec_chunks_past.
Qed.

Lemma planner_tiles_witness :
  exists cs,
    plan_chunks 1201 (-1) 1200 500 = Some cs /\
    cs = [(0, 499); (500, 999); (1000, 1200)].
Proof.
  destruct (planner_tiles 1201 (-1) 1200 500) as (cs & Hrun & Hcs & _);
    [lia | lia | lia |].
  exists cs. split; [exact Hrun|]. rewrite Hcs. vm_compute. reflexivity.
Defined.

(** ** Reasoning on computations *)

Section computations.
Context {W : Type} {E : Env W}.

Lemma bind_Ok {A B} (m : M E A) (f : A -> M E B) s a s1 t1 :
  m s = (Ok a, s1, t1) ->
  bind m f s = ((f a s1).1.1, (f a s1).1.2, t1 ++ (f a s1).2).
Proof. intros H. unfold bind. rewrite H. by destruct (f a s1) as [[? ?] ?]. Qed.

Lemma bind_Err {A B} (m : M E A) (f : A -> M E B) s e s1 t1 :
  m s = (Err e, s1, t1) -> bind m f s = (Err e, s1, t1).
Proof. intros H. unfold bind. by rewrite H. Qed.

Lemma bind_Hang {A B} (m : M E A) (f : A -> M E B) s s1 t1 :
  m s = (Hang, s1, t1) -> bind m f s = (Hang, s1, t1).
Proof. intros H. unfold bind. by rewrite H. Qed.

(** A computation that ends well is made of parts that end well. *)
Lemma bind_inv_Ok {A B} (m : M E A) (f : A -> M E B) s b s2 t :
  bind m f s = (Ok b, s2, t) ->
  exists a s1 t1 t2,
    m s = (Ok a, s1, t1) /\ f a s1 = (Ok b, s2, t2) /\ t = t1 ++ t2.
Proof.
  unfold bind. destruct (m s) as [[[a| |] s1] t1]; try discriminate.
  destruct (f a s1) as [[r s2'] t2] eqn:Hf. intros [= -> -> <-].
  by exists a, s1, t1, t2.
Qed.

Lemma catch_inv_Ok {A} (m : M E A) (h : error -> M E A) s a s2 t :
  (forall e s1, (h e s1).1.1 <> Ok a) ->
  catch m h s = (Ok a, s2, t) -> m s = (Ok a, s2, t).
Proof.
  intros Hh. unfold catch. destruct (m s) as [[[a'|e|] s1] t1]; try done.
  specialize (Hh e s1). destruct (h e s1) as [[r s2'] t2]. simpl in Hh.
  intros [= -> _ _]. done.
Qed.

Lemma emits_ret {A} P (a : A) : emits P (ret (E:=E) a).
Proof. intros s. by split. Qed.

Lemma emits_throw {A} P e : emits P (throw (E:=E) (A:=A) e).
Proof. intros s. by split. Qed.

Lemma emits_gets {A} P (f : state E -> A) : emits P (gets f).
Proof. intros s. by split. Qed.

Lemma emits_modify P (f : state E -> state E) :
  (forall s, logInterval (f s) = logInterval s) -> emits P (modify f).
Proof. intros Hf s. by split; [apply Hf|]. Qed.

Lemma emits_emit (P : event -> Prop) e : P e -> emits P (emit (E:=E) e).
Proof. intros He s. split; [done|]. by repeat constructor. Qed.

Lemma emits_call {A} (P : event -> Prop) e (f : W -> W * result A) :
  P e -> emits P (call (E:=E) e f).
Proof.
  intros He s. unfold call. destruct (f (world s)) as [w r]. simpl.
  split; [done|]. by repeat constructor.
Qed.

Lemma emits_bind {A B} P (m : M E A) (f : A -> M E B) :
  emits P m -> (forall a, emits P (f a)) -> emits P (bind m f).
Proof.
  intros Hm Hf s. unfold bind. destruct (Hm s) as [Hl Ht].
  destruct (m s) as [[[a|e|] s1] t1]; simpl in *; try done.
  destruct (Hf a s1) as [Hl' Ht']. destruct (f a s1) as [[r s2] t2]; simpl in *.
  split; [congruence|]. by apply Forall_app.
Qed.

Lemma emits_catch {A} P (m : M E A) (h : error -> M E A) :
  emits P m -> (forall e, emits P (h e)) -> emits P (catch m h).
Proof.
  intros Hm Hh s. unfold catch. destruct (Hm s) as [Hl Ht].
  destruct (m s) as [[[a|e|] s1] t1]; simpl in *; try done.
  destruct (Hh e s1) as [Hl' Ht']. destruct (h e s1) as [[r s2] t2]; simpl in *.
  split; [congruence|]. by apply Forall_app.
Qed.

Lemma emits_new_Date P : emits P (new_Date E).
Proof. intros s. unfold new_Date. by destruct (clock E (world s)). Qed.

Lemma emits_base_downloadPercent P pct : emits P (base_downloadPercent E pct).
Proof.
  intros s. unfold base_downloadPercent.
  by destruct (bw_downloadPercent (base E) pct (baseWatcher s)).
Qed.

Lemma emits_base_appliedPercent P pct : emits P (base_appliedPercent E pct).
Proof.
  intros s. unfold base_appliedPercent.
  by destruct (bw_appliedPercent (base E) pct (baseWatcher s)).
Qed.

Lemma emits_writeStatus (P : event -> Prop) str :
  P (WriteStatus str) -> emits P (watcher_writeStatus E str).
Proof. intros He s. split; [done|]. by repeat constructor. Qed.

Lemma emits_watcher_end (P : event -> Prop) :
  P WatcherEnd -> emits P (watcher_end E).
Proof. intros He s. split; [done|]. by repeat constructor. Qed.
End computations.

(** One step of a proof that a computation [emits] only some events. *)
Ltac emits_step :=
  lazymatch goal with
  | |- emits _ (bind _ _) => apply emits_bind; [|intros ?]
  | |- emits _ (catch _ _) => apply emits_catch; [|intros ?]
  | |- emits _ (ret _) => apply emits_ret
  | |- emits _ (throw _) => apply emits_throw
  | |- emits _ (gets _) => apply emits_gets
  | |- emits _ (modify _) => apply emits_modify; intros ?; try case_decide; reflexivity
  | |- emits _ (emit _) => apply emits_emit; try done
  | |- emits _ (call _ _) => apply emits_call; try done
  | |- emits _ (new_Date _) => apply emits_new_Date
  | |- emits _ (base_downloadPercent _ _) => apply emits_base_downloadPercent
  | |- emits _ (base_appliedPercent _ _) => apply emits_base_appliedPercent
  | |- emits _ (watcher_writeStatus _ _) => apply emits_writeStatus; try done
  | |- emits _ (watcher_end _) => apply emits_watcher_end; try done
  | |- emits _ (if ?b then _ else _) => destruct b
  | |- emits _ (match ?x with _ => _ end) => destruct x
  end.

Section phases.
Context {W : Type} {E : Env W}.

Lemma emits_mono {A} (P Q : event -> Prop) (m : M E A) :
  (forall e, P e -> Q e) -> emits P m -> emits Q m.
Proof.
  intros HPQ Hm s. destruct (Hm s) as [Hl Ht]. split; [done|].
  eapply Forall_impl; eauto.
Qed.

Lemma emits_downloadPercent_gen (P : event -> Prop) pct :
  (forall p, P (Push (EvDownload p))) -> emits P (watcher_downloadPercent E pct).
Proof. intros HP. unfold watcher_downloadPercent. repeat emits_step. Qed.

Lemma emits_appliedPercent_gen (P : event -> Prop) pct :
  (forall p, P (Push (EvApplied p))) -> emits P (watcher_appliedPercent E pct).
Proof. intros HP. unfold watcher_appliedPercent. repeat emits_step. Qed.

Lemma emits_incrementBlocks_gen (P : event -> Prop) chunkLen L R n :
  (forall p, P (Push (EvApplied p))) -> emits P (incrementBlocks E chunkLen L R n).
Proof.
  intros HP. unfold incrementBlocks.
  repeat first [by apply emits_appliedPercent_gen | emits_step].
Qed.

Lemma emits_connect to asked : emits connect_event (connect E to asked).
Proof. unfold connect. repeat emits_step. Qed.

Lemma emits_downloadPercent pct : emits blocks_event (watcher_downloadPercent E pct).
Proof. unfold watcher_downloadPercent. repeat emits_step. Qed.

Lemma emits_appliedPercent pct : emits blocks_event (watcher_appliedPercent E pct).
Proof. unfold watcher_appliedPercent. repeat emits_step. Qed.

Lemma emits_incrementBlocks chunkLen L R n :
  emits blocks_event (incrementBlocks E chunkLen L R n).
Proof.
  unfold incrementBlocks.
  repeat first [apply emits_appliedPercent | emits_step].
Qed.

Lemma emits_applyGivenBlock c R b :
  emits blocks_event (applyGivenBlock E c R b).
Proof.
  unfold applyGivenBlock.
  repeat first [apply emits_appliedPercent | emits_step].
Qed.

Lemma emits_download R c : emits blocks_event (download E R c).
Proof.
  unfold download. repeat first [apply emits_downloadPercent | emits_step].
Qed.

Lemma emits_apply_cautious chunkLen L R c blocks :
  emits blocks_event (apply_cautious E chunkLen L R c blocks).
Proof.
  induction blocks as [|b blocks IH]; simpl.
  - emits_step.
  - repeat first [ apply emits_applyGivenBlock | apply emits_incrementBlocks
                 | apply IH | emits_step ].
Qed.

Lemma emits_apply_chunks chunkLen L R c chunks previous :
  emits blocks_event (apply_chunks E chunkLen L R c chunks previous).
Proof.
  revert previous. induction chunks as [|ch chunks IH]; intros previous; simpl.
  - emits_step.
  - repeat first [ apply emits_download | apply emits_apply_cautious
                 | apply emits_incrementBlocks | apply IH | emits_step ].
Qed.

Lemma emits_syncPeer to : emits (peers_event to) (syncPeer E).
Proof. unfold syncPeer. repeat emits_step. Qed.

Lemma emits_add_leaves to leaves : emits (peers_event to) (add_leaves E to leaves).
Proof.
  induction leaves as [|leaf leaves IH]; simpl.
  - emits_step.
  - repeat first [ apply IH | emits_step ];
      simpl; by rewrite bool_decide_eq_true_2.
Qed.

Lemma emits_sync_peers to : emits (peers_event to) (sync_peers E to).
Proof.
  unfold sync_peers, reconcile.
  repeat first [ apply emits_syncPeer | apply emits_add_leaves | emits_step ].
Qed.
End phases.

Lemma body_event_blocks to e : blocks_event e -> body_event to e.
Proof. unfold body_event. by intros ->%Is_true_true. Qed.

Lemma body_event_peers to e : peers_event to e -> body_event to e.
Proof. unfold body_event. intros ->%Is_true_true. by rewrite orb_true_r. Qed.

Section shape.
Context {W : Type} {E : Env W}.

Lemma emits_download_and_apply fuel chunkLen h :
  emits blocks_event (download_and_apply E fuel chunkLen h).
Proof.
  unfold download_and_apply. apply emits_bind.
  { intros s. unfold plan. by destruct plan_chunks. }
  intros chunks.
  repeat first [ apply emits_apply_chunks | apply emits_appliedPercent
               | emits_step ].
Qed.

Lemma sync_blocks_run fuel chunkLen h s r s' t :
  sync_blocks E fuel chunkLen h s = (r, s', t) ->
  exists t', t = SetInterval :: t' /\ Forall blocks_event t' /\
             logInterval s' = true.
Proof.
  unfold sync_blocks, bind, modify, emit.
  destruct (emits_download_and_apply fuel chunkLen h (set_logInterval E true s))
    as [Hl Ht].
  destruct (download_and_apply E fuel chunkLen h (set_logInterval E true s))
    as [[r0 s0] t0]; simpl in *.
  destruct r0 as [[]|e|]; intros [= <- <- <-]; by exists t0.
Qed.

(** The events of the [catch] block, in order. *)
Lemma on_error_run err s :
  (on_error E err s).1.1 = Err err /\
  (on_error E err s).2 =
    Push (EvSync false (Some err))
      :: (if logInterval s then [ClearInterval] else [])
      ++ status_of err ++ [WatcherEnd].
Proof.
  unfold on_error, status_of, bind, emit, gets, throw, watcher_end,
    watcher_writeStatus, ret.
  destruct (logInterval s), (error_status err); simpl; done.
Qed.

Lemma emits_tail to (nopeers : bool) :
  emits (body_event to)
    (bind (if nopeers then ret tt else sync_peers E to)
          (fun _ : unit =>
             bind (watcher_end E)
                  (fun _ : unit => emit (E:=E) (Push (EvSync true None))))).
Proof.
  apply emits_bind.
  - destruct nopeers; [emits_step|].
    eapply emits_mono; [|apply emits_sync_peers].
    apply body_event_peers.
  - intros _. repeat emits_step.
Qed.

(** The shape of the [try] block's run, started with no timer set: what
    [connect] causes, then, when [connect] returns, [setInterval] and what
    follows it; [logInterval] is set at the end exactly in the second
    case, which is the case of every run that ends well. *)
Lemma sync_try_shape fuel to chunkLen asked nopeers s r s' t :
  logInterval s = false ->
  sync_try E fuel to chunkLen asked nopeers s = (r, s', t) ->
  exists t1 t2,
    t = t1 ++ t2 /\
    Forall connect_event t1 /\
    ((t2 = [] /\ logInterval s' = false /\ (forall a, r <> Ok a)) \/
     (exists t2', t2 = SetInterval :: t2' /\ Forall (body_event to) t2' /\
                  logInterval s' = true)).
Proof.
  intros Hs. unfold sync_try, bind at 1.
  destruct (emits_connect to asked s) as [Hl1 Ht1].
  destruct (connect E to asked s) as [[[h|e|] s1] t1]; simpl in *.
  2,3: intros [= <- <- <-]; exists t1, []; rewrite app_nil_r; split_and!; auto;
       left; split_and!; [done | congruence | done].
  unfold bind at 1.
  destruct (sync_blocks E fuel chunkLen h s1) as [[r2 s2] t2] eqn:Hb.
  destruct (sync_blocks_run _ _ _ _ _ _ _ Hb) as (t2' & -> & Hb' & Hl2).
  assert (Hbody : Forall (body_event to) t2')
    by (eapply Forall_impl; [exact Hb'|]; apply body_event_blocks).
  destruct r2 as [[]|e|].
  2,3: intros [= <- <- <-]; exists t1, (SetInterval :: t2'); split_and!; auto;
       right; exists t2'; split_and!; auto.
  destruct (emits_tail to nopeers s2) as [Hl3 Ht3].
  match goal with
  | |- context [bind ?m ?f s2] => destruct (bind m f s2) as [[r3 s3] t3]
  end.
  simpl in *. intros [= <- <- <-].
  exists t1, (SetInterval :: t2' ++ t3). split_and!; auto.
  right. exists (t2' ++ t3). split_and!; auto; [|congruence].
  apply Forall_app. by split.
Qed.

(** The shape of every run of [sync]. *)
Lemma sync_shape fuel to chunkLen asked nopeers s r s' t :
  sync E fuel to chunkLen asked nopeers s = (r, s', t) ->
  exists t1 t2 t3,
    t = t1 ++ t2 ++ t3 /\
    Forall connect_event t1 /\
    (t2 = [] \/ exists t2', t2 = SetInterval :: t2' /\ Forall (body_event to) t2') /\
    match r with
    | Ok _ => t2 <> [] /\ t3 = []
    | Err err =>
        t3 = Push (EvSync false (Some err))
               :: match t2 with [] => [] | _ :: _ => [ClearInterval] end
               ++ status_of err ++ [WatcherEnd]
    | Hang => t3 = []
    end.
Proof.
  unfold sync, bind, modify, catch.
  set (s0 := set_logInterval E false s).
  destruct (sync_try E fuel to (chunkLen_or_default chunkLen) asked nopeers s0)
    as [[r1 s1] t0] eqn:Hrun.
  destruct (sync_try_shape _ _ _ _ _ s0 _ _ _ eq_refl Hrun)
    as (t1 & t2 & -> & H1 & H2).
  assert (Hcases : t2 = [] \/
            exists t2', t2 = SetInterval :: t2' /\ Forall (body_event to) t2')
    by (destruct H2 as [(-> & _)|(t2' & -> & ? & _)]; eauto).
  destruct r1 as [[]|err|]; simpl.
  - intros [= <- <- <-]. exists t1, t2, []. rewrite app_nil_r. split_and!; auto.
    destruct H2 as [(_ & _ & Hno)|(t2' & -> & _)]; [by destruct (Hno ())|done].
  - destruct (on_error_run err s1) as [Hr Ht3].
    destruct (on_error E err s1) as [[r3 s3] t3]; simpl in *. subst r3 t3.
    intros [= <- <- <-]. exists t1, t2. eexists. split_and!.
    + rewrite <- app_assoc. reflexivity.
    + done.
    + done.
    + destruct H2 as [(-> & -> & _)|(t2' & -> & _ & ->)]; done.
  - intros [= <- <- <-]. exists t1, t2, []. rewrite app_nil_r. by split_and!.
Qed.
End shape.

(** ** A remote that speaks an old protocol *)

(** C7. When the remote's [current()] answers a block whose [version] is
    below 2, the run of [sync] is the following, whatever its arguments: the
    connection, the reading of the local current block, the status line,
    the call of [current()], then the terminal event
    [{ sync: false, msg: err }], the error message as status line and
    [watcher.end()], after which the error is thrown to the caller. The
    message of the error names the UCP version of the remote. No download
    of a chunk is asked of the remote and no block is handed to the
    ledger. *)
Theorem remote_too_old {W} (E : Env W) fuel to chunkLen asked nopeers
    (s : state E) w1 w2 w3 lCurrent rCurrent :
  vucoin E (host E) (port E) (world s) = (w1, Ok tt) ->
  getCurrentBlockOrNull E w1 = (w2, Ok lCurrent) ->
  blockchain_current E w2 = (w3, Ok rCurrent) ->
  block_version rCurrent < 2 ->
  let message := "Could not sync with remote host. UCP version is "
                   +:+ pretty (block_version rCurrent) +:+ " (Must be >= 2)" in
  let o := sync E fuel to chunkLen asked nopeers s in
  o.1.1 = Err (ErrorObj message) /\
  o.2 = [ Connect (host E) (port E); GetCurrentBlockOrNull;
          WriteStatus ("Connecting to " +:+ host E +:+ "...");
          RemoteCurrent;
          Push (EvSync false (Some (ErrorObj message)));
          WriteStatus message;
          WatcherEnd ] /\
  ledger_numbers o.2 = [] /\
  (forall count from, RemoteBlocks count from ∉ o.2).
Proof.
  intros H1 H2 H3 Hv message o.
  assert (Ho : o.1.1 = Err (ErrorObj message) /\
               o.2 = [ Connect (host E) (port E); GetCurrentBlockOrNull;
                       WriteStatus ("Connecting to " +:+ host E +:+ "...");
                       RemoteCurrent;
                       Push (EvSync false (Some (ErrorObj message)));
                       WriteStatus message;
                       WatcherEnd ]).
  { subst o. unfold sync, sync_try, connect, bind, catch, call, modify,
      watcher_writeStatus, on_error, emit, gets, throw, watcher_end, ret.
    simpl. rewrite H1. simpl. rewrite H2. simpl. rewrite H3. simpl.
    destruct (Z.ltb_spec (block_version rCurrent) 2); [|lia].
    simpl. done. }
  destruct Ho as [Hr Ht]. split_and!; auto.
  - by rewrite Ht.
  - intros count from. rewrite Ht, !elem_of_cons, elem_of_nil. naive_solver.
Qed.

Lemma remote_too_old_witness :
  let o := sync (demo old_remote) 10 ToUndefined None None false
                (Synchroniser (demo old_remote) 0) in
  o.1.1 = Err (ErrorObj
    "Could not sync with remote host. UCP version is 1 (Must be >= 2)") /\
  ledger_numbers o.2 = [].
Proof.
  destruct (remote_too_old (demo old_remote) 10 ToUndefined None None false
              (Synchroniser (demo old_remote) 0) 100 100 100
              (Some (plain_block 0))
              {| number := 2; block_version := 1; transactions := [];
                 payload := EmptyString |})
    as (Hr & _ & Hl & _); [reflexivity | reflexivity | reflexivity | simpl; lia |].
  split; [exact Hr | exact Hl].
Defined.

(** ** The status timer *)

Lemma timer_events_app t1 t2 :
  timer_events (t1 ++ t2) = timer_events t1 ++ timer_events t2.
Proof. apply filter_app. Qed.

Lemma timer_events_cons e t :
  timer_events (e :: t) = if is_timer e then e :: timer_events t else timer_events t.
Proof. unfold timer_events. rewrite filter_cons. by destruct (is_timer e). Qed.

Lemma timer_events_none (P : event -> bool) t :
  (forall e, P e -> is_timer e = false) -> Forall P t -> timer_events t = [].
Proof.
  intros HP Ht. induction Ht as [|e t He _ IH]; [done|].
  by rewrite timer_events_cons, IH, (HP e He).
Qed.

Lemma timer_events_connect t : Forall connect_event t -> timer_events t = [].
Proof. apply timer_events_none. by intros []. Qed.

Lemma timer_events_body to t : Forall (body_event to) t -> timer_events t = [].
Proof. apply timer_events_none. by intros [[] | | | | | | | | | | | | | | | | |]. Qed.

Lemma timer_events_status err : timer_events (status_of err) = [].
Proof. unfold status_of. by destruct (error_status err). Qed.

(** C10. In every run of [sync] the calls on the timer are: on a run that
    ends well, the one [setInterval] and no [clearInterval]; on a run that
    throws, either [setInterval] followed by [clearInterval] (the
    [clearInterval] comes in the [catch] block, before the error is thrown
    again), or none at all when the error came before the timer was set.
    Hence a run clears the timer if and only if it set it and failed. *)
Theorem interval_cleared_iff_failed {W} (E : Env W) fuel to chunkLen asked
    nopeers (s : state E) :
  let o := sync E fuel to chunkLen asked nopeers s in
  match o.1.1 with
  | Ok _ => timer_events o.2 = [SetInterval]
  | Err _ => timer_events o.2 = [SetInterval; ClearInterval] \/ timer_events o.2 = []
  | Hang => timer_events o.2 = [SetInterval] \/ timer_events o.2 = []
  end /\
  (ClearInterval ∈ o.2 <-> (exists err, o.1.1 = Err err) /\ SetInterval ∈ o.2).
Proof.
  intros o. subst o.
  destruct (sync E fuel to chunkLen asked nopeers s) as [[r s'] t] eqn:Hrun.
  destruct (sync_shape _ _ _ _ _ _ _ _ _ Hrun) as (t1 & t2 & t3 & -> & H1 & H2 & H3).
  simpl.
  assert (Ht : match r with
               | Ok _ => timer_events (t1 ++ t2 ++ t3) = [SetInterval]
               | Err _ => timer_events (t1 ++ t2 ++ t3) = [SetInterval; ClearInterval]
                          \/ timer_events (t1 ++ t2 ++ t3) = []
               | Hang => timer_events (t1 ++ t2 ++ t3) = [SetInterval]
                         \/ timer_events (t1 ++ t2 ++ t3) = []
               end).
  { rewrite !timer_events_app, (timer_events_connect t1 H1). simpl.
    destruct r as [[]|err|].
    - destruct H3 as [Hne ->].
      destruct H2 as [->|(t2' & -> & Hb)]; [done|].
      rewrite app_nil_r, timer_events_cons. simpl.
      by rewrite (timer_events_body to).
    - subst t3. destruct H2 as [->|(t2' & -> & Hb)].
      + right. simpl. rewrite timer_events_cons. simpl.
        by rewrite timer_events_app, timer_events_status.
      + left. rewrite !timer_events_cons. simpl.
        rewrite (timer_events_body to) by done. simpl.
        rewrite !timer_events_cons. simpl.
        by rewrite timer_events_app, timer_events_status.
    - subst t3. destruct H2 as [->|(t2' & -> & Hb)]; [by right|left].
      rewrite app_nil_r, timer_events_cons. simpl.
      by rewrite (timer_events_body to). }
  split; [exact Ht|].
  assert (Hin : forall e, is_timer e = true ->
                  e ∈ t1 ++ t2 ++ t3 <-> e ∈ timer_events (t1 ++ t2 ++ t3)).
  { intros e He. unfold timer_events. rewrite list_elem_of_filter.
    rewrite He. naive_solver. }
  rewrite (Hin ClearInterval), (Hin SetInterval) by done.
  destruct r as [[]|err|].
  - rewrite Ht, !elem_of_cons, elem_of_nil. split; [naive_solver|].
    by intros [[err [=]] _].
  - destruct Ht as [-> | ->]; rewrite ?elem_of_cons, ?elem_of_nil; naive_solver.
  - destruct Ht as [-> | ->]; rewrite ?elem_of_cons, ?elem_of_nil;
      (split; [naive_solver|]); by intros [[err [=]] _].
Qed.

(** ** The target of a run and the erase flag *)

Section connect_facts.
Context {W : Type} {E : Env W}.

(** What a [connect] that returns has seen and computed. *)
Lemma connect_Ok to asked (s : state E) h s1 t1 :
  connect E to asked s = (Ok h, s1, t1) ->
  exists w1 w2 w3 lCurrent rCurrent,
    vucoin E (host E) (port E) (world s) = (w1, Ok tt) /\
    getCurrentBlockOrNull E w1 = (w2, Ok lCurrent) /\
    blockchain_current E w2 = (w3, Ok rCurrent) /\
    2 <= block_version rCurrent /\
    localNumber h = match lCurrent with Some b => number b | None => -1 end /\
    remoteNumber h = Z.min (number rCurrent) (to_or to (number rCurrent)) /\
    cautious h = match asked with
                 | Some a => a
                 | None => 0 <=? localNumber h
                 end /\
    t1 = [ Connect (host E) (port E); GetCurrentBlockOrNull;
           WriteStatus ("Connecting to " +:+ host E +:+ "..."); RemoteCurrent ].
Proof.
  unfold connect, bind, catch, call, throw, watcher_writeStatus, ret. simpl.
  destruct (vucoin E (host E) (port E) (world s)) as [w1 [[]|e|]] eqn:H1;
    simpl; try discriminate.
  destruct (getCurrentBlockOrNull E w1) as [w2 [lCurrent|e|]] eqn:H2;
    simpl; try discriminate.
  destruct (blockchain_current E w2) as [w3 [rCurrent|e|]] eqn:H3;
    simpl; try discriminate.
  destruct (Z.ltb_spec (block_version rCurrent) 2); simpl; try discriminate.
  intros [= <- <- <-]. exists w1, w2, w3, lCurrent, rCurrent. simpl.
  split_and!; auto. by destruct asked as [[]|].
Qed.

Lemma to_or_falsy to n : falsy to = true -> to_or to n = n.
Proof. by destruct to as [| |[]]. Qed.
End connect_facts.


(** ** The blocks handed to the ledger *)

Lemma ledger_numbers_app t1 t2 :
  ledger_numbers (t1 ++ t2) = ledger_numbers t1 ++ ledger_numbers t2.
Proof. unfold ledger_numbers. by rewrite fmap_app, concat_app. Qed.

Lemma ledger_numbers_silent t :
  Forall (fun e => submitted e = []) t -> ledger_numbers t = [].
Proof.
  induction 1 as [|e t He _ IH]; [done|].
  unfold ledger_numbers in *. rewrite fmap_cons. cbn [concat].
  by rewrite He, IH.
Qed.

(** *** Sorting by number *)

Lemma insert_by_number_perm b l : insert_by_number b l ≡ₚ b :: l.
Proof.
  induction l as [|x l IH]; simpl; [done|].
  destruct (number b <=? number x); [done|].
  by rewrite IH, Permutation_swap.
Qed.

Lemma sortBy_number_perm l : sortBy_number l ≡ₚ l.
Proof.
  induction l as [|b l IH]; simpl; [done|].
  by rewrite insert_by_number_perm, IH.
Qed.

Lemma insert_by_number_sorted b l :
  StronglySorted by_number l -> StronglySorted by_number (insert_by_number b l).
Proof.
  induction 1 as [|x l Hl IH Hx]; simpl; [by repeat constructor|].
  destruct (Z.leb_spec (number b) (number x)).
  - constructor; [by constructor|]. constructor; [done|].
    eapply Forall_impl; [exact Hx|]. unfold by_number. intros; lia.
  - constructor; [done|]. rewrite insert_by_number_perm.
    constructor; [unfold by_number; lia | done].
Qed.

Lemma sortBy_number_sorted l : StronglySorted by_number (sortBy_number l).
Proof.
  induction l as [|b l IH]; simpl; [constructor|].
  by apply insert_by_number_sorted.
Qed.

Lemma StronglySorted_numbers l :
  StronglySorted by_number l -> StronglySorted Z.le (number <$> l).
Proof.
  induction 1 as [|x l Hl IH Hx]; simpl; constructor; [done|].
  by apply Forall_fmap.
Qed.

Lemma StronglySorted_seqZ (R : relation Z) m n :
  (forall x y, x < y -> R x y) -> StronglySorted R (seqZ m n).
Proof.
  intros HR. remember (Z.to_nat n) as k eqn:Hk. revert m n Hk.
  induction k as [|k IH]; intros m n Hk.
  - rewrite seqZ_nil by lia. constructor.
  - rewrite seqZ_cons by lia. constructor; [apply IH; lia|].
    apply Forall_seqZ. intros x Hx. apply HR. lia.
Qed.

(** Sorting the answer to [blocks(count, from)] puts the numbers
    [from, from+1, ...] in this order, when the answer holds these numbers in
    some order. *)
Lemma sortBy_number_range bs from count :
  number <$> bs ≡ₚ seqZ from count ->
  number <$> sortBy_number bs = seqZ from count.
Proof.
  intros Hp. apply (StronglySorted_unique Z.le).
  - apply StronglySorted_numbers, sortBy_number_sorted.
  - apply StronglySorted_seqZ. intros; lia.
  - by rewrite sortBy_number_perm.
Qed.

Section coverage.
Context {W : Type} {E : Env W}.

Local Abbreviation silent := (fun e : event => submitted e = []).

(** A computation that hands no block to the ledger. *)
Lemma silent_run {A} (m : M E A) s r s' t :
  m s = (r, s', t) -> emits silent m -> ledger_numbers t = [].
Proof.
  intros Hrun Hm. destruct (Hm s) as [_ Ht]. rewrite Hrun in Ht.
  by apply ledger_numbers_silent.
Qed.

Lemma call_Ok {A} e (f : W -> W * result A) (s : state E) a s' t :
  call e f s = (Ok a, s', t) -> t = [e] /\ (f (world s)).2 = Ok a.
Proof.
  unfold call. destruct (f (world s)) as [w r]. by intros [= -> _ <-].
Qed.

Ltac silence H :=
  eapply silent_run in H;
  [ rewrite H; clear H
  | repeat first [ by apply emits_appliedPercent_gen
                 | by apply emits_downloadPercent_gen
                 | by apply emits_incrementBlocks_gen
                 | emits_step ] ].

Lemma applyGivenBlock_Ok c R b s s' t :
  applyGivenBlock E c R b s = (Ok tt, s', t) -> ledger_numbers t = [number b].
Proof.
  unfold applyGivenBlock. intros H.
  apply bind_inv_Ok in H as (? & s1 & t1 & ? & H1 & H & ->).
  apply bind_inv_Ok in H as (? & s2 & t2 & ? & H2 & H & ->).
  apply bind_inv_Ok in H as (? & s3 & t3 & ? & H3 & H & ->).
  apply bind_inv_Ok in H as (? & s4 & t4 & ? & H4 & H & ->).
  apply bind_inv_Ok in H as (? & s5 & t5 & ? & H5 & H & ->).
  apply call_Ok in H as [-> _].
  rewrite !ledger_numbers_app.
  silence H1. silence H2. silence H3. silence H4. silence H5. done.
Qed.

Lemma apply_cautious_Ok chunkLen L R c blocks s s' t :
  apply_cautious E chunkLen L R c blocks s = (Ok tt, s', t) ->
  ledger_numbers t = number <$> blocks.
Proof.
  revert s t. induction blocks as [|b blocks IH]; intros s t; simpl.
  - by intros [= _ <-].
  - intros H.
    apply bind_inv_Ok in H as ([] & s1 & t1 & ? & H1 & H & ->).
    apply bind_inv_Ok in H as ([] & s2 & t2 & ? & H2 & H & ->).
    rewrite !ledger_numbers_app, (applyGivenBlock_Ok _ _ _ _ _ _ H1).
    silence H2. by rewrite (IH _ _ H).
Qed.

Lemma download_Ok R c s blocks s' t :
  download E R c s = (Ok blocks, s', t) ->
  blockchain_blocks E (c.2 - c.1 + 1) c.1 = Ok blocks /\ ledger_numbers t = [].
Proof.
  intros H. split.
  - unfold download in H.
    apply bind_inv_Ok in H as (? & s1 & t1 & ? & H1 & H & ->).
    apply bind_inv_Ok in H as (bs & s2 & t2 & ? & H2 & H & ->).
    apply bind_inv_Ok in H as (? & s3 & t3 & ? & H3 & H & ->).
    apply call_Ok in H2 as [_ H2]. simpl in H2.
    injection H as <- _ _. done.
  - unfold download in H. by silence H.
Qed.

(** The applier hands the ledger the numbers of the chunks, in order, when
    the remote answers each range with the blocks of this range. *)
Lemma apply_chunks_Ok chunkLen L R c chunks previous s last s' t :
  (forall count from bs,
     blockchain_blocks E count from = Ok bs -> number <$> bs ≡ₚ seqZ from count) ->
  apply_chunks E chunkLen L R c chunks previous s = (Ok last, s', t) ->
  ledger_numbers t = concat (chunk_numbers <$> chunks).
Proof.
  intros Hremote. revert previous s t.
  induction chunks as [|ch chunks IH]; intros previous s t; simpl.
  - by intros [= _ _ <-].
  - intros H.
    apply bind_inv_Ok in H as (bs & s1 & t1 & ? & H1 & H & ->).
    apply bind_inv_Ok in H as ([] & s2 & t2 & ? & H2 & H & ->).
    apply download_Ok in H1 as [Hbs Ht1].
    rewrite !ledger_numbers_app, Ht1, (IH _ _ _ H). simpl. f_equal.
    unfold chunk_numbers.
    rewrite <- (sortBy_number_range bs) by (by apply Hremote).
    destruct c.
    + by apply apply_cautious_Ok in H2.
    + apply bind_inv_Ok in H2 as ([] & s3 & t3 & ? & H3 & H2 & ->).
      apply call_Ok in H3 as [-> _].
      rewrite ledger_numbers_app. silence H2.
      unfold ledger_numbers. simpl. by rewrite !app_nil_r.
Qed.
End coverage.

(** C1. Take a run of [sync] that ends well, with [L] the number of the
    local current block ([-1] without one) and [R] the smaller of the number
    of the remote's current block and [to] (the former when [to] is falsy),
    [R > L]. If the remote answers each [blocks(count, from)] with blocks
    whose numbers are [from, ..., from+count-1] in some order, then the
    numbers of the blocks handed to the ledger, by [submitBlock] and in the
    arrays of [saveBlocksInMainBranch] taken in order, are
    [L+1, L+2, ..., R]: ascending, none twice, none missing. *)
Theorem ledger_receives_missing_blocks {W} (E : Env W) fuel to chunkLen asked
    nopeers (s : state E) w1 w2 w3 lCurrent rCurrent s' t :
  vucoin E (host E) (port E) (world s) = (w1, Ok tt) ->
  getCurrentBlockOrNull E w1 = (w2, Ok lCurrent) ->
  blockchain_current E w2 = (w3, Ok rCurrent) ->
  let L := match lCurrent with Some b => number b | None => -1 end in
  let R := Z.min (number rCurrent) (to_or to (number rCurrent)) in
  L < R ->
  (forall count from bs,
     blockchain_blocks E count from = Ok bs -> number <$> bs ≡ₚ seqZ from count) ->
  sync E fuel to chunkLen asked nopeers s = (Ok tt, s', t) ->
  ledger_numbers t = seqZ (L + 1) (R - L) /\
  StronglySorted Z.lt (ledger_numbers t) /\
  NoDup (ledger_numbers t).
Proof.
  intros H1 H2 H3 L R HLR Hremote Hrun.
  assert (Hnum : ledger_numbers t = seqZ (L + 1) (R - L)).
  { unfold sync in Hrun.
    apply bind_inv_Ok in Hrun as ([] & s0 & t0 & ? & [= <- <-] & Hrun & ->).
    apply catch_inv_Ok in Hrun;
      [|intros e s1; destruct (on_error_run (E:=E) e s1) as [-> _]; done].
    unfold sync_try in Hrun.
    apply bind_inv_Ok in Hrun as (h & s1 & t1 & ? & Hc & Hrun & ->).
    apply bind_inv_Ok in Hrun as ([] & s2 & t2 & ? & Hb & Hrun & ->).
    destruct (connect_Ok _ _ _ _ _ _ Hc)
      as (w1' & w2' & w3' & lCurrent' & rCurrent' & H1' & H2' & H3' & _
          & HL & HR & _ & ->).
    simpl in H1'. rewrite H1 in H1'. injection H1' as <-.
    rewrite H2 in H2'. injection H2' as <- <-.
    rewrite H3 in H3'. injection H3' as <- <-.
    fold L in HL. fold R in HR.
    unfold sync_blocks in Hb.
    apply bind_inv_Ok in Hb as ([] & s3 & t3 & ? & [= <- <-] & Hb & ->).
    apply bind_inv_Ok in Hb as ([] & s4 & t4 & ? & [= <- <-] & Hb & ->).
    unfold download_and_apply in Hb.
    apply bind_inv_Ok in Hb as (chunks & s5 & t5 & ? & Hp & Hb & ->).
    apply bind_inv_Ok in Hb as (lastBlocks & s6 & t6 & ? & Ha & Hb & ->).
    unfold plan in Hp. rewrite HL, HR in Hp, Ha.
    destruct (plan_chunks fuel L R (chunkLen_or_default chunkLen))
      as [chunks'|] eqn:Hplan; [|discriminate].
    injection Hp as <- <- <-.
    assert (HC : 1 <= chunkLen_or_default chunkLen)
      by (eapply chunks_loop_returns; [exact Hplan|lia]).
    rewrite !ledger_numbers_app.
    rewrite (apply_chunks_Ok _ _ _ _ _ _ _ _ _ _ Hremote Ha).
    rewrite (chunks_loop_tiles _ _ HC _ _ _ Hplan).
    rewrite (silent_run _ _ _ _ _ Hb), (silent_run _ _ _ _ _ Hrun).
    - simpl. rewrite !app_nil_r. clearbody L R. f_equal. lia.
    - apply emits_bind.
      + destruct nopeers; [emits_step|].
        eapply emits_mono; [|apply emits_sync_peers].
        by intros [| | | | | | | | | | | | | | |? [[]|]| |].
      + intros _. repeat emits_step.
    - repeat first [by apply emits_appliedPercent_gen | emits_step]. }
  rewrite Hnum. split_and!; [done | |apply NoDup_seqZ].
  apply StronglySorted_seqZ. auto.
Qed.

Lemma ledger_receives_missing_blocks_witness :
  let o := sync (demo fresh_node) 1300 ToUndefined None None false
                (Synchroniser (demo fresh_node) 0) in
  o.1.1 = Ok tt /\ ledger_numbers o.2 = seqZ 0 1201.
Proof.
  set (run := sync (demo fresh_node) 1300 ToUndefined None None false
                   (Synchroniser (demo fresh_node) 0)).
  assert (Hrun : run = (Ok tt, run.1.2, run.2)) by (vm_compute; reflexivity).
  split; [by rewrite Hrun|].
  refine (proj1 (ledger_receives_missing_blocks (demo fresh_node) 1300
                   ToUndefined None None false (Synchroniser (demo fresh_node) 0)
                   100 100 100 None (plain_block 1200 ) _ _
                   eq_refl eq_refl eq_refl _ _ Hrun)).
  - simpl. lia.
  - intros count from bs [= <-]. by rewrite fmap_reverse, reverse_Permutation,
      <- list_fmap_compose, list_fmap_id.
Defined.

(** ** The peers *)

Lemma leaf_fetches_app t1 t2 :
  leaf_fetches (t1 ++ t2) = leaf_fetches t1 ++ leaf_fetches t2.
Proof. apply omap_app. Qed.

Lemma leaf_submissions_app t1 t2 :
  leaf_submissions (t1 ++ t2) = leaf_submissions t1 ++ leaf_submissions t2.
Proof. apply omap_app. Qed.

Lemma leaf_lists_none t :
  Forall (fun e => is_leaf_list e = false) t -> leaf_lists t = 0%nat.
Proof.
  unfold leaf_lists. induction 1 as [|e t He _ IH]; [done|].
  rewrite filter_cons, He. done.
Qed.

Section peers.
Context {W : Type} {E : Env W}.

Lemma add_leaves_Ok to leaves (s : state E) s' t :
  add_leaves E to leaves s = (Ok tt, s', t) ->
  exists answers,
    Forall2 (answered E) leaves answers /\
    t = concat (zip_with (leaf_exchange to) leaves answers).
Proof.
  revert s t. induction leaves as [|leaf leaves IH]; intros s t; simpl.
  - intros [= _ <-]. exists []. split; [constructor|done].
  - intros H.
    apply bind_inv_Ok in H as (a & s1 & t1 & ? & H1 & H & ->).
    apply bind_inv_Ok in H as ([] & s2 & t2 & ? & [= <- <-] & H & ->).
    apply bind_inv_Ok in H as ([] & s3 & t3 & ? & H3 & H & ->).
    apply call_Ok in H1 as [-> H1]. apply call_Ok in H3 as [-> _].
    destruct (IH _ _ H) as (answers & Hans & ->).
    exists (a :: answers). split; [|done].
    constructor; [|done]. exists (world s).
    destruct (peers_leaf E leaf (world s)) as [w' r]. simpl in H1. subst r.
    by exists w'.
Qed.

Lemma add_leaves_fetches to leaves (s : state E) :
  leaf_fetches (add_leaves E to leaves s).2 `prefix_of` leaves.
Proof.
  revert s. induction leaves as [|leaf leaves IH]; intros s; simpl; [done|].
  unfold bind at 1, call at 1.
  destruct (peers_leaf E leaf (world s)) as [w1 [a|e|]]; simpl;
    try (by apply prefix_cons, prefix_nil).
  unfold bind at 1, watcher_writeStatus at 1. simpl.
  unfold bind at 1, call at 1. simpl.
  destruct (submitP E _ _ w1) as [w2 [[]|e|]]; simpl;
    try (by apply prefix_cons, prefix_nil).
  match goal with
  | |- context [add_leaves E to leaves ?s2] =>
      specialize (IH s2); destruct (add_leaves E to leaves s2) as [[r s3] t3]
  end.
  simpl in *. by apply prefix_cons.
Qed.

Lemma add_leaves_no_list to leaves :
  emits (fun e => is_leaf_list e = false) (add_leaves E to leaves).
Proof.
  induction leaves as [|leaf leaves IH]; simpl.
  - emits_step.
  - repeat first [ apply IH | emits_step ].
Qed.

Lemma leaf_fetches_exchanges to leaves answers :
  length leaves = length answers ->
  leaf_fetches (concat (zip_with (leaf_exchange to) leaves answers)) = leaves.
Proof.
  revert answers. induction leaves as [|l leaves IH]; intros [|a answers];
    simpl; try done.
  intros [= Hlen]. unfold leaf_fetches in *. simpl. by rewrite IH.
Qed.

Lemma leaf_submissions_exchanges to leaves answers :
  length leaves = length answers ->
  leaf_submissions (concat (zip_with (leaf_exchange to) leaves answers)) =
    (fun a => (Peering.Json (Peering.fields a) [], (false, is_undefined to)))
      <$> answers.
Proof.
  revert answers. induction leaves as [|l leaves IH]; intros [|a answers];
    simpl; try done.
  intros [= Hlen]. unfold leaf_submissions in *. simpl. by rewrite IH.
Qed.
End peers.

Section own_entry.
Context {W : Type} {E : Env W}.

Lemma syncPeer_run (s : state E) w1 json w2 r :
  peering_get E (world s) = (w1, Ok json) ->
  nonempty (Peer_getRaw E json) = true ->
  nonempty (dos2unix E (Peering.signature (Peering.fields json))) = true ->
  submitP E json None w1 = (w2, r) ->
  exists s',
    syncPeer E s =
      (own_entry_outcome E r, s',
       RemotePeering :: wrong_signature E json ++ [SubmitP json None]) /\
    world s' = w2 /\ logInterval s' = logInterval s.
Proof.
  intros Hget Hraw Hsig Hsubmit.
  unfold syncPeer, wrong_signature, own_entry_outcome, swallowed.
  unfold bind at 1, call at 1. rewrite Hget. simpl. rewrite Hraw, Hsig. simpl.
  unfold bind, catch, call, watcher_writeStatus, ret, throw.
  destruct (checkPeerSignature E json); simpl; rewrite Hsubmit; simpl.
  all: destruct r as [[]|e|]; simpl; eauto.
  all: destruct (decide (e <> ERROR_PEER_ALREADY_RECORDED (K E) /\
                         e <> ERROR_PEER_UNKNOWN_REFERENCE_BLOCK (K E)))
         as [Hd|Hd];
       destruct (decide (e = ERROR_PEER_ALREADY_RECORDED (K E) \/
                         e = ERROR_PEER_UNKNOWN_REFERENCE_BLOCK (K E)))
         as [Hs|Hs]; simpl; eauto; exfalso.
  all: try tauto.
  all: apply Hd; split; intros ->; apply Hs; auto.
Qed.

(** How a run of [sync] is made of the runs of its parts, when the blocks
    are done and the peers are asked for. *)
Lemma sync_with_peers fuel to chunkLen asked (s : state E) h s1 t1 s2 t2 r3 s3 t3 :
  connect E to asked (set_logInterval E false s) = (Ok h, s1, t1) ->
  sync_blocks E fuel (chunkLen_or_default chunkLen) h s1 = (Ok tt, s2, t2) ->
  sync_peers E to s2 = (r3, s3, t3) ->
  exists s',
    sync E fuel to chunkLen asked false s =
      match r3 with
      | Ok _ => (Ok tt, s', t1 ++ t2 ++ t3 ++ [WatcherEnd; Push (EvSync true None)])
      | Err e =>
          (Err e, s',
           t1 ++ t2 ++ t3 ++ Push (EvSync false (Some e)) :: ClearInterval
              :: status_of e ++ [WatcherEnd])
      | Hang => (Hang, s', t1 ++ t2 ++ t3)
      end.
Proof.
  intros Hc Hb Hp.
  assert (Hl2 : logInterval s2 = true)
    by (by destruct (sync_blocks_run _ _ _ _ _ _ _ Hb) as (? & _ & _ & ?)).
  assert (Hl3 : logInterval s3 = true).
  { destruct (emits_sync_peers to s2) as [Hl _]. rewrite Hp in Hl.
    simpl in Hl. congruence. }
  unfold sync, sync_try. unfold bind at 1, modify at 1. unfold catch.
  unfold bind at 1. rewrite Hc. unfold bind at 1. rewrite Hb.
  unfold bind at 1. rewrite Hp. destruct r3 as [[]|e|].
  - unfold bind, watcher_end, emit. simpl. by eexists.
  - destruct (on_error_run e s3) as [Hr Ht].
    destruct (on_error E e s3) as [[r4 s4] t4]. simpl in *. subst r4 t4.
    rewrite Hl3. simpl. rewrite <- !app_assoc. by eexists.
  - simpl. by eexists.
Qed.
End own_entry.

Section own_entry_in_sync.
Context {W : Type} {E : Env W}.

Lemma sync_peers_own_entry to (s : state E) w1 json w2 r :
  peering_get E (world s) = (w1, Ok json) ->
  nonempty (Peer_getRaw E json) = true ->
  nonempty (dos2unix E (Peering.signature (Peering.fields json))) = true ->
  submitP E json None w1 = (w2, r) ->
  let own := WriteStatus "Peers..." :: RemotePeering
               :: wrong_signature E json ++ [SubmitP json None] in
  exists r' s' t',
    sync_peers E to s = (r', s', own ++ t') /\
    match own_entry_outcome E r with
    | Ok _ => exists t'', t' = MerkleForPeers :: t''
    | Err e => r' = Err e /\ t' = []
    | Hang => r' = Hang /\ t' = []
    end.
Proof.
  intros Hget Hraw Hsig Hsubmit own.
  unfold sync_peers. unfold bind at 1, watcher_writeStatus at 1.
  set (s0 := set_baseWatcher E _ s).
  destruct (syncPeer_run s0 w1 json w2 r Hget Hraw Hsig Hsubmit)
    as (s1 & Hrun & Hw & _).
  unfold bind at 1. rewrite Hrun.
  destruct (own_entry_outcome E r) as [[]|e|].
  - unfold bind at 1, call at 1.
    destruct (merkleForPeers E (world s1)) as [w3 [local|e|]].
    + match goal with
      | |- context [bind ?m ?f ?x] => destruct (bind m f x) as [[r' s'] t']
      end.
      exists r', s', (MerkleForPeers :: t'). split; [|eauto].
      subst own. simpl. by rewrite <- !app_assoc.
    + do 3 eexists. split; [|eauto]. subst own. simpl.
      by rewrite <- !app_assoc.
    + do 3 eexists. split; [|eauto]. subst own. simpl.
      by rewrite <- !app_assoc.
  - exists (Err e), s1, []. split; [|done]. subst own. simpl.
    by rewrite app_nil_r.
  - exists Hang, s1, []. split; [|done]. subst own. simpl.
    by rewrite app_nil_r.
Qed.
End own_entry_in_sync.

(** C8. Take a run of [sync] that has downloaded and applied the blocks and
    comes to the peers, where the remote answers its peering entry [json]
    (with a raw form and a signature) and [submitP(json)] answers [r].
    Up to there the run is: the events of the blocks, the status line
    [Peers...], the request of the entry, a status line [Wrong signature
    for peer #...] exactly when the signature does not verify, and
    [submitP(json)], which is called whatever the signature. Then: if
    [submitP] threw [ALREADY_RECORDED] or [UNKNOWN_REFERENCE_BLOCK], or
    returned, the run goes on with [merkleForPeers]; if it threw any other
    error, [sync] throws this error, after the terminal event
    [{ sync: false, msg }], [clearInterval], the status line of the error
    and [watcher.end()]. *)
Theorem own_entry_errors {W} (E : Env W) fuel to chunkLen asked (s : state E)
    h s1 t1 s2 t2 w1 json w2 r :
  connect E to asked (set_logInterval E false s) = (Ok h, s1, t1) ->
  sync_blocks E fuel (chunkLen_or_default chunkLen) h s1 = (Ok tt, s2, t2) ->
  peering_get E (world s2) = (w1, Ok json) ->
  nonempty (Peer_getRaw E json) = true ->
  nonempty (dos2unix E (Peering.signature (Peering.fields json))) = true ->
  submitP E json None w1 = (w2, r) ->
  let o := sync E fuel to chunkLen asked false s in
  let own :=
    WriteStatus "Peers..." :: RemotePeering
      :: (if checkPeerSignature E json then []
          else [WriteStatus ("Wrong signature for peer #"
                               +:+ Peering.pubkey (Peering.fields json))])
      ++ [SubmitP json None] in
  match r with
  | Ok _ => exists t', o.2 = t1 ++ t2 ++ own ++ MerkleForPeers :: t'
  | Err e =>
      if decide (e = ERROR_PEER_ALREADY_RECORDED (K E) \/
                 e = ERROR_PEER_UNKNOWN_REFERENCE_BLOCK (K E))
      then exists t', o.2 = t1 ++ t2 ++ own ++ MerkleForPeers :: t'
      else o.1.1 = Err e /\
           o.2 = t1 ++ t2 ++ own ++ Push (EvSync false (Some e)) :: ClearInterval
                    :: status_of e ++ [WatcherEnd]
  | Hang => o.1.1 = Hang
  end.
Proof.
  intros Hc Hb Hget Hraw Hsig Hsubmit o own.
  destruct (sync_peers_own_entry to s2 w1 json w2 r Hget Hraw Hsig Hsubmit)
    as (r' & s' & t' & Hp & Hout).
  destruct (sync_with_peers fuel to chunkLen asked s h s1 t1 s2 t2 _ _ _ Hc Hb Hp)
    as (s'' & Hsync).
  subst o. rewrite Hsync. clear Hsync.
  fold (wrong_signature E json) in own.
  assert (Hgoes : forall t'', t' = MerkleForPeers :: t'' ->
            exists t0, (match r' with
                        | Ok _ => (Ok tt, s'',
                                   t1 ++ t2 ++ (own ++ t') ++
                                     [WatcherEnd; Push (EvSync true None)])
                        | Err e0 => (Err e0, s'',
                                     t1 ++ t2 ++ (own ++ t') ++
                                       Push (EvSync false (Some e0)) :: ClearInterval
                                       :: status_of e0 ++ [WatcherEnd])
                        | Hang => (Hang, s'', t1 ++ t2 ++ own ++ t')
                        end).2 = t1 ++ t2 ++ own ++ MerkleForPeers :: t0).
  { intros t'' ->. destruct r' as [[]|e0|]; simpl; eexists;
      rewrite <- ?app_assoc; simpl; reflexivity. }
  unfold own_entry_outcome, swallowed in Hout.
  destruct r as [[]|e|].
  - destruct Hout as [t'' Ht]. eauto.
  - destruct (decide _).
    + destruct Hout as [t'' Ht]. eauto.
    + destruct Hout as [-> ->]. simpl. by rewrite app_nil_r.
  - by destruct Hout as [-> ->].
Qed.

Lemma own_entry_errors_witness :
  (sync (demo failing_peering) 10 ToUndefined None None false
        (Synchroniser (demo failing_peering) 0)).1.1
  = Err (Thrown "Connection refused").
Proof.
  set (E := demo failing_peering).
  set (c := connect E ToUndefined None (set_logInterval E false (Synchroniser E 0))).
  assert (Hc : c = (Ok (Heights 0 2 true), c.1.2, c.2)) by (vm_compute; reflexivity).
  set (b := sync_blocks E 10 (chunkLen_or_default None) (Heights 0 2 true) c.1.2).
  assert (Hb : b = (Ok tt, b.1.2, b.2)) by (vm_compute; reflexivity).
  pose proof (own_entry_errors E 10 ToUndefined None None (Synchroniser E 0)
                _ _ _ _ _ (world b.1.2) (peer_of "REMOTE") (world b.1.2)
                (Err (Thrown "Connection refused"))
                Hc Hb eq_refl eq_refl eq_refl eq_refl) as H.
  cbv beta zeta iota in H.
  destruct (decide _) as [[Hd|Hd]|_] in H; [discriminate Hd..|].
  exact (proj1 H).
Defined.

(** ** The canonical form of a transaction *)

Lemma string_app_assoc (a b c : string) : (a +:+ b) +:+ c = a +:+ b +:+ c.
Proof.
  induction a as [|x a IH]; [reflexivity|].
  change (String x ((a +:+ b) +:+ c) = String x (a +:+ b +:+ c)).
  by rewrite IH.
Qed.

Lemma string_app_nil_r (a : string) : a +:+ EmptyString = a.
Proof.
  induction a as [|x a IH]; [reflexivity|].
  change (String x (a +:+ EmptyString) = String x a). by rewrite IH.
Qed.

(** A group that has items is written one item a line. *)
Lemma join_lines (l : list string) : join nl l +:+ nl = group_lines l.
Proof.
  destruct l as [|x l]; [done|]. unfold join, group_lines.
  revert x. induction l as [|y l IH]; intros x.
  - cbn [String.concat lines foldr]. by rewrite string_app_nil_r.
  - change (String.concat nl (x :: y :: l))
      with (x +:+ nl +:+ String.concat nl (y :: l)).
    rewrite !string_app_assoc, IH. done.
Qed.

Section canonical.
Variables (K : constants) (conf_currency : string) (hashf : string -> string).

Lemma tx_header_spec tx : tx_header K tx = spec_header (DOCUMENTS_VERSION K) tx.
Proof.
  unfold tx_header, spec_header, join. cbn [String.concat].
  rewrite !string_app_assoc. reflexivity.
Qed.

Lemma tx_raw_code tx : tx_raw K tx = code_canonical (DOCUMENTS_VERSION K) tx.
Proof.
  unfold tx_raw, code_canonical, spec_comment.
  rewrite !join_lines, tx_header_spec.
  destruct (comment tx) as [[|c text]|]; cbn [truthy default];
    rewrite ?string_app_assoc, ?string_app_nil_r; reflexivity.
Qed.
End canonical.

(** For a transaction whose four groups have items the code writes the
    layout of the specification. *)
Lemma code_canonical_spec doc_version tx :
  signatories tx <> [] -> inputs tx <> [] -> outputs tx <> [] ->
  signatures tx <> [] ->
  code_canonical doc_version tx = spec_canonical doc_version tx.
Proof.
  unfold code_canonical, spec_canonical.
  destruct (signatories tx), (inputs tx), (outputs tx), (signatures tx); done.
Qed.

(** The canonical form of C2 as it is stated does not hold of a transaction
    with an empty group: for [no_input_tx] the code writes an empty line
    where the inputs would be. *)
Lemma canonical_form_empty_group :
  raw (rawify (Constants 1 true (Thrown "a") (Thrown "b")) "beta_brousouf"
              (fun s => s) no_input_tx)
  <> Some (spec_canonical 1 no_input_tx).
Proof. vm_compute. discriminate. Qed.

(** C2, amended. In cautious mode every block is handed to [submitBlock]
    with each of its transactions rewritten as follows, the other fields
    being kept: [raw] is the header line
    [TX:<doc_version>:<N_sig>:<N_in>:<N_out>:<0|1>:<locktime>], then the
    signatories, the inputs, the outputs, the comment if there is one, and
    the signatures, where a group with items has each item on a line of its
    own that ends with a line feed and a group without items is one empty
    line; [version] and [currency] are those of the configuration;
    [issuers] is [signatories]; [hash] is the upper-case form of the hash
    of this canonical form. *)
Theorem transactions_are_rawified {W} (E : Env W) (c : bool) (R : Z) (b : block)
    (s : state E) :
  let doc_version := DOCUMENTS_VERSION (K E) in
  let rewritten tx tx' :=
    raw tx' = Some (code_canonical doc_version tx) /\
    version tx' = Some doc_version /\
    currency tx' = Some (conf_currency E) /\
    issuers tx' = Some (signatories tx) /\
    hash tx' = Some (toUpperCase (hashf E (code_canonical doc_version tx))) /\
    signatories tx' = signatories tx /\ inputs tx' = inputs tx /\
    outputs tx' = outputs tx /\ comment tx' = comment tx /\
    locktime tx' = locktime tx /\ signatures tx' = signatures tx in
  exists before b',
    (applyGivenBlock E c R b s).2
      = before ++ [SubmitBlock b' c (FORK_ALLOWED (K E))] /\
    Forall (fun e => submitted e = []) before /\
    number b' = number b /\
    Forall2 rewritten (transactions b) (transactions b').
Proof.
  intros doc_version rewritten.
  exists (removelast (applyGivenBlock E c R b s).2),
         (rawify_block (K E) (conf_currency E) (hashf E) b).
  assert (Hrun : exists before,
            (applyGivenBlock E c R b s).2
              = before ++ [SubmitBlock (rawify_block (K E) (conf_currency E)
                                                     (hashf E) b)
                                       c (FORK_ALLOWED (K E))] /\
            Forall (fun e => submitted e = []) before).
  { unfold applyGivenBlock, watcher_appliedPercent.
    unfold bind, modify, new_Date, base_appliedPercent, call, emit, ret.
    simpl. destruct (clock E (world s)) as [w1 now]. simpl.
    repeat match goal with
           | |- context [bw_appliedPercent ?B ?p ?x] =>
               destruct (bw_appliedPercent B p x) as [? ?]; simpl
           | |- context [js_neq ?x ?y] => destruct (js_neq x y); simpl
           | |- context [js_lt ?x ?y] => destruct (js_lt x y); simpl
           | |- context [submitBlock ?E ?x ?y ?z ?w] =>
               destruct (submitBlock E x y z w) as [? ?]; simpl
           end.
    all: first [ by exists []; split; [reflexivity|constructor]
               | by eexists [_]; split; [reflexivity|repeat constructor] ]. }
  destruct Hrun as (before & Hrun & Hbefore). rewrite Hrun.
  rewrite removelast_last. split_and!; auto.
  unfold rawify_block. simpl. apply Forall2_fmap_r, Forall_Forall2_diag.
  apply Forall_forall. intros tx _. unfold rewritten, rawify. simpl.
  unfold rawer_getTransaction. simpl.
  rewrite (tx_raw_code (K E)). by split_and!.
Qed.

(** ** Progress and speed in cautious mode

    In cautious mode every block is counted twice in [blocksApplied], once
    by [applyGivenBlock] and once by [incrementBlocks(1)], and
    [incrementBlocks] is run for every block, not for every chunk as in the
    other mode. *)

(** C3 (the code departs from it). A node at block 0 catches up with a
    remote at block 1, in cautious mode, with the logging watcher: the run
    ends well; [{ download: 100 }] is pushed; [{ applied: 100 }] is pushed
    when the block is applied, then [{ applied: 200 }] by
    [incrementBlocks], which finds [blocksApplied = 2]. *)
Theorem applied_percent_overshoots :
  let E := demo one_behind in
  let o := sync E 10 ToUndefined None None true (Synchroniser E 0) in
  o.1.1 = Ok tt /\
  ledger_numbers o.2 = [1] /\
  blocksApplied o.1.2 = 2 /\
  download_pushes o.2 = [Num 100] /\
  applied_pushes o.2 = [Num 100; Num 200] /\
  Exists (fun pct => js_lt (Num 100) pct = true) (applied_pushes o.2).
Proof. vm_compute. split_and!; try reflexivity. right. left. reflexivity. Qed.

(** The other mode counts each block once: the same node, asked not to be
    cautious, pushes [{ applied: 100 }] only. *)
Lemma applied_percent_fast :
  let E := demo one_behind in
  let o := sync E 10 ToUndefined None (Some false) true (Synchroniser E 0) in
  o.1.1 = Ok tt /\ blocksApplied o.1.2 = 1 /\ applied_pushes o.2 = [Num 100].
Proof. vm_compute. by split_and!. Qed.

(** C6 (the code departs from it). A node at block 0 catches up with a
    remote at block 2, in cautious mode: there is one chunk, [[1, 2]], and
    the window, which held the one timestamp of the construction, holds
    three timestamps at the end, one more for each block; the speed is then
    [500 * 2 / 1] blocks a second, for two blocks applied. *)
Theorem cautious_window_counts_blocks :
  let E := demo catching_up in
  let s0 := Synchroniser E 0 in
  let o := sync E 10 ToUndefined None None true s0 in
  o.1.1 = Ok tt /\
  plan_chunks 10 0 2 CONST_BLOCKS_CHUNK = Some [(1, 2)] /\
  ledger_numbers o.2 = [1; 2] /\
  times s0 = [0] /\
  times o.1.2 = [0; 200; 500] /\
  speed o.1.2 = Qmake 1000 1.
Proof. vm_compute. by split_and!. Qed.

(** The other mode appends one timestamp for the chunk. *)
Lemma fast_window_counts_chunks :
  let E := demo catching_up in
  let s0 := Synchroniser E 0 in
  let o := sync E 10 ToUndefined None (Some false) true s0 in
  o.1.1 = Ok tt /\
  ledger_numbers o.2 = [1; 2] /\
  times s0 = [0] /\
  times o.1.2 = [0; 100] /\
  speed o.1.2 = Qmake 500 1.
Proof. vm_compute. by split_and!. Qed.

(** *** What holds of the estimator *)

(** The [reduce] sums up to the time between the first and the last
    timestamp of the window. *)
Lemma last_cons_default (d d' x : Z) l :
  default d (last (x :: l)) = default d' (last (x :: l)).
Proof.
  destruct (proj2 (last_is_Some (x :: l))) as [y Hy]; [done|]. by rewrite Hy.
Qed.

Lemma duration_from_span prev l sum :
  duration_from prev l sum = sum + (default prev (last l) - prev).
Proof.
  revert prev sum. induction l as [|t l IH]; intros prev sum; simpl; [lia|].
  rewrite IH. destruct l as [|t' l]; [simpl; lia|].
  change (last (t :: t' :: l)) with (last (t' :: l)).
  rewrite (last_cons_default t prev). lia.
Qed.

Lemma duration_span t0 l : duration (t0 :: l) = default t0 (last (t0 :: l)) - t0.
Proof.
  simpl. rewrite duration_from_span. destruct l as [|t l]; [simpl; lia|].
  change (last (t0 :: t :: l)) with (last (t :: l)). lia.
Qed.

(** [Math.round(Math.max(x, 1))] is [max(1, Math.round(x))]. *)
Lemma round_seconds_max ms :
  round_seconds ms = Z.max 1 (js_round (Qmake ms 1000)).
Proof.
  unfold round_seconds, js_max, js_round.
  assert (H1 : Qfloor (Qplus (inject_Z 1) (Qmake 1 2)) = 1) by reflexivity.
  destruct (Qle_bool (Qmake ms 1000) (inject_Z 1)) eqn:Hle.
  - apply Qle_bool_iff in Hle. rewrite H1.
    assert (Qfloor (Qplus (Qmake ms 1000) (Qmake 1 2)) <= 1); [|lia].
    rewrite <- H1. apply Qfloor_resp_le. by apply Qplus_le_l.
  - assert (Hgt : Qlt (inject_Z 1) (Qmake ms 1000)).
    { apply Qnot_le_lt. intros Hle'. apply Qle_bool_iff in Hle'. congruence. }
    assert (1 <= Qfloor (Qplus (Qmake ms 1000) (Qmake 1 2))); [|lia].
    rewrite <- H1. apply Qfloor_resp_le. apply Qplus_le_l. by apply Qlt_le_weak.
Qed.

Lemma window_seconds kept now :
  round_seconds (duration (kept ++ [now])) =
  Z.max 1 (js_round (Qmake (default 0 (last (kept ++ [now]))
                            - default 0 (head (kept ++ [now]))) 1000)).
Proof.
  rewrite round_seconds_max. do 3 f_equal.
  destruct kept as [|t0 l]; [simpl; lia|].
  change ((t0 :: l) ++ [now]) with (t0 :: (l ++ [now])).
  rewrite duration_span, (last_cons_default t0 0). done.
Qed.

(** X1. One run of [incrementBlocks]: it appends the reading of the clock to
    the window, after dropping the oldest timestamp when the window holds
    [COMPUTE_SPEED_ON_COUNT_CHUNKS] of them, so that a window of at most 8
    stays so; and the speed it sets is
    [chunkLen * (len - 1) / max(1, round(span / 1000))], with [len] the
    length of the new window and [span] the time between its first and its
    last timestamp. *)
Lemma incrementBlocks_window {W} (E : Env W) chunkLen L R n (s : state E) :
  let s' := (incrementBlocks E chunkLen L R n s).1.2 in
  let now := (clock E (world s)).2 in
  let kept := if decide (length (times s) = COMPUTE_SPEED_ON_COUNT_CHUNKS)
              then drop 1 (times s) else times s in
  times s' = kept ++ [now] /\
  ((length (times s) <= 8)%nat -> (length (times s') <= 8)%nat) /\
  blocksApplied s' = blocksApplied s + n /\
  speed s' =
    Qdiv (inject_Z (chunkLen * (Z.of_nat (length (times s')) - 1)))
         (inject_Z (Z.max 1 (js_round
            (Qmake (default 0 (last (times s')) - default 0 (head (times s')))
                   1000)))).
Proof.
  intros s' now kept. subst s' now kept.
  unfold incrementBlocks, watcher_appliedPercent.
  unfold bind, modify, new_Date, gets, base_appliedPercent, emit, ret.
  simpl. destruct (clock E (world s)) as [w1 now]. simpl.
  unfold COMPUTE_SPEED_ON_COUNT_CHUNKS.
  destruct (decide (length (times s) = 8%nat)) as [Hd|Hd]; simpl;
    destruct (clock E w1) as [w2 now']; simpl.
  all: repeat match goal with
         | |- context [bw_appliedPercent ?B ?p ?x] =>
             destruct (bw_appliedPercent B p x) as [? ?]; simpl
         | |- context [js_neq ?x ?y] => destruct (js_neq x y); simpl
         | |- context [js_lt ?x ?y] => destruct (js_lt x y); simpl
         end.
  all: rewrite window_seconds; split_and!; try done.
  all: rewrite length_app, ?length_drop; simpl; lia.
Qed.

Lemma incrementBlocks_window_witness :
  let E := demo catching_up in
  let s' := (incrementBlocks E 500 0 2 1 (Synchroniser E 0)).1.2 in
  times s' = [0; 100] /\ (length (times s') <= 8)%nat /\ blocksApplied s' = 1.
Proof.
  destruct (incrementBlocks_window (demo catching_up) 500 0 2 1 (Synchroniser _ 0))
    as (Ht & Hl & Hb & _).
  split; [exact Ht|]. split; [|exact Hb]. apply Hl. simpl. lia.
Defined.

(** * More on the synchroniser *)

(** ** How runs compose *)

Section runs.
Context {W : Type} {E : Env W}.

(** The run of a sequence is the run of its first part, followed by the
    run of the second when the first returns. *)
Lemma bind_run {A B} (m : M E A) (f : A -> M E B) s r s' t :
  bind m f s = (r, s', t) ->
  (exists a s1 t1 t2,
     m s = (Ok a, s1, t1) /\ f a s1 = (r, s', t2) /\ t = t1 ++ t2) \/
  (exists e, m s = (Err e, s', t) /\ r = Err e) \/
  (m s = (Hang, s', t) /\ r = Hang).
Proof.
  unfold bind. destruct (m s) as [[[a|e|] s1] t1].
  - destruct (f a s1) as [[r2 s2] t2] eqn:Hf. intros [= <- <- <-].
    left. by exists a, s1, t1, t2.
  - intros [= <- <- <-]. right. left. by exists e.
  - intros [= <- <- <-]. by right; right.
Qed.

Lemma call_run {A} e (f : W -> W * result A) (s : state E) :
  call e f s = ((f (world s)).2, set_world E (f (world s)).1 s, [e]).
Proof. unfold call. by destruct (f (world s)). Qed.

(** [sync] is its [try] block, followed by the [catch] block when the
    [try] block throws. *)
Lemma sync_of_try fuel to chunkLen asked nopeers (s : state E) r s1 t :
  sync_try E fuel to (chunkLen_or_default chunkLen) asked nopeers
           (set_logInterval E false s) = (r, s1, t) ->
  sync E fuel to chunkLen asked nopeers s =
    match r with
    | Err e => (Err e, (on_error E e s1).1.2, t ++ (on_error E e s1).2)
    | _ => (r, s1, t)
    end.
Proof.
  intros Hrun. unfold sync, bind at 1, modify at 1, catch. rewrite Hrun.
  destruct r as [[]|e|]; simpl; try done.
  destruct (on_error_run e s1) as [Hr _].
  destruct (on_error E e s1) as [[r2 s2] t2]. simpl in *. by subst r2.
Qed.

(** What [connect] does when the remote is reached and speaks a recent
    protocol. *)
Lemma connect_run to asked (s : state E) w1 w2 w3 lCurrent rCurrent :
  vucoin E (host E) (port E) (world s) = (w1, Ok tt) ->
  getCurrentBlockOrNull E w1 = (w2, Ok lCurrent) ->
  blockchain_current E w2 = (w3, Ok rCurrent) ->
  2 <= block_version rCurrent ->
  exists s1,
    connect E to asked s =
      (Ok (Heights
             (match lCurrent with Some b => number b | None => -1 end)
             (Z.min (number rCurrent) (to_or to (number rCurrent)))
             (match asked with
              | Some a => a
              | None => 0 <=? match lCurrent with Some b => number b | None => -1 end
              end)),
       s1,
       [ Connect (host E) (port E); GetCurrentBlockOrNull;
         WriteStatus ("Connecting to " +:+ host E +:+ "..."); RemoteCurrent ]) /\
    world s1 = w3 /\ logInterval s1 = logInterval s /\
    times s1 = times s /\ blocksApplied s1 = blocksApplied s.
Proof.
  intros H1 H2 H3 Hv.
  unfold connect, bind, catch, call, throw, watcher_writeStatus, ret. simpl.
  rewrite H1. simpl. rewrite H2. simpl. rewrite H3. simpl.
  destruct (Z.ltb_spec (block_version rCurrent) 2); [lia|]. simpl.
  eexists. split; [by destruct asked as [[]|] | done].
Qed.
End runs.

(** ** A remote that cannot be reached *)

(** X2. When the connection to the remote fails with [err], [sync] throws the
    string [Cannot sync: ] followed by [String(err)], after the terminal
    event, the status line and [watcher.end()]; it sets no timer and calls
    nothing else. *)
Theorem connection_failure {W} (E : Env W) fuel to chunkLen asked nopeers
    (s : state E) w1 err :
  vucoin E (host E) (port E) (world s) = (w1, Err err) ->
  let message := "Cannot sync: " +:+ error_string err in
  let o := sync E fuel to chunkLen asked nopeers s in
  o.1.1 = Err (Thrown message) /\
  o.2 = [ Connect (host E) (port E);
          Push (EvSync false (Some (Thrown message)));
          WriteStatus message;
          WatcherEnd ] /\
  world o.1.2 = w1.
Proof.
  intros H1 message o. subst o.
  unfold sync, sync_try, connect, bind, catch, call, modify,
    watcher_writeStatus, on_error, emit, gets, throw, watcher_end, ret.
  simpl. rewrite H1. simpl. done.
Qed.

(** ** The events of a run, part by part *)

Section parts.
Context {W : Type} {E : Env W}.

Lemma sync_blocks_of_download fuel chunkLen h (s : state E) :
  sync_blocks E fuel chunkLen h s =
    let o := download_and_apply E fuel chunkLen h (set_logInterval E true s) in
    (o.1.1, o.1.2, SetInterval :: o.2).
Proof.
  unfold sync_blocks, bind, modify, emit.
  destruct (download_and_apply E fuel chunkLen h (set_logInterval E true s))
    as [[[[]|e|] s'] t]; done.
Qed.

(** The run of the [try] block: events of its parts, then, exactly when it
    returns, [watcher.end()] and the terminal event. *)
Lemma sync_try_ends (P : event -> Prop) fuel to chunkLen asked (nopeers : bool)
    (s : state E) r s' t :
  (forall e, connect_event e -> P e) ->
  P SetInterval ->
  (forall h s1 t1, connect E to asked s = (Ok h, s1, t1) ->
     emits P (download_and_apply E fuel chunkLen h)) ->
  emits P (if nopeers then ret tt else sync_peers E to) ->
  sync_try E fuel to chunkLen asked nopeers s = (r, s', t) ->
  exists before,
    Forall P before /\
    t = before ++ match r with
                  | Ok _ => [WatcherEnd; Push (EvSync true None)]
                  | _ => []
                  end.
Proof.
  intros Pconnect Pset Pblocks Ppeers Hrun. unfold sync_try in Hrun.
  assert (Hc : Forall P (connect E to asked s).2).
  { destruct (emits_connect to asked s) as [_ Hc].
    eapply Forall_impl; [exact Hc|]. apply Pconnect. }
  apply bind_run in Hrun
    as [(h & s1 & t1 & t2 & Hconnect & Hrun & ->)|[(e & Hconnect & ->)|[Hconnect ->]]];
    rewrite Hconnect in Hc; simpl in Hc.
  2,3: exists t; by rewrite app_nil_r.
  specialize (Pblocks h s1 t1 Hconnect).
  apply bind_run in Hrun
    as [([] & s2 & t3 & t4 & Hb & Hrun & ->)|[(e & Hb & ->)|[Hb ->]]];
    rewrite sync_blocks_of_download in Hb;
    destruct (Pblocks (set_logInterval E true s1)) as [_ Hd];
    destruct (download_and_apply E fuel chunkLen h (set_logInterval E true s1))
      as [[r2 s2'] t2']; simpl in Hb, Hd; injection Hb as -> -> <-.
  2,3: eexists; rewrite app_nil_r; split; [|done];
       apply Forall_app; split; [done|by constructor].
  apply bind_run in Hrun
    as [([] & s3 & t5 & t6 & Hp & Hrun & ->)|[(e & Hp & ->)|[Hp ->]]];
    destruct (Ppeers s2) as [_ Hpe]; rewrite Hp in Hpe; simpl in Hpe.
  2,3: eexists; rewrite app_nil_r; split; [|done];
       rewrite !Forall_app; split_and!; [done|by constructor|done].
  unfold bind, watcher_end, emit in Hrun. simpl in Hrun.
  injection Hrun as <- <- <-.
  exists (t1 ++ (SetInterval :: t2') ++ t5). split.
  - rewrite !Forall_app; split_and!; [done|by constructor|done].
  - by rewrite <- !app_assoc.
Qed.

(** A property of all the events of all the runs of [sync]. *)
Lemma sync_forall (P : event -> Prop) fuel to chunkLen asked (nopeers : bool)
    (s : state E) :
  (forall e, connect_event e -> P e) ->
  P SetInterval ->
  (forall h s1 t1,
     connect E to asked (set_logInterval E false s) = (Ok h, s1, t1) ->
     emits P (download_and_apply E fuel (chunkLen_or_default chunkLen) h)) ->
  emits P (if nopeers then ret tt else sync_peers E to) ->
  P WatcherEnd -> P (Push (EvSync true None)) ->
  (forall e, error_event e -> P e) ->
  Forall P (sync E fuel to chunkLen asked nopeers s).2.
Proof.
  intros Pconnect Pset Pblocks Ppeers Pend Pok Perr.
  destruct (sync_try E fuel to (chunkLen_or_default chunkLen) asked nopeers
              (set_logInterval E false s)) as [[r s1] t] eqn:Hrun.
  rewrite (sync_of_try _ _ _ _ _ _ _ _ _ Hrun).
  destruct (sync_try_ends P _ _ _ _ _ _ _ _ _ Pconnect Pset Pblocks Ppeers Hrun)
    as (before & Hbefore & ->).
  destruct r as [[]|e|]; simpl.
  - apply Forall_app. split; [done|]. by repeat constructor.
  - rewrite app_nil_r. destruct (on_error_run e s1) as [_ ->].
    apply Forall_app. split; [done|].
    constructor; [by apply Perr|]. apply Forall_app. split.
    + destruct (logInterval s1); repeat constructor. by apply Perr.
    + apply Forall_app. split; [|repeat constructor; by apply Perr].
      unfold status_of. destruct (error_status e); repeat constructor.
      by apply Perr.
  - by rewrite app_nil_r.
Qed.
End parts.

(** ** The end of a run *)

Lemma terminal_events_progress t :
  Forall progress_event t -> terminal_events t = [] /\ watcher_ends t = 0%nat.
Proof.
  unfold terminal_events, watcher_ends.
  induction 1 as [|e t He _ [IH1 IH2]]; [done|]. simpl.
  rewrite filter_cons. destruct e as [[]| | | | | | | | | | | | | | | | |]; done.
Qed.

Lemma applier_events_app t1 t2 :
  applier_events (t1 ++ t2) = applier_events t1 ++ applier_events t2.
Proof. apply filter_app. Qed.

Lemma applier_events_progress t :
  Forall progress_event t ->
  Forall progress_event (applier_events t) /\
  Forall is_applier_side (applier_events t).
Proof.
  intros Ht. unfold applier_events. rewrite !Forall_forall in *. split.
  - intros e [_ He]%list_elem_of_filter. by apply Ht.
  - by intros e [He _]%list_elem_of_filter.
Qed.

(** X3. Every run of [sync] that returns or throws pushes one terminal event
    and calls [watcher.end()] once, and a run that does not return pushes
    no terminal event and does not call [watcher.end()]. A run that returns
    ends with [watcher.end()] and [{ sync: true }]. In a run that throws
    [err], the events of the applier's side (all but the requests of blocks
    and the download percentages, which the download chain may still cause
    while the [catch] block runs and after it) end with
    [{ sync: false, msg: err }], [clearInterval] if the timer was set, the
    status line of the error and [watcher.end()], with no call to a
    collaborator among them after the terminal event. *)
Theorem one_terminal_event {W} (E : Env W) fuel to chunkLen asked nopeers
    (s : state E) :
  let o := sync E fuel to chunkLen asked nopeers s in
  match o.1.1 with
  | Ok _ =>
      (exists before,
         Forall progress_event before /\
         o.2 = before ++ [WatcherEnd; Push (EvSync true None)]) /\
      terminal_events o.2 = [(true, None)] /\ watcher_ends o.2 = 1%nat
  | Err err =>
      (exists before clear,
         Forall progress_event before /\ Forall is_applier_side before /\
         (clear = [] \/ clear = [ClearInterval]) /\
         applier_events o.2 = before ++ Push (EvSync false (Some err))
                                :: clear ++ status_of err ++ [WatcherEnd]) /\
      terminal_events o.2 = [(false, Some err)] /\ watcher_ends o.2 = 1%nat
  | Hang =>
      terminal_events o.2 = [] /\ watcher_ends o.2 = 0%nat
  end.
Proof.
  intros o. subst o.
  destruct (sync_try E fuel to (chunkLen_or_default chunkLen) asked nopeers
              (set_logInterval E false s)) as [[r s1] t] eqn:Hrun.
  rewrite (sync_of_try _ _ _ _ _ _ _ _ _ Hrun).
  assert (Hbefore : exists before,
            Forall progress_event before /\
            t = before ++ match r with
                          | Ok _ => [WatcherEnd; Push (EvSync true None)]
                          | _ => []
                          end).
  { eapply sync_try_ends; [| | | |exact Hrun].
    - by intros [].
    - done.
    - intros. eapply emits_mono; [|apply emits_download_and_apply].
      by intros [[]| | | | | | | | | | | | | | | | |].
    - destruct nopeers; [emits_step|].
      eapply emits_mono; [|apply emits_sync_peers].
      by intros [[]| | | | | | | | | | | | | | | | |]. }
  destruct Hbefore as (before & Hbefore & ->).
  destruct (terminal_events_progress before Hbefore) as [Hte Hwe].
  destruct (applier_events_progress before Hbefore) as [Hap1 Hap2].
  unfold terminal_events, watcher_ends in *.
  destruct r as [[]|err|]; simpl.
  - split; [by exists before|].
    rewrite omap_app, filter_app, length_app, Hte, Hwe. done.
  - rewrite app_nil_r. destruct (on_error_run err s1) as [_ ->].
    split.
    + exists (applier_events before), (if logInterval s1 then [ClearInterval] else []).
      split_and!; [done | done | destruct (logInterval s1); auto |].
      rewrite applier_events_app. f_equal. unfold status_of.
      destruct (logInterval s1), (error_status err); done.
    + rewrite omap_app, filter_app, length_app, Hte, Hwe. simpl.
      rewrite filter_cons. simpl. rewrite !omap_app, !filter_app, !length_app.
      unfold status_of.
      destruct (logInterval s1), (error_status err); done.
  - by rewrite app_nil_r.
Qed.
Lemma connection_failure_witness :
  let E := faulty catching_up unreachable in
  let o := sync E 10 ToUndefined None None false (Synchroniser E 0) in
  o.1.1 = Err (Thrown "Cannot sync: Error: connect ECONNREFUSED") /\
  o.2 = [ Connect "remote" 8999;
          Push (EvSync false (Some (Thrown "Cannot sync: Error: connect ECONNREFUSED")));
          WriteStatus "Cannot sync: Error: connect ECONNREFUSED";
          WatcherEnd ].
Proof.
  pose proof (connection_failure (faulty catching_up unreachable) 10 ToUndefined
                None None false (Synchroniser _ 0) _ _ eq_refl) as (H1 & H2 & _).
  split; [exact H1 | exact H2].
Defined.

(** ** What a run never does *)

(** X4. With [nopeers], no run of [sync] asks the remote for its peering entry
    or its peers, reads the local Merkle tree of peers or submits a peer. *)
Theorem nopeers_skips_peers {W} (E : Env W) fuel to chunkLen asked (s : state E) :
  Forall (fun e => is_peer_event e = false)
         (sync E fuel to chunkLen asked true s).2.
Proof.
  apply sync_forall; [by intros [] | done | | | done | done | by intros []].
  - intros. eapply emits_mono; [|apply emits_download_and_apply]. by intros [].
  - apply emits_ret.
Qed.

Section modes.
Context {W : Type} {E : Env W}.

Lemma emits_mode_apply_cautious chunkLen L R blocks :
  emits (mode_event true) (apply_cautious E chunkLen L R true blocks).
Proof.
  induction blocks as [|b blocks IH]; simpl.
  - emits_step.
  - unfold applyGivenBlock.
    repeat first [ by apply emits_appliedPercent_gen
                 | by apply emits_incrementBlocks_gen
                 | apply IH | emits_step ].
Qed.

Lemma emits_mode_apply_chunks chunkLen L R c chunks previous :
  emits (mode_event c) (apply_chunks E chunkLen L R c chunks previous).
Proof.
  revert previous. induction chunks as [|ch chunks IH]; intros previous; simpl.
  - emits_step.
  - unfold download. destruct c.
    all: repeat first [ by apply emits_appliedPercent_gen
                      | by apply emits_downloadPercent_gen
                      | by apply emits_incrementBlocks_gen
                      | apply emits_mode_apply_cautious
                      | apply IH | emits_step ].
Qed.

Lemma emits_mode_download_and_apply fuel chunkLen h :
  emits (mode_event (cautious h)) (download_and_apply E fuel chunkLen h).
Proof.
  unfold download_and_apply. apply emits_bind.
  { intros s. unfold plan. by destruct plan_chunks. }
  intros chunks. apply emits_bind; [apply emits_mode_apply_chunks|].
  intros lastBlocks. destruct (cautious h); simpl.
  all: repeat first [ by apply emits_appliedPercent_gen | emits_step ].
Qed.
End modes.

(** X5. The mode of a run is the one asked for; when none is asked for it is
    the cautious one exactly if the node has a current block (of a number
    that is not negative). A cautious run hands blocks to the ledger only
    through [submitBlock], with the cautious flag set; a fast run never
    calls [submitBlock], and only a fast run calls [saveBlocksInMainBranch]
    and [obsoleteInMainBranch]. *)
Theorem mode_selection {W} (E : Env W) fuel to chunkLen asked nopeers
    (s : state E) w1 w2 lCurrent :
  vucoin E (host E) (port E) (world s) = (w1, Ok tt) ->
  getCurrentBlockOrNull E w1 = (w2, Ok lCurrent) ->
  let mode := match asked, lCurrent with
              | Some a, _ => a
              | None, Some b => 0 <=? number b
              | None, None => false
              end in
  Forall (mode_event mode) (sync E fuel to chunkLen asked nopeers s).2.
Proof.
  intros H1 H2 mode.
  apply sync_forall; [by intros [] | done | | | done | done | by intros []].
  - intros h s1 t1 Hc.
    apply connect_Ok in Hc
      as (w1' & w2' & w3 & lC & rC & Hv & Hg & _ & _ & HL & _ & Hcau & _).
    simpl in Hv. rewrite H1 in Hv. injection Hv as <-.
    rewrite H2 in Hg. injection Hg as <- <-.
    replace mode with (cautious h); [apply emits_mode_download_and_apply|].
    rewrite Hcau, HL. subst mode. by destruct asked, lCurrent.
  - destruct nopeers; [emits_step|].
    eapply emits_mono; [|apply emits_sync_peers]. by intros [].
Qed.

Lemma mode_selection_witness :
  let E := demo catching_up in
  Forall (mode_event true)
         (sync E 10 ToUndefined None None false (Synchroniser E 0)).2 /\
  Forall (mode_event false)
         (sync E 10 ToUndefined None (Some false) false (Synchroniser E 0)).2.
Proof.
  split.
  - exact (mode_selection (demo catching_up) 10 ToUndefined None None false
             (Synchroniser _ 0) _ _ _ eq_refl eq_refl).
  - exact (mode_selection (demo catching_up) 10 ToUndefined None (Some false) false
             (Synchroniser _ 0) _ _ _ eq_refl eq_refl).
Defined.
(** ** The edges of the block phase *)

Section edges.
Context {W : Type} {E : Env W}.

(** A chunk length below 1 leaves the planning loop without an exit. *)
Lemma plan_chunks_hangs fuel L R C :
  C < 1 -> L < R -> plan_chunks fuel L R C = None.
Proof.
  intros HC HL. unfold plan_chunks.
  destruct (chunks_loop fuel (L + 1) R C) as [cs|] eqn:Hrun; [|done].
  apply chunks_loop_returns in Hrun; lia.
Qed.

Lemma appliedPercent_returns pct (s : state E) :
  exists v, (watcher_appliedPercent E pct s).1.1 = Ok v.
Proof.
  unfold watcher_appliedPercent, base_appliedPercent, bind, emit, ret.
  destruct pct as [p|].
  - destruct (bw_appliedPercent (base E) None (baseWatcher s)) as [b cur].
    destruct (js_lt cur p); simpl;
      destruct (bw_appliedPercent (base E) (Some p) _) as [b' v]; by exists v.
  - destruct (bw_appliedPercent (base E) None (baseWatcher s)) as [b v].
    by exists v.
Qed.

(** The block phase of a node that has nothing to fetch. *)
Lemma download_and_apply_nothing fuel chunkLen h (s : state E) :
  remoteNumber h <= localNumber h ->
  download_and_apply E fuel chunkLen h s =
    bind (watcher_appliedPercent E (Some (Num 100)))
         (fun _ => bind (call (GetBlock 0) (getBlock E 0))
                        (fun rootBlock =>
                           call (SaveParametersForRootBlock rootBlock)
                                (saveParametersForRootBlock E rootBlock))) s.
Proof.
  intros Hh. unfold download_and_apply, plan, plan_chunks.
  rewrite chunks_loop_past by lia. unfold bind at 1. simpl apply_chunks.
  unfold bind at 1. unfold ret at 1. rewrite bool_decide_eq_false_2 by naive_solver.
  rewrite andb_false_r. unfold bind at 1. unfold ret at 1.
  by destruct (bind _ _ s) as [[r s'] t].
Qed.

Lemma download_and_apply_reads_root fuel chunkLen h (s : state E) :
  remoteNumber h <= localNumber h ->
  Forall (fun e => is_transfer e = false) (download_and_apply E fuel chunkLen h s).2 /\
  GetBlock 0 ∈ (download_and_apply E fuel chunkLen h s).2.
Proof.
  intros Hh. rewrite download_and_apply_nothing by done. split.
  - assert (Hm : emits (fun e => is_transfer e = false)
              (bind (watcher_appliedPercent E (Some (Num 100)))
                 (fun _ => bind (call (GetBlock 0) (getBlock E 0))
                    (fun rootBlock =>
                       call (SaveParametersForRootBlock rootBlock)
                            (saveParametersForRootBlock E rootBlock)))))
      by repeat first [ by apply emits_appliedPercent_gen | emits_step ].
    apply Hm.
  - destruct (appliedPercent_returns (Some (Num 100)) s) as [v Hv].
    destruct (watcher_appliedPercent E (Some (Num 100)) s) as [[r s1] t1] eqn:Ha.
    simpl in Hv. subst r. rewrite (bind_Ok _ _ _ _ _ _ Ha). simpl.
    unfold bind. rewrite call_run.
    destruct (getBlock E 0 (world s1)) as [w [b|e|]]; simpl.
    + rewrite call_run. set_solver.
    + set_solver.
    + set_solver.
Qed.

(** The events of [connect] and of the block phase are part of the run. *)
Lemma sync_contains_blocks fuel to chunkLen asked nopeers (s : state E) h s1 t1 :
  connect E to asked (set_logInterval E false s) = (Ok h, s1, t1) ->
  exists rest,
    (sync E fuel to chunkLen asked nopeers s).2 =
      t1 ++ (sync_blocks E fuel (chunkLen_or_default chunkLen) h s1).2 ++ rest.
Proof.
  intros Hc.
  destruct (sync_try E fuel to (chunkLen_or_default chunkLen) asked nopeers
              (set_logInterval E false s)) as [[r s2] t] eqn:Hrun.
  rewrite (sync_of_try _ _ _ _ _ _ _ _ _ Hrun).
  unfold sync_try in Hrun. rewrite (bind_Ok _ _ _ _ _ _ Hc) in Hrun.
  injection Hrun as Hr Hs Ht.
  destruct (bind (sync_blocks E fuel (chunkLen_or_default chunkLen) h) _ s1)
    as [[r' s'] t'] eqn:Hb. simpl in Hr, Hs, Ht. subst r' s' t.
  assert (Ht' : exists rest,
            t' = (sync_blocks E fuel (chunkLen_or_default chunkLen) h s1).2 ++ rest).
  { apply bind_run in Hb
      as [(a & s3 & t3 & t4 & -> & _ & ->)|[(e & -> & _)|[-> _]]]; simpl.
    - by exists t4.
    - exists []. by rewrite app_nil_r.
    - exists []. by rewrite app_nil_r. }
  destruct Ht' as [rest ->].
  destruct r as [[]|e|]; simpl.
  - by exists rest.
  - exists (rest ++ (on_error E e s2).2). by rewrite <- !app_assoc.
  - by exists rest.
Qed.
End edges.

(** X6. A negative chunk length, with a target above the local chain: [sync]
    sets the timer and then never returns, whatever the fuel, since the
    planning loop steps backwards; it asks the remote for no block and
    pushes no terminal event. *)
Theorem negative_chunk_length_hangs {W} (E : Env W) fuel to (chunkLen : Z)
    asked nopeers (s : state E) w1 w2 w3 lCurrent rCurrent :
  vucoin E (host E) (port E) (world s) = (w1, Ok tt) ->
  getCurrentBlockOrNull E w1 = (w2, Ok lCurrent) ->
  blockchain_current E w2 = (w3, Ok rCurrent) ->
  2 <= block_version rCurrent ->
  chunkLen < 0 ->
  match lCurrent with Some b => number b | None => -1 end
    < Z.min (number rCurrent) (to_or to (number rCurrent)) ->
  let o := sync E fuel to (Some chunkLen) asked nopeers s in
  o.1.1 = Hang /\
  o.2 = [ Connect (host E) (port E); GetCurrentBlockOrNull;
          WriteStatus ("Connecting to " +:+ host E +:+ "..."); RemoteCurrent;
          SetInterval ].
Proof.
  intros H1 H2 H3 Hv HC HL o. subst o.
  destruct (connect_run to asked (set_logInterval E false s) _ _ _ _ _ H1 H2 H3 Hv)
    as (s1 & Hc & _).
  assert (HC' : chunkLen_or_default (Some chunkLen) = chunkLen)
    by (destruct chunkLen; [lia|done|done]).
  assert (Hrun : sync_try E fuel to (chunkLen_or_default (Some chunkLen)) asked nopeers
                   (set_logInterval E false s)
                 = (Hang, set_logInterval E true s1,
                    [ Connect (host E) (port E); GetCurrentBlockOrNull;
                      WriteStatus ("Connecting to " +:+ host E +:+ "..."); RemoteCurrent ]
                    ++ [SetInterval])).
  { rewrite HC'. unfold sync_try. rewrite (bind_Ok _ _ _ _ _ _ Hc).
    erewrite bind_Hang; [reflexivity|].
    rewrite sync_blocks_of_download. unfold download_and_apply.
    erewrite bind_Hang; [reflexivity|].
    unfold plan. simpl. by rewrite plan_chunks_hangs by (done || lia). }
  by rewrite (sync_of_try _ _ _ _ _ _ _ _ _ Hrun).
Qed.

Lemma negative_chunk_length_hangs_witness :
  let E := demo catching_up in
  (sync E 1000 ToUndefined (Some (-500)) None false (Synchroniser E 0)).1.1 = Hang.
Proof.
  pose proof (negative_chunk_length_hangs (demo catching_up) 1000 ToUndefined (-500)
                None false (Synchroniser _ 0) _ _ _ _ _ eq_refl eq_refl eq_refl) as H.
  exact (proj1 (H ltac:(simpl; lia) ltac:(lia) ltac:(simpl; lia))).
Defined.

(** X7. A node whose chain is at or above the target: [sync] asks the remote
    for no block, hands nothing to the ledger, calls no
    [obsoleteInMainBranch] and pushes no download percentage; it still sets
    the timer and reads block 0 for [saveParametersForRootBlock]. *)
Theorem up_to_date_moves_no_block {W} (E : Env W) fuel to chunkLen asked nopeers
    (s : state E) w1 w2 w3 lCurrent rCurrent :
  vucoin E (host E) (port E) (world s) = (w1, Ok tt) ->
  getCurrentBlockOrNull E w1 = (w2, Ok lCurrent) ->
  blockchain_current E w2 = (w3, Ok rCurrent) ->
  2 <= block_version rCurrent ->
  Z.min (number rCurrent) (to_or to (number rCurrent))
    <= match lCurrent with Some b => number b | None => -1 end ->
  let o := sync E fuel to chunkLen asked nopeers s in
  Forall (fun e => is_transfer e = false) o.2 /\
  SetInterval ∈ o.2 /\ GetBlock 0 ∈ o.2.
Proof.
  intros H1 H2 H3 Hv HL o. subst o.
  destruct (connect_run to asked (set_logInterval E false s) _ _ _ _ _ H1 H2 H3 Hv)
    as (s1 & Hc & _).
  split.
  - apply sync_forall; [by intros [] | done | | | done | done | by intros [[]| | | | | | | | | | | | | | | | |]].
    + intros h s1' t1' Hc'. rewrite Hc in Hc'. injection Hc' as <- _ _.
      intros s0. split; [apply emits_download_and_apply|].
      by apply download_and_apply_reads_root.
    + destruct nopeers; [emits_step|].
      eapply emits_mono; [|apply emits_sync_peers]. by intros [].
  - destruct (sync_contains_blocks fuel to chunkLen asked nopeers s _ _ _ Hc)
      as [rest ->].
    rewrite sync_blocks_of_download. simpl.
    pose proof (download_and_apply_reads_root fuel (chunkLen_or_default chunkLen)
                  (Heights
                     (match lCurrent with Some b => number b | None => -1 end)
                     (Z.min (number rCurrent) (to_or to (number rCurrent)))
                     (match asked with
                      | Some a => a
                      | None => 0 <=? match lCurrent with Some b => number b | None => -1 end
                      end))
                  (set_logInterval E true s1) HL) as [_ Hroot].
    set_solver.
Qed.

Lemma up_to_date_moves_no_block_witness :
  let E := demo ahead in
  let o := sync E 10 ToUndefined None None false (Synchroniser E 0) in
  Forall (fun e => is_transfer e = false) o.2 /\ GetBlock 0 ∈ o.2.
Proof.
  pose proof (up_to_date_moves_no_block (demo ahead) 10 ToUndefined None None false
                (Synchroniser _ 0) _ _ _ _ _ eq_refl eq_refl eq_refl) as H.
  destruct (H ltac:(simpl; lia) ltac:(simpl; lia)) as (Hn & _ & Hr).
  split; [exact Hn | exact Hr].
Defined.
(** ** The ledger, however the run ends *)

Section prefixes.
Context {W : Type} {E : Env W}.

Local Abbreviation silent := (fun e : event => submitted e = []).

Ltac silent_steps :=
  repeat first [ by apply emits_appliedPercent_gen
               | by apply emits_downloadPercent_gen
               | by apply emits_incrementBlocks_gen
               | emits_step ].

Lemma ledger_silent {A} (m : M E A) s :
  emits silent m -> ledger_numbers (m s).2 = [].
Proof. intros Hm. destruct (Hm s) as [_ Ht]. by apply ledger_numbers_silent. Qed.

(** What two computations in sequence hand to the ledger, when the second
    runs only if the first returns. *)
Lemma bind_prefix {A B} (m : M E A) (f : A -> M E B) s l1 l2 :
  ledger_numbers (m s).2 `prefix_of` l1 ->
  (forall a s1 t1, m s = (Ok a, s1, t1) ->
     ledger_numbers t1 = l1 /\ ledger_numbers (f a s1).2 `prefix_of` l2) ->
  ledger_numbers (bind m f s).2 `prefix_of` l1 ++ l2.
Proof.
  intros Hm Hf. unfold bind. destruct (m s) as [[[a|e|] s1] t1]; simpl in *.
  - destruct (Hf a s1 t1 eq_refl) as [H1 H2].
    destruct (f a s1) as [[r s2] t2]. simpl in *.
    rewrite ledger_numbers_app, H1. by apply prefix_app.
  - by apply prefix_app_r.
  - by apply prefix_app_r.
Qed.

Lemma bind_silent_prefix {A B} (m : M E A) (f : A -> M E B) s l :
  emits silent m ->
  (forall a s1, ledger_numbers (f a s1).2 `prefix_of` l) ->
  ledger_numbers (bind m f s).2 `prefix_of` l.
Proof.
  intros Hm Hf. apply (bind_prefix m f s [] l).
  - by rewrite ledger_silent.
  - intros a s1 t1 Hrun. split; [|apply Hf].
    pose proof (ledger_silent m s Hm) as Hs. by rewrite Hrun in Hs.
Qed.

Lemma applyGivenBlock_prefix c R b (s : state E) :
  ledger_numbers (applyGivenBlock E c R b s).2 `prefix_of` [number b].
Proof.
  unfold applyGivenBlock.
  do 5 (apply bind_silent_prefix; [silent_steps|intros ? ?]).
  by rewrite call_run.
Qed.

Lemma apply_cautious_prefix chunkLen L R c blocks (s : state E) :
  ledger_numbers (apply_cautious E chunkLen L R c blocks s).2
    `prefix_of` number <$> blocks.
Proof.
  revert s. induction blocks as [|b blocks IH]; intros s; simpl; [done|].
  apply (bind_prefix _ _ _ [number b] (number <$> blocks)).
  - apply applyGivenBlock_prefix.
  - intros [] s1 t1 H1. split; [by apply applyGivenBlock_Ok in H1|].
    apply bind_silent_prefix; [silent_steps|]. intros _ s2. apply IH.
Qed.

(** The step of the applier for one chunk. *)
Lemma apply_step_prefix chunkLen L R (c : bool) blocks (s : state E) :
  ledger_numbers
    ((if c then apply_cautious E chunkLen L R c blocks
      else bind (call (SaveBlocksInMainBranch blocks R)
                      (saveBlocksInMainBranch E blocks R))
                (fun _ => incrementBlocks E chunkLen L R (Z.of_nat (length blocks)))) s).2
    `prefix_of` number <$> blocks.
Proof.
  destruct c; [apply apply_cautious_prefix|].
  rewrite <- (app_nil_r (number <$> blocks)). apply bind_prefix.
  - rewrite call_run. unfold ledger_numbers. simpl. by rewrite app_nil_r.
  - intros [] s1 t1 H1. apply call_Ok in H1 as [-> _]. split.
    + unfold ledger_numbers. simpl. by rewrite app_nil_r.
    + rewrite ledger_silent; [done|silent_steps].
Qed.

Lemma apply_step_Ok chunkLen L R (c : bool) blocks (s : state E) s' t :
  (if c then apply_cautious E chunkLen L R c blocks
   else bind (call (SaveBlocksInMainBranch blocks R)
                   (saveBlocksInMainBranch E blocks R))
             (fun _ => incrementBlocks E chunkLen L R (Z.of_nat (length blocks)))) s
    = (Ok tt, s', t) ->
  ledger_numbers t = number <$> blocks.
Proof.
  destruct c; [apply apply_cautious_Ok|]. intros H.
  apply bind_inv_Ok in H as ([] & s1 & t1 & t2 & H1 & H2 & ->).
  apply call_Ok in H1 as [-> _]. rewrite ledger_numbers_app.
  pose proof (ledger_silent (incrementBlocks E chunkLen L R (Z.of_nat (length blocks)))
                s1 ltac:(silent_steps)) as Hs.
  rewrite H2 in Hs. simpl in Hs. rewrite Hs.
  unfold ledger_numbers. simpl. by rewrite !app_nil_r.
Qed.

Lemma apply_chunks_prefix chunkLen L R c chunks previous (s : state E) :
  (forall count from bs,
     blockchain_blocks E count from = Ok bs -> number <$> bs ≡ₚ seqZ from count) ->
  ledger_numbers (apply_chunks E chunkLen L R c chunks previous s).2
    `prefix_of` concat (chunk_numbers <$> chunks).
Proof.
  intros Hremote. revert previous s.
  induction chunks as [|ch chunks IH]; intros previous s; simpl; [done|].
  apply (bind_prefix _ _ _ [] _).
  { rewrite ledger_silent; [done|]. unfold download. silent_steps. }
  intros bs s1 t1 H1. apply download_Ok in H1 as [Hbs Ht1]. split; [done|].
  assert (Hnum : chunk_numbers ch = number <$> sortBy_number bs)
    by (symmetry; apply sortBy_number_range, Hremote, Hbs).
  rewrite Hnum. apply bind_prefix; [apply apply_step_prefix|].
  intros [] s2 t2 H2. split; [by apply apply_step_Ok in H2|]. apply IH.
Qed.

Lemma planned_numbers fuel L R C chunks :
  plan_chunks fuel L R C = Some chunks ->
  concat (chunk_numbers <$> chunks) = seqZ (L + 1) (R - L).
Proof.
  unfold plan_chunks. intros Hplan. destruct (Z_lt_le_dec L R) as [HL|HL].
  - assert (HC : 1 <= C) by (eapply chunks_loop_returns; [exact Hplan|lia]).
    rewrite (chunks_loop_tiles _ _ HC _ _ _ Hplan). f_equal. lia.
  - rewrite chunks_loop_past in Hplan by lia. injection Hplan as <-.
    by rewrite seqZ_nil by lia.
Qed.

Lemma download_and_apply_prefix fuel chunkLen h (s : state E) :
  (forall count from bs,
     blockchain_blocks E count from = Ok bs -> number <$> bs ≡ₚ seqZ from count) ->
  ledger_numbers (download_and_apply E fuel chunkLen h s).2
    `prefix_of` seqZ (localNumber h + 1) (remoteNumber h - localNumber h).
Proof.
  intros Hremote. unfold download_and_apply.
  apply (bind_prefix _ _ _ []
           (seqZ (localNumber h + 1) (remoteNumber h - localNumber h))).
  { unfold plan. by destruct plan_chunks. }
  intros chunks s1 t1 Hp. unfold plan in Hp.
  destruct (plan_chunks fuel (localNumber h) (remoteNumber h) chunkLen)
    as [chunks'|] eqn:Hplan; [|discriminate].
  injection Hp as <- <- <-. split; [done|].
  rewrite <- (planned_numbers _ _ _ _ _ Hplan).
  rewrite <- (app_nil_r (concat _)). apply bind_prefix.
  - by apply apply_chunks_prefix.
  - intros lastBlocks s2 t2 Ha. split; [by apply apply_chunks_Ok in Ha|].
    rewrite ledger_silent; [done|silent_steps].
Qed.

(** A run of [sync] whose [connect] returns: the events of [connect],
    those of the block phase, and the rest. *)
Lemma sync_around_blocks (P : event -> Prop) fuel to chunkLen asked (nopeers : bool)
    (s : state E) h s1 t1 :
  connect E to asked (set_logInterval E false s) = (Ok h, s1, t1) ->
  emits P (if nopeers then ret tt else sync_peers E to) ->
  P WatcherEnd -> P (Push (EvSync true None)) ->
  (forall e, error_event e -> P e) ->
  exists rest,
    (sync E fuel to chunkLen asked nopeers s).2 =
      t1 ++ (sync_blocks E fuel (chunkLen_or_default chunkLen) h s1).2 ++ rest /\
    Forall P rest.
Proof.
  intros Hc Ppeers Pend Pok Perr.
  destruct (sync_try E fuel to (chunkLen_or_default chunkLen) asked nopeers
              (set_logInterval E false s)) as [[r s2] t] eqn:Hrun.
  rewrite (sync_of_try _ _ _ _ _ _ _ _ _ Hrun).
  unfold sync_try in Hrun. rewrite (bind_Ok _ _ _ _ _ _ Hc) in Hrun.
  injection Hrun as Hr Hs Ht.
  destruct (bind (sync_blocks E fuel (chunkLen_or_default chunkLen) h) _ s1)
    as [[r' s'] t'] eqn:Hb. simpl in Hr, Hs, Ht. subst r' s' t.
  assert (Ht' : exists rest,
            t' = (sync_blocks E fuel (chunkLen_or_default chunkLen) h s1).2 ++ rest /\
            Forall P rest).
  { apply bind_run in Hb
      as [([] & s3 & t3 & t4 & Hb1 & Hb2 & ->)|[(e & -> & _)|[-> _]]]; simpl.
    - rewrite Hb1. exists t4. split; [done|].
      apply bind_run in Hb2
        as [([] & s4 & t5 & t6 & Hp & Hb2 & ->)|[(e & Hp & _)|[Hp _]]];
        destruct (Ppeers s3) as [_ Hpe]; rewrite Hp in Hpe; simpl in Hpe; try done.
      unfold bind, watcher_end, emit in Hb2. simpl in Hb2.
      injection Hb2 as _ _ <-. apply Forall_app. split; [done|].
      by repeat constructor.
    - exists []. by rewrite app_nil_r.
    - exists []. by rewrite app_nil_r. }
  destruct Ht' as (rest & -> & Hrest).
  destruct r as [[]|e|]; simpl.
  - by exists rest.
  - exists (rest ++ (on_error E e s2).2). rewrite <- !app_assoc. split; [done|].
    apply Forall_app. split; [done|].
    destruct (on_error_run e s2) as [_ ->].
    constructor; [by apply Perr|]. apply Forall_app. split.
    + destruct (logInterval s2); repeat constructor. by apply Perr.
    + apply Forall_app. split; [|repeat constructor; by apply Perr].
      unfold status_of. destruct (error_status e); repeat constructor.
      by apply Perr.
  - by exists rest.
Qed.
End prefixes.

(** X8. Whatever happens during a run of [sync] (an error of the remote, of
    the ledger or of a service at any point, or a planning loop that does
    not end), the numbers of the blocks handed to the ledger up to there are
    the first ones of [L+1, L+2, ..., R], in this order: no block outside
    the range, none twice and none before a lower one. [L] is the number of
    the local current block ([-1] without one) and [R] the target; the
    remote answers each [blocks(count, from)] with blocks whose numbers are
    [from, ..., from+count-1] in some order. *)
Theorem ledger_receives_a_prefix {W} (E : Env W) fuel to chunkLen asked nopeers
    (s : state E) w1 w2 w3 lCurrent rCurrent :
  vucoin E (host E) (port E) (world s) = (w1, Ok tt) ->
  getCurrentBlockOrNull E w1 = (w2, Ok lCurrent) ->
  blockchain_current E w2 = (w3, Ok rCurrent) ->
  (forall count from bs,
     blockchain_blocks E count from = Ok bs -> number <$> bs ≡ₚ seqZ from count) ->
  let L := match lCurrent with Some b => number b | None => -1 end in
  let R := Z.min (number rCurrent) (to_or to (number rCurrent)) in
  ledger_numbers (sync E fuel to chunkLen asked nopeers s).2
    `prefix_of` seqZ (L + 1) (R - L).
Proof.
  intros H1 H2 H3 Hremote L R.
  assert (Hpeers : emits (fun e => submitted e = [])
                     (if nopeers then ret tt else sync_peers E to)).
  { destruct nopeers; [emits_step|].
    eapply emits_mono; [|apply emits_sync_peers]. by intros []. }
  destruct (connect E to asked (set_logInterval E false s)) as [[[h|e|] s1] t1] eqn:Hc.
  - destruct (connect_Ok _ _ _ _ _ _ Hc)
      as (w1' & w2' & w3' & lCurrent' & rCurrent' & H1' & H2' & H3' & _
          & HL & HR & _ & Ht1).
    simpl in H1'. rewrite H1 in H1'. injection H1' as <-.
    rewrite H2 in H2'. injection H2' as <- <-.
    rewrite H3 in H3'. injection H3' as <- <-.
    fold L in HL. fold R in HR.
    destruct (sync_around_blocks (fun e => submitted e = []) fuel to chunkLen asked
                nopeers s h s1 t1 Hc Hpeers eq_refl eq_refl ltac:(by intros []))
      as (rest & -> & Hrest).
    rewrite !ledger_numbers_app, (ledger_numbers_silent rest Hrest), app_nil_r.
    rewrite Ht1, sync_blocks_of_download. simpl.
    rewrite <- HL, <- HR.
    change (ledger_numbers (SetInterval :: ?t)) with (ledger_numbers t).
    by apply download_and_apply_prefix.
  - replace (ledger_numbers _) with (@nil Z); [apply prefix_nil|].
    symmetry. apply ledger_numbers_silent.
    apply sync_forall; [by intros [] | done | | done | done | done | by intros []].
    intros h s1' t1' Hc'. rewrite Hc in Hc'. discriminate.
  - replace (ledger_numbers _) with (@nil Z); [apply prefix_nil|].
    symmetry. apply ledger_numbers_silent.
    apply sync_forall; [by intros [] | done | | done | done | done | by intros []].
    intros h s1' t1' Hc'. rewrite Hc in Hc'. discriminate.
Qed.

Lemma ledger_receives_a_prefix_witness :
  let E := faulty three_behind rejected_block in
  let o := sync E 10 ToUndefined None None false (Synchroniser E 0) in
  o.1.1 = Err (Thrown "ruleNumber") /\
  ledger_numbers o.2 = [1; 2] /\
  ledger_numbers o.2 `prefix_of` [1; 2; 3].
Proof.
  split; [vm_compute; reflexivity|]. split; [vm_compute; reflexivity|].
  refine (ledger_receives_a_prefix (faulty three_behind rejected_block) 10
            ToUndefined None None false (Synchroniser _ 0) _ _ _ _ _
            eq_refl eq_refl eq_refl _).
  intros count from bs [= <-].
  by rewrite fmap_reverse, reverse_Permutation, <- list_fmap_compose, list_fmap_id.
Defined.
(** ** What a run that returns has asked and declared *)

Lemma rpc_blocks_app t1 t2 : rpc_blocks (t1 ++ t2) = rpc_blocks t1 ++ rpc_blocks t2.
Proof. apply omap_app. Qed.

Lemma obsolete_calls_app t1 t2 :
  obsolete_calls (t1 ++ t2) = obsolete_calls t1 ++ obsolete_calls t2.
Proof. apply omap_app. Qed.

(** The events that are neither a request of blocks nor a call of
    [obsoleteInMainBranch]. *)
Lemma no_request t :
  Forall (fun e => match e with
                   | RemoteBlocks _ _ | ObsoleteInMainBranch _ => False
                   | _ => True
                   end) t ->
  rpc_blocks t = [] /\ obsolete_calls t = [].
Proof.
  unfold rpc_blocks, obsolete_calls.
  induction 1 as [|e t He _ [IH1 IH2]]; [done|]. by destruct e.
Qed.

(** The sizes of the chunks, and the end of the last one. *)
Lemma chunks_loop_sizes fuel i R C cs :
  chunks_loop fuel i R C = Some cs ->
  Forall (fun c : chunk => 1 <= c.2 - c.1 + 1 <= C) cs.
Proof.
  revert i cs. induction fuel as [|fuel IH]; intros i cs Hrun.
  - simpl in Hrun. destruct (Z.leb_spec i R); [done|]. injection Hrun as <-.
    constructor.
  - pose proof Hrun as Hrun'. simpl in Hrun.
    destruct (Z.leb_spec i R); [|injection Hrun as <-; constructor].
    apply chunks_loop_returns in Hrun'; [|done].
    destruct (chunks_loop fuel (i + C) R C) as [cs'|] eqn:Hnext; [|done].
    injection Hrun as <-. constructor; [simpl; lia|]. by eapply IH.
Qed.

Lemma chunks_loop_last fuel i R C cs c :
  chunks_loop fuel i R C = Some cs -> last cs = Some c -> c.2 = R.
Proof.
  revert i cs. induction fuel as [|fuel IH]; intros i cs Hrun Hlast.
  - simpl in Hrun. destruct (Z.leb_spec i R); [done|]. by injection Hrun as <-.
  - pose proof Hrun as Hrun'. simpl in Hrun.
    destruct (Z.leb_spec i R); [|by injection Hrun as <-].
    apply chunks_loop_returns in Hrun'; [|done].
    destruct (chunks_loop fuel (i + C) R C) as [cs'|] eqn:Hnext; [|done].
    injection Hrun as <-. destruct cs' as [|c' cs'].
    + injection Hlast as <-. simpl.
      destruct fuel; simpl in Hnext; destruct (Z.leb_spec (i + C) R);
        try done; try lia.
      by destruct (chunks_loop fuel _ R C).
    + eapply IH; [exact Hnext|]. exact Hlast.
Qed.

Section success.
Context {W : Type} {E : Env W}.

Local Abbreviation quiet :=
  (fun e : event => match e with
                    | RemoteBlocks _ _ | ObsoleteInMainBranch _ => False
                    | _ => True
                    end).

Ltac quiet_steps :=
  repeat first [ by apply emits_appliedPercent_gen
               | by apply emits_downloadPercent_gen
               | by apply emits_incrementBlocks_gen
               | emits_step ].

Lemma quiet_run {A} (m : M E A) s r s' t :
  m s = (r, s', t) -> emits quiet m -> rpc_blocks t = [] /\ obsolete_calls t = [].
Proof.
  intros Hrun Hm. destruct (Hm s) as [_ Ht]. rewrite Hrun in Ht.
  by apply no_request.
Qed.

(** The parts of a run of [sync] that returns. *)
Lemma sync_Ok_parts fuel to chunkLen asked (nopeers : bool) (s : state E) s' t :
  sync E fuel to chunkLen asked nopeers s = (Ok tt, s', t) ->
  exists h s1 t1 s2 t2 s3 t3,
    connect E to asked (set_logInterval E false s) = (Ok h, s1, t1) /\
    download_and_apply E fuel (chunkLen_or_default chunkLen) h
                       (set_logInterval E true s1) = (Ok tt, s2, t2) /\
    (if nopeers then ret tt else sync_peers E to) s2 = (Ok tt, s3, t3) /\
    t = t1 ++ SetInterval :: t2 ++ t3 ++ [WatcherEnd; Push (EvSync true None)] /\
    times s' = times s3 /\ blocksApplied s' = blocksApplied s3.
Proof.
  intros Hrun.
  destruct (sync_try E fuel to (chunkLen_or_default chunkLen) asked nopeers
              (set_logInterval E false s)) as [[r s0] t0] eqn:Htry.
  rewrite (sync_of_try _ _ _ _ _ _ _ _ _ Htry) in Hrun.
  destruct r as [[]|e|]; [|destruct (on_error_run e s0) as [Hr _]|done].
  2: { injection Hrun as Hrun _ _. rewrite Hrun in Hr. discriminate. }
  injection Hrun as <- <-. unfold sync_try in Htry.
  apply bind_inv_Ok in Htry as (h & s1 & t1 & ? & Hc & Htry & ->).
  apply bind_inv_Ok in Htry as ([] & s2 & t2 & ? & Hb & Htry & ->).
  apply bind_inv_Ok in Htry as ([] & s3 & t3 & ? & Hp & Htry & ->).
  rewrite sync_blocks_of_download in Hb.
  destruct (download_and_apply E fuel (chunkLen_or_default chunkLen) h
              (set_logInterval E true s1)) as [[r2 s2'] t2'] eqn:Hd.
  simpl in Hb. injection Hb as -> -> <-.
  unfold bind, watcher_end, emit in Htry. simpl in Htry.
  injection Htry as <- <-.
  exists h, s1, t1, s2, t2', s3, t3. by split_and!.
Qed.

Lemma download_requests R c (s : state E) bs s' t :
  download E R c s = (Ok bs, s', t) ->
  blockchain_blocks E (c.2 - c.1 + 1) c.1 = Ok bs /\
  rpc_blocks t = [(c.2 - c.1 + 1, c.1)] /\ obsolete_calls t = [].
Proof.
  intros H. split; [by apply download_Ok in H as [? _]|].
  unfold download in H.
  apply bind_inv_Ok in H as (? & s1 & t1 & ? & H1 & H & ->).
  apply bind_inv_Ok in H as (bs' & s2 & t2 & ? & H2 & H & ->).
  apply bind_inv_Ok in H as (? & s3 & t3 & ? & H3 & H & ->).
  apply call_Ok in H2 as [-> _]. injection H as _ _ <-.
  eapply quiet_run in H1 as [H1 H1']; [|by apply emits_downloadPercent_gen].
  eapply quiet_run in H3 as [H3 H3']; [|by apply emits_downloadPercent_gen].
  rewrite !rpc_blocks_app, !obsolete_calls_app, H1, H1', H3, H3'. done.
Qed.

(** The applier asks each chunk once, in order, and ends with the answer
    to the last one, as the remote sent it. *)
Lemma apply_chunks_requests chunkLen L R c chunks previous (s : state E) final s' t :
  apply_chunks E chunkLen L R c chunks previous s = (Ok final, s', t) ->
  rpc_blocks t = (fun ch : chunk => (ch.2 - ch.1 + 1, ch.1)) <$> chunks /\
  obsolete_calls t = [] /\
  match last chunks with
  | None => final = previous
  | Some ch =>
      exists bs, blockchain_blocks E (ch.2 - ch.1 + 1) ch.1 = Ok bs /\
                 final = Some bs
  end.
Proof.
  revert previous s t. induction chunks as [|ch chunks IH]; intros previous s t; simpl.
  - by intros [= <- _ <-].
  - intros H.
    apply bind_inv_Ok in H as (bs & s1 & t1 & ? & H1 & H & ->).
    apply bind_inv_Ok in H as ([] & s2 & t2 & ? & H2 & H & ->).
    apply download_requests in H1 as (Hbs & Hr1 & Ho1).
    eapply quiet_run in H2 as [Hr2 Ho2].
    2: { destruct c; [|quiet_steps].
         clear. induction (sortBy_number bs) as [|b l IHl]; simpl; [emits_step|].
         unfold applyGivenBlock. repeat first [ apply IHl | quiet_steps ]. }
    destruct (IH _ _ _ H) as (Hr3 & Ho3 & Hfinal).
    rewrite !rpc_blocks_app, !obsolete_calls_app, Hr1, Hr2, Hr3, Ho1, Ho2, Ho3.
    split_and!; try done.
    destruct chunks as [|ch' chunks].
    + simpl in Hfinal. simpl. by exists bs.
    + change (last (ch :: ch' :: chunks)) with (last (ch' :: chunks)).
      destruct (last (ch' :: chunks)) eqn:Hlast; [done|].
      by apply last_None in Hlast.
Qed.

(** The block phase of a run that returns. *)
Lemma download_and_apply_requests fuel chunkLen h (s : state E) s' t :
  download_and_apply E fuel chunkLen h s = (Ok tt, s', t) ->
  exists chunks,
    plan_chunks fuel (localNumber h) (remoteNumber h) chunkLen = Some chunks /\
    rpc_blocks t = (fun ch : chunk => (ch.2 - ch.1 + 1, ch.1)) <$> chunks /\
    match last chunks with
    | Some ch =>
        if cautious h then obsolete_calls t = []
        else exists bs, blockchain_blocks E (ch.2 - ch.1 + 1) ch.1 = Ok bs /\
                        obsolete_calls t = [last bs]
    | None => obsolete_calls t = []
    end.
Proof.
  unfold download_and_apply. intros H.
  apply bind_inv_Ok in H as (chunks & s1 & t1 & ? & Hp & H & ->).
  apply bind_inv_Ok in H as (final & s2 & t2 & ? & Ha & H & ->).
  apply bind_inv_Ok in H as ([] & s3 & t3 & ? & Ho & H & ->).
  unfold plan in Hp.
  destruct (plan_chunks fuel (localNumber h) (remoteNumber h) chunkLen)
    as [chunks'|] eqn:Hplan; [|discriminate].
  injection Hp as <- <- <-. exists chunks'. split; [done|].
  apply apply_chunks_requests in Ha as (Hr2 & Ho2 & Hfinal).
  eapply quiet_run in H as [Hr4 Ho4]; [|quiet_steps].
  rewrite !rpc_blocks_app, !obsolete_calls_app, Hr2, Ho2, Hr4, Ho4.
  destruct chunks' as [|ch chunks'].
  - simpl in Ho. rewrite andb_false_r in Ho. unfold ret in Ho.
    by injection Ho as _ <-.
  - rewrite bool_decide_eq_true_2, andb_true_r in Ho by done.
    destruct (last (ch :: chunks')) as [ch'|] eqn:Hlast.
    2: { by apply last_None in Hlast. }
    destruct Hfinal as (bs & Hbs & ->).
    destruct (cautious h); simpl in Ho.
    + unfold ret in Ho. injection Ho as _ <-. by rewrite !app_nil_r.
    + apply call_Ok in Ho as [-> _]. rewrite !app_nil_r.
      split; [done|]. by exists bs.
Qed.
End success.

(** X9. A run of [sync] that returns has asked the remote for consecutive
    ranges of blocks that together are [L+1, ..., R], each of them once,
    in ascending order and of at most [chunkLen] blocks. *)
Theorem requests_cover_the_range {W} (E : Env W) fuel to chunkLen asked nopeers
    (s : state E) w1 w2 w3 lCurrent rCurrent s' t :
  vucoin E (host E) (port E) (world s) = (w1, Ok tt) ->
  getCurrentBlockOrNull E w1 = (w2, Ok lCurrent) ->
  blockchain_current E w2 = (w3, Ok rCurrent) ->
  sync E fuel to chunkLen asked nopeers s = (Ok tt, s', t) ->
  let L := match lCurrent with Some b => number b | None => -1 end in
  let R := Z.min (number rCurrent) (to_or to (number rCurrent)) in
  concat ((fun q : Z * Z => seqZ q.2 q.1) <$> rpc_blocks t) = seqZ (L + 1) (R - L) /\
  Forall (fun q : Z * Z => 1 <= q.1 <= chunkLen_or_default chunkLen) (rpc_blocks t).
Proof.
  intros H1 H2 H3 Hrun L R.
  apply sync_Ok_parts in Hrun
    as (h & s1 & t1 & s2 & t2 & s3 & t3 & Hc & Hd & Hp & -> & _).
  destruct (connect_Ok _ _ _ _ _ _ Hc)
    as (w1' & w2' & w3' & lCurrent' & rCurrent' & H1' & H2' & H3' & _
        & HL & HR & _ & ->).
  simpl in H1'. rewrite H1 in H1'. injection H1' as <-.
  rewrite H2 in H2'. injection H2' as <- <-.
  rewrite H3 in H3'. injection H3' as <- <-.
  fold L in HL. fold R in HR.
  apply download_and_apply_requests in Hd as (chunks & Hplan & Hr & _).
  rewrite HL, HR in Hplan.
  assert (Hr3 : rpc_blocks t3 = []).
  { destruct nopeers; [by injection Hp as _ <-|].
    eapply quiet_run in Hp as [Hp _]; [done|].
    eapply emits_mono; [|apply emits_sync_peers]. by intros []. }
  assert (Hall : rpc_blocks
                   ([ Connect (host E) (port E); GetCurrentBlockOrNull;
                      WriteStatus ("Connecting to " +:+ host E +:+ "..."); RemoteCurrent ]
                    ++ SetInterval :: t2 ++ t3 ++ [WatcherEnd; Push (EvSync true None)])
                 = (fun ch : chunk => (ch.2 - ch.1 + 1, ch.1)) <$> chunks).
  { rewrite rpc_blocks_app.
    change (rpc_blocks (SetInterval :: ?t)) with (rpc_blocks t).
    rewrite !rpc_blocks_app, Hr, Hr3. simpl. by rewrite app_nil_r. }
  rewrite Hall. split.
  - rewrite <- list_fmap_compose. rewrite <- (planned_numbers _ _ _ _ _ Hplan). done.
  - apply Forall_fmap. apply chunks_loop_sizes in Hplan.
    eapply Forall_impl; [exact Hplan|]. by intros [].
Qed.

Lemma requests_cover_the_range_witness :
  let E := demo catching_up in
  let o := sync E 10 ToUndefined (Some 1) None false (Synchroniser E 0) in
  concat ((fun q : Z * Z => seqZ q.2 q.1) <$> rpc_blocks o.2) = [1; 2] /\
  Forall (fun q : Z * Z => 1 <= q.1 <= 1) (rpc_blocks o.2).
Proof.
  set (run := sync (demo catching_up) 10 ToUndefined (Some 1) None false
                   (Synchroniser (demo catching_up) 0)).
  assert (Hrun : run = (Ok tt, run.1.2, run.2)) by (vm_compute; reflexivity).
  exact (requests_cover_the_range (demo catching_up) 10 ToUndefined (Some 1) None
           false (Synchroniser _ 0) _ _ _ _ _ _ _ eq_refl eq_refl eq_refl Hrun).
Defined.

(** X10. A fast run of [sync] that returns, with a target above the local
    chain, calls [obsoleteInMainBranch] once, with the last element of the
    remote's answer to the last request, in the order the remote sent it
    (the sorting by number does not reach it), or with [undefined] when
    this answer is empty. The last request ends at the target [R]. *)
Theorem fast_run_obsoletes_last_received {W} (E : Env W) fuel to chunkLen asked
    nopeers (s : state E) w1 w2 w3 lCurrent rCurrent s' t :
  vucoin E (host E) (port E) (world s) = (w1, Ok tt) ->
  getCurrentBlockOrNull E w1 = (w2, Ok lCurrent) ->
  blockchain_current E w2 = (w3, Ok rCurrent) ->
  match asked, lCurrent with
  | Some a, _ => a
  | None, Some b => 0 <=? number b
  | None, None => false
  end = false ->
  let L := match lCurrent with Some b => number b | None => -1 end in
  let R := Z.min (number rCurrent) (to_or to (number rCurrent)) in
  L < R ->
  sync E fuel to chunkLen asked nopeers s = (Ok tt, s', t) ->
  exists count from bs,
    last (rpc_blocks t) = Some (count, from) /\
    from + count - 1 = R /\
    blockchain_blocks E count from = Ok bs /\
    obsolete_calls t = [last bs].
Proof.
  intros H1 H2 H3 Hmode L R HLR Hrun.
  apply sync_Ok_parts in Hrun
    as (h & s1 & t1 & s2 & t2 & s3 & t3 & Hc & Hd & Hp & -> & _).
  destruct (connect_Ok _ _ _ _ _ _ Hc)
    as (w1' & w2' & w3' & lCurrent' & rCurrent' & H1' & H2' & H3' & _
        & HL & HR & Hcau & ->).
  simpl in H1'. rewrite H1 in H1'. injection H1' as <-.
  rewrite H2 in H2'. injection H2' as <- <-.
  rewrite H3 in H3'. injection H3' as <- <-.
  fold L in HL. fold R in HR.
  assert (Hfast : cautious h = false).
  { rewrite Hcau, HL. subst L. by destruct asked, lCurrent. }
  apply download_and_apply_requests in Hd as (chunks & Hplan & Hr & Hlast).
  rewrite HL, HR in Hplan. rewrite Hfast in Hlast.
  destruct (last chunks) as [ch|] eqn:Hch.
  2: { apply last_None in Hch. subst chunks.
       apply planned_numbers in Hplan. simpl in Hplan.
       apply (f_equal length) in Hplan. rewrite length_seqZ in Hplan.
       simpl in Hplan. lia. }
  destruct Hlast as (bs & Hbs & Ho).
  assert (Hquiet3 : rpc_blocks t3 = [] /\ obsolete_calls t3 = []).
  { destruct nopeers; [by injection Hp as _ <-|].
    eapply quiet_run in Hp; [done|].
    eapply emits_mono; [|apply emits_sync_peers]. by intros []. }
  destruct Hquiet3 as [Hr3 Ho3].
  exists (ch.2 - ch.1 + 1), ch.1, bs.
  rewrite rpc_blocks_app, obsolete_calls_app.
  change (rpc_blocks (SetInterval :: ?t)) with (rpc_blocks t).
  change (obsolete_calls (SetInterval :: ?t)) with (obsolete_calls t).
  rewrite !rpc_blocks_app, !obsolete_calls_app, Hr, Hr3, Ho, Ho3. simpl.
  rewrite app_nil_r. split_and!; try done.
  - by rewrite fmap_last, Hch.
  - unfold plan_chunks in Hplan.
    rewrite <- (chunks_loop_last _ _ _ _ _ _ Hplan Hch). lia.
Qed.

Lemma fast_run_obsoletes_last_received_witness :
  let E := demo catching_up in
  let o := sync E 10 ToUndefined None (Some false) false (Synchroniser E 0) in
  rpc_blocks o.2 = [(2, 1)] /\
  blockchain_blocks E 2 1 = Ok [plain_block 2; plain_block 1] /\
  obsolete_calls o.2 = [Some (plain_block 1)].
Proof.
  set (run := sync (demo catching_up) 10 ToUndefined None (Some false) false
                   (Synchroniser (demo catching_up) 0)).
  assert (Hrun : run = (Ok tt, run.1.2, run.2)) by (vm_compute; reflexivity).
  destruct (fast_run_obsoletes_last_received (demo catching_up) 10 ToUndefined None
              (Some false) false (Synchroniser _ 0) _ _ _ _ _ _ _
              eq_refl eq_refl eq_refl eq_refl ltac:(simpl; lia) Hrun)
    as (count & from & bs & Hlast & _ & Hbs & Hobs).
  assert (Hr : rpc_blocks run.2 = [(2, 1)]) by (vm_compute; reflexivity).
  rewrite Hr in Hlast. injection Hlast as <- <-.
  injection Hbs as <-.
  split; [exact Hr|]. split; [reflexivity|]. exact Hobs.
Defined.
(** ** The counters of the synchroniser *)

Section steps.
Context {W : Type} {E : Env W}.
Implicit Types Rel : state E -> state E -> Prop.

Lemma steps_ret Rel {A} (a : A) : counter_rel Rel -> steps Rel (ret (E:=E) a).
Proof. intros HR s. by apply HR. Qed.

Lemma steps_throw Rel {A} e : counter_rel Rel -> steps Rel (throw (E:=E) (A:=A) e).
Proof. intros HR s. by apply HR. Qed.

Lemma steps_gets Rel {A} (f : state E -> A) : counter_rel Rel -> steps Rel (gets f).
Proof. intros HR s. by apply HR. Qed.

Lemma steps_emit Rel e : counter_rel Rel -> steps Rel (emit (E:=E) e).
Proof. intros HR s. by apply HR. Qed.

Lemma steps_modify Rel (f : state E -> state E) :
  counter_rel Rel ->
  (forall s, times (f s) = times s /\ blocksApplied (f s) = blocksApplied s) ->
  steps Rel (modify f).
Proof. intros HR Hf s. destruct (Hf s). by apply HR. Qed.

Lemma steps_call Rel {A} e (f : W -> W * result A) :
  counter_rel Rel -> steps Rel (call (E:=E) e f).
Proof. intros HR s. rewrite call_run. by apply HR. Qed.

Lemma steps_new_Date Rel : counter_rel Rel -> steps Rel (new_Date E).
Proof.
  intros HR s. unfold new_Date. destruct (clock E (world s)). by apply HR.
Qed.

Lemma steps_base_downloadPercent Rel pct :
  counter_rel Rel -> steps Rel (base_downloadPercent E pct).
Proof.
  intros HR s. unfold base_downloadPercent.
  destruct (bw_downloadPercent (base E) pct (baseWatcher s)). by apply HR.
Qed.

Lemma steps_base_appliedPercent Rel pct :
  counter_rel Rel -> steps Rel (base_appliedPercent E pct).
Proof.
  intros HR s. unfold base_appliedPercent.
  destruct (bw_appliedPercent (base E) pct (baseWatcher s)). by apply HR.
Qed.

Lemma steps_writeStatus Rel str : counter_rel Rel -> steps Rel (watcher_writeStatus E str).
Proof. intros HR s. by apply HR. Qed.

Lemma steps_watcher_end Rel : counter_rel Rel -> steps Rel (watcher_end E).
Proof. intros HR s. by apply HR. Qed.

Lemma steps_bind Rel {A B} (m : M E A) (f : A -> M E B) :
  counter_rel Rel -> steps Rel m -> (forall a, steps Rel (f a)) ->
  steps Rel (bind m f).
Proof.
  intros HR Hm Hf s. unfold bind. specialize (Hm s).
  destruct (m s) as [[[a|e|] s1] t1]; simpl in *; try done.
  specialize (Hf a s1). destruct (f a s1) as [[r s2] t2]; simpl in *.
  by eapply (rel_trans Rel HR).
Qed.

Lemma steps_catch Rel {A} (m : M E A) (h : error -> M E A) :
  counter_rel Rel -> steps Rel m -> (forall e, steps Rel (h e)) ->
  steps Rel (catch m h).
Proof.
  intros HR Hm Hh s. unfold catch. specialize (Hm s).
  destruct (m s) as [[[a|e|] s1] t1]; simpl in *; try done.
  specialize (Hh e s1). destruct (h e s1) as [[r s2] t2]; simpl in *.
  by eapply (rel_trans Rel HR).
Qed.
End steps.

(** One step of a proof that a computation keeps a relation on the
    counters. *)
Ltac steps_step :=
  lazymatch goal with
  | |- steps _ (bind _ _) => apply steps_bind; [assumption| |intros ?]
  | |- steps _ (catch _ _) => apply steps_catch; [assumption| |intros ?]
  | |- steps _ (ret _) => apply steps_ret; assumption
  | |- steps _ (throw _) => apply steps_throw; assumption
  | |- steps _ (gets _) => apply steps_gets; assumption
  | |- steps _ (modify _) => apply steps_modify; [assumption|by intros ?]
  | |- steps _ (emit _) => apply steps_emit; assumption
  | |- steps _ (call _ _) => apply steps_call; assumption
  | |- steps _ (new_Date _) => apply steps_new_Date; assumption
  | |- steps _ (base_downloadPercent _ _) => apply steps_base_downloadPercent; assumption
  | |- steps _ (base_appliedPercent _ _) => apply steps_base_appliedPercent; assumption
  | |- steps _ (watcher_writeStatus _ _) => apply steps_writeStatus; assumption
  | |- steps _ (watcher_end _) => apply steps_watcher_end; assumption
  | |- steps _ (if ?b then _ else _) => destruct b
  | |- steps _ (match ?x with _ => _ end) => destruct x
  end.

Section counters.
Context {W : Type} {E : Env W}.
Implicit Types Rel : state E -> state E -> Prop.

Lemma same_counters_rel : counter_rel (same_counters (E:=E)).
Proof.
  split.
  - by intros s s' ? ?.
  - intros s1 s2 s3 [? ?] [? ?]. split; congruence.
Qed.

Lemma counters_kept_rel : counter_rel (counters_kept (E:=E)).
Proof.
  split.
  - intros s s' Ht Hb. unfold counters_kept. rewrite Ht, Hb. split_and!; auto. lia.
  - intros s1 s2 s3 (? & ? & ?) (? & ? & ?). split_and!; auto. lia.
Qed.

(** The parts of a run that leave the counters to the applier. *)
Lemma steps_connect Rel to asked : counter_rel Rel -> steps Rel (connect E to asked).
Proof. intros HR. unfold connect. repeat steps_step. Qed.

Lemma steps_downloadPercent Rel pct :
  counter_rel Rel -> steps Rel (watcher_downloadPercent E pct).
Proof. intros HR. unfold watcher_downloadPercent. repeat steps_step. Qed.

Lemma steps_appliedPercent Rel pct :
  counter_rel Rel -> steps Rel (watcher_appliedPercent E pct).
Proof. intros HR. unfold watcher_appliedPercent. repeat steps_step. Qed.

Lemma steps_download Rel R c : counter_rel Rel -> steps Rel (download E R c).
Proof.
  intros HR. unfold download.
  repeat first [ by apply steps_downloadPercent | steps_step ].
Qed.

Lemma steps_add_leaves Rel to leaves : counter_rel Rel -> steps Rel (add_leaves E to leaves).
Proof.
  intros HR. induction leaves as [|leaf leaves IH]; simpl.
  - steps_step.
  - repeat first [ apply IH | steps_step ].
Qed.

Lemma steps_sync_peers Rel to : counter_rel Rel -> steps Rel (sync_peers E to).
Proof.
  intros HR. unfold sync_peers, syncPeer, reconcile.
  repeat first [ by apply steps_add_leaves | steps_step ].
Qed.

Lemma steps_on_error Rel err : counter_rel Rel -> steps Rel (on_error E err).
Proof. intros HR. unfold on_error. repeat steps_step. Qed.

(** The two functions that count. *)
Lemma incrementBlocks_counters chunkLen L R n (s : state E) :
  let s' := (incrementBlocks E chunkLen L R n s).1.2 in
  times s' = window_push (clock E (world s)).2 (times s) /\
  blocksApplied s' = blocksApplied s + n.
Proof.
  intros s'. subst s'.
  unfold incrementBlocks, watcher_appliedPercent, window_push.
  unfold bind, modify, new_Date, gets, base_appliedPercent, emit, ret.
  simpl. destruct (clock E (world s)) as [w1 now]. simpl.
  destruct (decide (length (times s) = COMPUTE_SPEED_ON_COUNT_CHUNKS)) as [Hd|Hd];
    simpl; destruct (clock E w1) as [w2 now']; simpl.
  all: repeat match goal with
         | |- context [bw_appliedPercent ?B ?p ?x] =>
             destruct (bw_appliedPercent B p x) as [? ?]; simpl
         | |- context [js_neq ?x ?y] => destruct (js_neq x y); simpl
         | |- context [js_lt ?x ?y] => destruct (js_lt x y); simpl
         end.
  all: done.
Qed.

Lemma applyGivenBlock_counters c R b (s : state E) :
  let s' := (applyGivenBlock E c R b s).1.2 in
  times s' = times s /\ blocksApplied s' = blocksApplied s + 1.
Proof.
  intros s'. subst s'.
  unfold applyGivenBlock, watcher_appliedPercent.
  unfold bind, modify, new_Date, gets, base_appliedPercent, emit, ret, call.
  simpl. destruct (clock E (world s)) as [w1 now]. simpl.
  repeat match goal with
         | |- context [bw_appliedPercent ?B ?p ?x] =>
             destruct (bw_appliedPercent B p x) as [? ?]; simpl
         | |- context [js_neq ?x ?y] => destruct (js_neq x y); simpl
         | |- context [js_lt ?x ?y] => destruct (js_lt x y); simpl
         | |- context [submitBlock E ?b ?c ?f ?w] =>
             destruct (submitBlock E b c f w) as [? [[]| |]]; simpl
         end.
  all: done.
Qed.

Lemma window_push_kept now times :
  ((length times <= COMPUTE_SPEED_ON_COUNT_CHUNKS)%nat ->
   (length (window_push now times) <= COMPUTE_SPEED_ON_COUNT_CHUNKS)%nat) /\
  window_push now times <> [].
Proof.
  unfold window_push, COMPUTE_SPEED_ON_COUNT_CHUNKS. split.
  - intros Hl. case_decide; rewrite length_app, ?length_drop; simpl; lia.
  - case_decide; by destruct (drop 1 times), times.
Qed.

Lemma steps_incrementBlocks chunkLen L R n :
  0 <= n -> steps counters_kept (incrementBlocks E chunkLen L R n).
Proof.
  intros Hn s. destruct (incrementBlocks_counters chunkLen L R n s) as [Ht Hb].
  destruct (window_push_kept (clock E (world s)).2 (times s)) as [Hl Hne].
  unfold counters_kept. rewrite Ht, Hb. split_and!; auto. lia.
Qed.

Lemma steps_applyGivenBlock c R b : steps counters_kept (applyGivenBlock E c R b).
Proof.
  intros s. destruct (applyGivenBlock_counters c R b s) as [Ht Hb].
  unfold counters_kept. rewrite Ht, Hb. split_and!; auto. lia.
Qed.

Lemma steps_apply_cautious chunkLen L R c blocks :
  steps counters_kept (apply_cautious E chunkLen L R c blocks).
Proof.
  pose proof counters_kept_rel as HR.
  induction blocks as [|b blocks IH]; simpl.
  - steps_step.
  - repeat first [ apply steps_applyGivenBlock | by apply steps_incrementBlocks
                 | apply IH | steps_step ].
Qed.

Lemma steps_apply_chunks chunkLen L R c chunks previous :
  steps counters_kept (apply_chunks E chunkLen L R c chunks previous).
Proof.
  pose proof counters_kept_rel as HR. revert previous.
  induction chunks as [|ch chunks IH]; intros previous; simpl.
  - steps_step.
  - repeat first [ by apply steps_download | apply steps_apply_cautious
                 | apply steps_incrementBlocks; lia | apply IH | steps_step ].
Qed.

Lemma steps_sync fuel to chunkLen asked nopeers :
  steps counters_kept (sync E fuel to chunkLen asked nopeers).
Proof.
  pose proof counters_kept_rel as HR.
  unfold sync, sync_try, sync_blocks, download_and_apply.
  repeat first [ by apply steps_connect | by apply steps_sync_peers
               | by apply steps_on_error | by apply steps_appliedPercent
               | apply steps_apply_chunks
               | (intros s; unfold plan; destruct plan_chunks; by apply HR)
               | steps_step ].
Qed.
End counters.

(** X11. Every run of [sync], however it ends, keeps the window of timestamps
    between 1 and [COMPUTE_SPEED_ON_COUNT_CHUNKS] entries, as the
    constructor leaves it, and never lowers [blocksApplied] (it does not
    reset it at the start of a run either). *)
Theorem window_is_kept {W} (E : Env W) fuel to chunkLen asked nopeers (s : state E) :
  (1 <= length (times s) <= COMPUTE_SPEED_ON_COUNT_CHUNKS)%nat ->
  let s' := (sync E fuel to chunkLen asked nopeers s).1.2 in
  (1 <= length (times s') <= COMPUTE_SPEED_ON_COUNT_CHUNKS)%nat /\
  blocksApplied s <= blocksApplied s'.
Proof.
  intros [Hl1 Hl2] s'.
  destruct (steps_sync fuel to chunkLen asked nopeers s) as (Hb & Hl & Hne).
  fold s' in Hb, Hl, Hne. split; [|done]. split; [|auto].
  destruct (times s') eqn:Ht; [|simpl; lia].
  exfalso. apply Hne; [|done]. intros Hs. rewrite Hs in Hl1. simpl in Hl1. lia.
Qed.

Lemma window_is_kept_witness :
  let E := demo fresh_node in
  let s := Synchroniser E 0 in
  let s' := (sync E 1300 ToUndefined (Some 100) None true s).1.2 in
  length (times s) = 1%nat /\
  (1 <= length (times s') <= 8)%nat /\ blocksApplied s <= blocksApplied s'.
Proof.
  split; [reflexivity|].
  apply (window_is_kept (demo fresh_node) 1300 ToUndefined (Some 100) None true
           (Synchroniser (demo fresh_node) 0)).
  simpl. unfold COMPUTE_SPEED_ON_COUNT_CHUNKS. lia.
Defined.

Section counting.
Context {W : Type} {E : Env W}.

Lemma steps_run {A} (Rel : state E -> state E -> Prop) (m : M E A) s r s' t :
  steps Rel m -> m s = (r, s', t) -> Rel s s'.
Proof. intros Hm Hrun. specialize (Hm s). by rewrite Hrun in Hm. Qed.

Lemma window_pushes_app times nows1 nows2 :
  window_pushes (window_pushes times nows1) nows2 = window_pushes times (nows1 ++ nows2).
Proof. unfold window_pushes. by rewrite foldl_app. Qed.

(** The length of the window after some pushes. *)
Lemma window_pushes_length times nows :
  (length times <= COMPUTE_SPEED_ON_COUNT_CHUNKS)%nat ->
  length (window_pushes times nows)
  = Nat.min COMPUTE_SPEED_ON_COUNT_CHUNKS (length times + length nows).
Proof.
  unfold window_pushes, COMPUTE_SPEED_ON_COUNT_CHUNKS.
  revert times. induction nows as [|now nows IH]; intros times Hl;
    cbn [foldl length].
  - lia.
  - rewrite IH.
    + unfold window_push, COMPUTE_SPEED_ON_COUNT_CHUNKS.
      case_decide; rewrite length_app, ?length_drop; cbn [length]; lia.
    + unfold window_push, COMPUTE_SPEED_ON_COUNT_CHUNKS.
      case_decide; rewrite length_app, ?length_drop; cbn [length]; lia.
Qed.

(** The cautious loop over the blocks of a chunk counts each block twice
    and pushes one timestamp for each. *)
Lemma apply_cautious_counts chunkLen L R c blocks (s : state E) s' t :
  apply_cautious E chunkLen L R c blocks s = (Ok tt, s', t) ->
  blocksApplied s' = blocksApplied s + 2 * Z.of_nat (length blocks) /\
  exists nows, length nows = length blocks /\
               times s' = window_pushes (times s) nows.
Proof.
  revert s t. induction blocks as [|b blocks IH]; intros s t; simpl.
  - intros [= <- _]. split; [lia|]. by exists [].
  - intros H.
    apply bind_inv_Ok in H as ([] & s1 & t1 & ? & H1 & H & ->).
    apply bind_inv_Ok in H as ([] & s2 & t2 & ? & H2 & H & ->).
    destruct (applyGivenBlock_counters c R b s) as [Ht1 Hb1].
    destruct (incrementBlocks_counters chunkLen L R 1 s1) as [Ht2 Hb2].
    rewrite H1 in Ht1, Hb1. rewrite H2 in Ht2, Hb2. simpl in Ht1, Hb1, Ht2, Hb2.
    destruct (IH _ _ H) as (Hb & nows & Hlen & ->). split; [lia|].
    exists ((clock E (world s1)).2 :: nows). split; [simpl; lia|].
    by rewrite Ht2, Ht1.
Qed.

(** The step of the applier for one chunk. *)
Lemma apply_step_counts chunkLen L R (c : bool) blocks (s : state E) s' t :
  (if c then apply_cautious E chunkLen L R c blocks
   else bind (call (SaveBlocksInMainBranch blocks R)
                   (saveBlocksInMainBranch E blocks R))
             (fun _ => incrementBlocks E chunkLen L R (Z.of_nat (length blocks)))) s
    = (Ok tt, s', t) ->
  blocksApplied s' =
    blocksApplied s + (if c then 2 else 1) * Z.of_nat (length blocks) /\
  exists nows, length nows = (if c then length blocks else 1%nat) /\
               times s' = window_pushes (times s) nows.
Proof.
  destruct c; [apply apply_cautious_counts|]. intros H.
  apply bind_inv_Ok in H as ([] & s1 & t1 & t2 & H1 & H2 & ->).
  apply (steps_run same_counters) in H1 as [Ht1 Hb1];
    [|apply steps_call, same_counters_rel].
  destruct (incrementBlocks_counters chunkLen L R (Z.of_nat (length blocks)) s1)
    as [Ht2 Hb2].
  rewrite H2 in Ht2, Hb2. simpl in Ht2, Hb2. split; [lia|].
  exists [(clock E (world s1)).2]. split; [done|]. by rewrite Ht2, Ht1.
Qed.

(** The applier counts what it hands to the ledger, whatever the remote
    has answered. *)
Lemma apply_chunks_tally chunkLen L R c chunks previous (s : state E) final s' t :
  apply_chunks E chunkLen L R c chunks previous s = (Ok final, s', t) ->
  blocksApplied s' =
    blocksApplied s
    + (if c then 2 else 1) * Z.of_nat (length (ledger_numbers t)) /\
  exists nows,
    length nows = (if c then length (ledger_numbers t) else length chunks) /\
    times s' = window_pushes (times s) nows.
Proof.
  revert previous s t.
  induction chunks as [|ch chunks IH]; intros previous s t; simpl.
  - intros [= _ <- <-]. split; [simpl; lia|]. exists []. by destruct c.
  - intros H.
    apply bind_inv_Ok in H as (bs & s1 & t1 & ? & H1 & H & ->).
    apply bind_inv_Ok in H as ([] & s2 & t2 & ? & H2 & H & ->).
    pose proof (steps_run same_counters _ _ _ _ _
                  (steps_download _ R ch same_counters_rel) H1) as [Ht1 Hb1].
    apply download_Ok in H1 as [_ Hl1].
    pose proof (apply_step_Ok _ _ _ _ _ _ _ _ H2) as Hl2.
    apply apply_step_counts in H2 as (Hb2 & nows1 & Hlen1 & Ht2).
    destruct (IH _ _ _ H) as (Hb3 & nows2 & Hlen2 & ->).
    rewrite !ledger_numbers_app, Hl1, Hl2, !length_app, length_fmap. simpl.
    split; [destruct c; lia|].
    exists (nows1 ++ nows2). split.
    + rewrite length_app, Hlen1, Hlen2. destruct c; lia.
    + by rewrite Ht2, Ht1, window_pushes_app.
Qed.

(** What [connect] has computed, from what it has been answered. *)
Lemma connect_heights to asked (s : state E) h s1 t1 w1 w2 w3 lCurrent rCurrent :
  connect E to asked s = (Ok h, s1, t1) ->
  vucoin E (host E) (port E) (world s) = (w1, Ok tt) ->
  getCurrentBlockOrNull E w1 = (w2, Ok lCurrent) ->
  blockchain_current E w2 = (w3, Ok rCurrent) ->
  h = Heights (match lCurrent with Some b => number b | None => -1 end)
              (Z.min (number rCurrent) (to_or to (number rCurrent)))
              (match asked, lCurrent with
               | Some a, _ => a
               | None, Some b => 0 <=? number b
               | None, None => false
               end).
Proof.
  intros Hc H1 H2 H3.
  destruct (connect_Ok _ _ _ _ _ _ Hc)
    as (w1' & w2' & w3' & lCurrent' & rCurrent' & H1' & H2' & H3' & _
        & HL & HR & Hcau & _).
  rewrite H1 in H1'. injection H1' as <-.
  rewrite H2 in H2'. injection H2' as <- <-.
  rewrite H3 in H3'. injection H3' as <- <-.
  destruct h as [L R c]. simpl in *. subst L R c.
  by destruct asked, lCurrent.
Qed.

(** What a run that returns has added to the counters. *)
Lemma sync_tally fuel to chunkLen asked nopeers (s : state E) s' t :
  sync E fuel to chunkLen asked nopeers s = (Ok tt, s', t) ->
  exists h s1 t1,
    connect E to asked (set_logInterval E false s) = (Ok h, s1, t1) /\
    blocksApplied s' =
      blocksApplied s
      + (if cautious h then 2 else 1) * Z.of_nat (length (ledger_numbers t)) /\
    exists nows,
      length nows = (if cautious h then length (ledger_numbers t)
                     else length (rpc_blocks t)) /\
      times s' = window_pushes (times s) nows.
Proof.
  intros Hrun.
  apply sync_Ok_parts in Hrun
    as (h & s1 & t1 & s2 & t2 & s3 & t3 & Hc & Hd & Hp & -> & -> & ->).
  exists h, s1, t1. split; [done|].
  pose proof (steps_run same_counters _ _ _ _ _
                (steps_connect _ to asked same_counters_rel) Hc) as [Ht1 Hb1].
  assert (Hq1 : rpc_blocks t1 = [] /\ ledger_numbers t1 = []).
  { destruct (emits_connect to asked (set_logInterval E false s)) as [_ Ht].
    rewrite Hc in Ht. simpl in Ht. split.
    - apply no_request. eapply Forall_impl; [exact Ht|]. by intros [].
    - apply ledger_numbers_silent. eapply Forall_impl; [exact Ht|]. by intros []. }
  assert (Hq3 : rpc_blocks t3 = [] /\ ledger_numbers t3 = [] /\
                times s3 = times s2 /\ blocksApplied s3 = blocksApplied s2).
  { destruct nopeers; [by injection Hp as <- <-|].
    pose proof (steps_run same_counters _ _ _ _ _
                  (steps_sync_peers _ to same_counters_rel) Hp) as [? ?].
    destruct (emits_sync_peers to s2) as [_ Ht].
    rewrite Hp in Ht. simpl in Ht. split_and!; try done.
    - apply no_request. eapply Forall_impl; [exact Ht|]. by intros [].
    - apply ledger_numbers_silent. eapply Forall_impl; [exact Ht|]. by intros []. }
  destruct Hq1 as [Hr1 Hl1]. destruct Hq3 as (Hr3 & Hl3 & Ht3 & Hb3).
  destruct (download_and_apply_requests _ _ _ _ _ _ Hd) as (chunks0 & Hplan0 & Hr & _).
  unfold download_and_apply in Hd.
  apply bind_inv_Ok in Hd as (chunks & s4 & t4 & ? & Hplan & Hd & ->).
  apply bind_inv_Ok in Hd as (final & s5 & t5 & t6 & Ha & Hd & ->).
  unfold plan in Hplan. rewrite Hplan0 in Hplan. injection Hplan as <- <- <-.
  destruct (apply_chunks_tally _ _ _ _ _ _ _ _ _ _ Ha) as (Hb5 & nows & Hlen & Ht5).
  assert (Hl6 : ledger_numbers t6 = []).
  { eapply silent_run; [exact Hd|].
    repeat first [ by apply emits_appliedPercent_gen | emits_step ]. }
  apply (steps_run same_counters) in Hd as [Ht6 Hb6].
  2: { pose proof (same_counters_rel (E:=E)) as HR'.
       repeat first [ by apply steps_appliedPercent | steps_step ]. }
  assert (Hledger : ledger_numbers
                      (t1 ++ SetInterval :: ([] ++ t5 ++ t6) ++ t3
                          ++ [WatcherEnd; Push (EvSync true None)])
                    = ledger_numbers t5).
  { rewrite ledger_numbers_app, Hl1.
    change (ledger_numbers (SetInterval :: ?t)) with (ledger_numbers t).
    rewrite !ledger_numbers_app, Hl6, Hl3. simpl. by rewrite !app_nil_r. }
  assert (Hrpc : length (rpc_blocks
                      (t1 ++ SetInterval :: ([] ++ t5 ++ t6) ++ t3
                          ++ [WatcherEnd; Push (EvSync true None)]))
                 = length chunks0).
  { rewrite rpc_blocks_app, Hr1.
    change (rpc_blocks (SetInterval :: ?t)) with (rpc_blocks t).
    rewrite rpc_blocks_app, Hr, rpc_blocks_app, Hr3. simpl.
    by rewrite app_nil_r, length_fmap. }
  rewrite Hledger, Hrpc. split.
  - rewrite Hb3, Hb6, Hb5. simpl. by rewrite Hb1.
  - exists nows. split; [done|]. rewrite Ht3, Ht6, Ht5. simpl. by rewrite Ht1.
Qed.

(** What a run that returns has handed to the ledger, when the remote
    answers each request with the numbers asked for. *)
Lemma sync_ledger_length fuel to chunkLen asked nopeers (s : state E) s' t h s1 t1 :
  (forall count from bs,
     blockchain_blocks E count from = Ok bs -> number <$> bs ≡ₚ seqZ from count) ->
  sync E fuel to chunkLen asked nopeers s = (Ok tt, s', t) ->
  connect E to asked (set_logInterval E false s) = (Ok h, s1, t1) ->
  Z.of_nat (length (ledger_numbers t)) = Z.max 0 (remoteNumber h - localNumber h).
Proof.
  intros Hremote Hrun Hc.
  pose proof (f_equal snd Hrun) as Ht. simpl in Ht. subst t.
  assert (Hpeers : emits (fun e => submitted e = [])
                     (if nopeers then ret tt else sync_peers E to)).
  { destruct nopeers; [emits_step|].
    eapply emits_mono; [|apply emits_sync_peers]. by intros []. }
  destruct (sync_around_blocks (fun e => submitted e = []) fuel to chunkLen asked
              nopeers s h s1 t1 Hc Hpeers eq_refl eq_refl ltac:(by intros []))
    as (rest & Hshape & Hrest).
  apply sync_Ok_parts in Hrun
    as (h' & s1' & t1' & s2 & t2 & s3 & t3 & Hc' & Hd & _).
  rewrite Hc in Hc'. injection Hc' as <- <- <-.
  rewrite Hshape, sync_blocks_of_download, Hd. simpl.
  rewrite ledger_numbers_app.
  change (ledger_numbers (SetInterval :: ?t)) with (ledger_numbers t).
  rewrite ledger_numbers_app, (ledger_numbers_silent rest Hrest), app_nil_r.
  assert (Hl1 : ledger_numbers t1 = []).
  { destruct (emits_connect to asked (set_logInterval E false s)) as [_ Ht].
    rewrite Hc in Ht. simpl in Ht.
    apply ledger_numbers_silent. eapply Forall_impl; [exact Ht|]. by intros []. }
  rewrite Hl1. simpl.
  unfold download_and_apply in Hd.
  apply bind_inv_Ok in Hd as (chunks & s4 & t4 & ? & Hplan & Hd & ->).
  apply bind_inv_Ok in Hd as (final & s5 & t5 & t6 & Ha & Hd & ->).
  unfold plan in Hplan.
  destruct (plan_chunks fuel (localNumber h) (remoteNumber h)
              (chunkLen_or_default chunkLen)) as [chunks'|] eqn:Hchunks; [|discriminate].
  injection Hplan as <- <- <-.
  assert (Hl6 : ledger_numbers t6 = []).
  { eapply silent_run; [exact Hd|].
    repeat first [ by apply emits_appliedPercent_gen | emits_step ]. }
  simpl. rewrite ledger_numbers_app, Hl6, app_nil_r.
  rewrite (apply_chunks_Ok _ _ _ _ _ _ _ _ _ _ Hremote Ha).
  rewrite (planned_numbers _ _ _ _ _ Hchunks), length_seqZ. lia.
Qed.
End counting.

(** X12. A run of [sync] that returns has added to [blocksApplied] the number
    of blocks that it has handed to the ledger, once in the fast mode and
    twice in the cautious mode, where [applyGivenBlock] and
    [incrementBlocks(1)] both count each block. When the remote answers
    each [blocks(count, from)] with the numbers asked for, that is an
    increase of the number of blocks from [L+1] to [R] in the fast mode,
    and of twice this number in the cautious mode. The mode is the one of
    [mode_event]. *)
Theorem blocks_counted {W} (E : Env W) fuel to chunkLen asked nopeers
    (s : state E) w1 w2 w3 lCurrent rCurrent s' t :
  vucoin E (host E) (port E) (world s) = (w1, Ok tt) ->
  getCurrentBlockOrNull E w1 = (w2, Ok lCurrent) ->
  blockchain_current E w2 = (w3, Ok rCurrent) ->
  sync E fuel to chunkLen asked nopeers s = (Ok tt, s', t) ->
  let L := match lCurrent with Some b => number b | None => -1 end in
  let R := Z.min (number rCurrent) (to_or to (number rCurrent)) in
  let cautious := match asked, lCurrent with
                  | Some a, _ => a
                  | None, Some b => 0 <=? number b
                  | None, None => false
                  end in
  blocksApplied s' =
    blocksApplied s
    + (if cautious then 2 else 1) * Z.of_nat (length (ledger_numbers t)) /\
  ((forall count from bs,
      blockchain_blocks E count from = Ok bs -> number <$> bs ≡ₚ seqZ from count) ->
   blocksApplied s' =
     blocksApplied s + (if cautious then 2 else 1) * Z.max 0 (R - L)).
Proof.
  intros H1 H2 H3 Hrun L R mode.
  destruct (sync_tally _ _ _ _ _ _ _ _ Hrun) as (h & s1 & t1 & Hc & Hb & _).
  pose proof (connect_heights _ _ _ _ _ _ _ _ _ _ _ Hc H1 H2 H3) as Hh.
  fold L R mode in Hh. subst h. simpl in Hb. split; [done|].
  intros Hremote.
  pose proof (sync_ledger_length _ _ _ _ _ _ _ _ _ _ _ Hremote Hrun Hc) as Hlen.
  simpl in Hlen. by rewrite Hb, Hlen.
Qed.

Lemma blocks_counted_witness :
  let E := demo catching_up in
  let F := faulty catching_up stray_blocks in
  (sync E 10 ToUndefined None None false (Synchroniser E 0)).1.2.(blocksApplied) = 4 /\
  (sync E 10 ToUndefined None (Some false) false (Synchroniser E 0)).1.2.(blocksApplied) = 2 /\
  (sync F 10 ToUndefined None None true (Synchroniser F 0)).1.2.(blocksApplied) = 6.
Proof.
  cbv zeta. set (E := demo catching_up). set (F := faulty catching_up stray_blocks).
  set (run1 := sync E 10 ToUndefined None None false (Synchroniser E 0)).
  set (run2 := sync E 10 ToUndefined None (Some false) false (Synchroniser E 0)).
  set (run3 := sync F 10 ToUndefined None None true (Synchroniser F 0)).
  assert (Hrun1 : run1 = (Ok tt, run1.1.2, run1.2)) by (vm_compute; reflexivity).
  assert (Hrun2 : run2 = (Ok tt, run2.1.2, run2.2)) by (vm_compute; reflexivity).
  assert (Hrun3 : run3 = (Ok tt, run3.1.2, run3.2)) by (vm_compute; reflexivity).
  assert (Hl3 : ledger_numbers run3.2 = [5; 7; 7]) by (vm_compute; reflexivity).
  assert (Hremote : forall count from bs,
            blockchain_blocks E count from = Ok bs ->
            number <$> bs ≡ₚ seqZ from count).
  { intros count from bs [= <-].
    by rewrite fmap_reverse, reverse_Permutation, <- list_fmap_compose, list_fmap_id. }
  split_and!.
  - exact (proj2 (blocks_counted E 10 ToUndefined None None false (Synchroniser E 0)
                    100 100 100 (Some (plain_block 0)) (plain_block 2) _ _
                    eq_refl eq_refl eq_refl Hrun1) Hremote).
  - exact (proj2 (blocks_counted E 10 ToUndefined None (Some false) false
                    (Synchroniser E 0)
                    100 100 100 (Some (plain_block 0)) (plain_block 2) _ _
                    eq_refl eq_refl eq_refl Hrun2) Hremote).
  - pose proof (proj1 (blocks_counted F 10 ToUndefined None None true
                         (Synchroniser F 0)
                         100 100 100 (Some (plain_block 0)) (plain_block 2) _ _
                         eq_refl eq_refl eq_refl Hrun3)) as H.
    rewrite Hl3 in H. exact H.
Defined.

(** X13. When the timer fires after a run of [sync] that returned (the timer
    is not cleared then), the number of remaining blocks that its callback
    computes is [R - (L + 1 + blocksApplied)], with [blocksApplied] as the
    run has left it: what it was before the run, plus the number of blocks
    handed to the ledger, counted once in the fast mode and twice in the
    cautious mode. When the remote answers each [blocks(count, from)] with
    the numbers asked for, this is [R - L - 1 - blocksApplied0 - k * max(0,
    R - L)] with [blocksApplied0] the count before the run and [k] 1 or 2;
    if moreover there was something to fetch ([L < R]) and the count before
    the run was not negative (it is 0 for a new synchroniser), the number
    is below zero, [-1] at best, and whenever the callback writes its
    status then, the number of seconds left that it hands to
    [moment.duration] is negative. *)
Theorem remaining_after_success {W} (E : Env W) fuel to chunkLen asked nopeers
    (s : state E) w1 w2 w3 lCurrent rCurrent s' t :
  vucoin E (host E) (port E) (world s) = (w1, Ok tt) ->
  getCurrentBlockOrNull E w1 = (w2, Ok lCurrent) ->
  blockchain_current E w2 = (w3, Ok rCurrent) ->
  sync E fuel to chunkLen asked nopeers s = (Ok tt, s', t) ->
  let L := match lCurrent with Some b => number b | None => -1 end in
  let R := Z.min (number rCurrent) (to_or to (number rCurrent)) in
  let cautious := match asked, lCurrent with
                  | Some a, _ => a
                  | None, Some b => 0 <=? number b
                  | None, None => false
                  end in
  let k := if cautious then 2 else 1 in
  remain (Heights L R cautious) s' =
    R - (L + 1 + (blocksApplied s + k * Z.of_nat (length (ledger_numbers t)))) /\
  ((forall count from bs,
      blockchain_blocks E count from = Ok bs -> number <$> bs ≡ₚ seqZ from count) ->
   remain (Heights L R cautious) s' =
     R - L - 1 - blocksApplied s - k * Z.max 0 (R - L) /\
   (L < R -> 0 <= blocksApplied s ->
    remain (Heights L R cautious) s' <= -1 /\
    forall seconds,
      timer_callback (Heights L R cautious) s' = Some seconds ->
      Qlt seconds (inject_Z 0))).
Proof.
  intros H1 H2 H3 Hrun L R mode k.
  destruct (sync_tally _ _ _ _ _ _ _ _ Hrun) as (h & s1 & t1 & Hc & Hb & _).
  pose proof (connect_heights _ _ _ _ _ _ _ _ _ _ _ Hc H1 H2 H3) as Hh.
  fold L R mode in Hh. subst h. simpl in Hb. fold k in Hb.
  split; [unfold remain; simpl; by rewrite Hb|].
  intros Hremote.
  pose proof (sync_ledger_length _ _ _ _ _ _ _ _ _ _ _ Hremote Hrun Hc) as Hlen.
  simpl in Hlen.
  assert (Hremain : remain (Heights L R mode) s'
                    = R - L - 1 - blocksApplied s - k * Z.max 0 (R - L)).
  { unfold remain. simpl. rewrite Hb, Hlen. lia. }
  split; [done|]. intros HLR Hs.
  assert (Hneg : remain (Heights L R mode) s' <= -1).
  { rewrite Hremain. subst k. clearbody mode L R. destruct mode; lia. }
  split; [done|]. intros seconds. unfold timer_callback.
  destruct (1 <? remoteNumber (Heights L R mode)); simpl; [|done].
  destruct (Qle_bool (speed s') (inject_Z 0)) eqn:Hspeed; simpl; [done|].
  intros [= <-].
  assert (Hpos : Qlt (inject_Z 0) (speed s')).
  { apply Qnot_le_lt. intros Hle. apply Qle_bool_iff in Hle. congruence. }
  apply Qlt_shift_div_r; [done|]. rewrite Qmult_0_l.
  unfold Qlt. simpl. lia.
Qed.

Lemma remaining_after_success_witness :
  let E := demo catching_up in
  let o := sync E 10 ToUndefined None (Some false) true (Synchroniser E 0) in
  o.1.1 = Ok tt /\
  remain (Heights 0 2 false) o.1.2 = -1 /\
  forall seconds, timer_callback (Heights 0 2 false) o.1.2 = Some seconds ->
                  Qlt seconds (inject_Z 0).
Proof.
  cbv zeta. set (E := demo catching_up).
  set (run := sync E 10 ToUndefined None (Some false) true (Synchroniser E 0)).
  assert (Hrun : run = (Ok tt, run.1.2, run.2)) by (vm_compute; reflexivity).
  split; [by rewrite Hrun|].
  assert (Hremote : forall count from bs,
            blockchain_blocks E count from = Ok bs ->
            number <$> bs ≡ₚ seqZ from count).
  { intros count from bs [= <-].
    by rewrite fmap_reverse, reverse_Permutation, <- list_fmap_compose, list_fmap_id. }
  destruct (proj2 (remaining_after_success E 10 ToUndefined None (Some false) true
                     (Synchroniser E 0)
                     100 100 100 (Some (plain_block 0)) (plain_block 2) _ _
                     eq_refl eq_refl eq_refl Hrun) Hremote) as [Hremain Hneg].
  split; [exact Hremain|].
  exact (proj2 (Hneg ltac:(simpl; lia) ltac:(simpl; lia))).
Defined.

(** X14. A run of [sync] that returns pushes on the window of timestamps,
    with the eviction of [incrementBlocks], one timestamp for each request
    of blocks in the fast mode, and one for each block handed to the ledger
    in the cautious mode: from a window of at most
    [COMPUTE_SPEED_ON_COUNT_CHUNKS] timestamps, the window it leaves holds
    as many more as there were such requests or blocks, up to
    [COMPUTE_SPEED_ON_COUNT_CHUNKS], the number at which it stays. *)
Theorem window_advances {W} (E : Env W) fuel to chunkLen asked nopeers
    (s : state E) w1 w2 w3 lCurrent rCurrent s' t :
  vucoin E (host E) (port E) (world s) = (w1, Ok tt) ->
  getCurrentBlockOrNull E w1 = (w2, Ok lCurrent) ->
  blockchain_current E w2 = (w3, Ok rCurrent) ->
  sync E fuel to chunkLen asked nopeers s = (Ok tt, s', t) ->
  (length (times s) <= COMPUTE_SPEED_ON_COUNT_CHUNKS)%nat ->
  let cautious := match asked, lCurrent with
                  | Some a, _ => a
                  | None, Some b => 0 <=? number b
                  | None, None => false
                  end in
  let pushes := if cautious then length (ledger_numbers t)
                else length (rpc_blocks t) in
  length (times s')
  = Nat.min COMPUTE_SPEED_ON_COUNT_CHUNKS (length (times s) + pushes).
Proof.
  intros H1 H2 H3 Hrun Hl mode pushes.
  destruct (sync_tally _ _ _ _ _ _ _ _ Hrun)
    as (h & s1 & t1 & Hc & _ & nows & Hlen & ->).
  pose proof (connect_heights _ _ _ _ _ _ _ _ _ _ _ Hc H1 H2 H3) as Hh.
  fold mode in Hh. subst h. simpl in Hlen. fold pushes in Hlen.
  by rewrite window_pushes_length, Hlen.
Qed.

Lemma window_advances_witness :
  let E := demo catching_up in
  let s := Synchroniser E 0 in
  let cautious := sync E 10 ToUndefined None None false s in
  let fast := sync E 10 ToUndefined None (Some false) false s in
  length (times s) = 1%nat /\
  length (times cautious.1.2) = 3%nat /\
  length (times fast.1.2) = 2%nat.
Proof.
  cbv zeta. set (E := demo catching_up). set (s := Synchroniser E 0).
  set (run1 := sync E 10 ToUndefined None None false s).
  set (run2 := sync E 10 ToUndefined None (Some false) false s).
  assert (Hrun1 : run1 = (Ok tt, run1.1.2, run1.2)) by (vm_compute; reflexivity).
  assert (Hrun2 : run2 = (Ok tt, run2.1.2, run2.2)) by (vm_compute; reflexivity).
  assert (Hl1 : length (ledger_numbers run1.2) = 2%nat) by (vm_compute; reflexivity).
  assert (Hr2 : length (rpc_blocks run2.2) = 1%nat) by (vm_compute; reflexivity).
  assert (Hs : (length (times s) <= COMPUTE_SPEED_ON_COUNT_CHUNKS)%nat)
    by (vm_compute; lia).
  split; [reflexivity|]. split.
  - pose proof (window_advances E 10 ToUndefined None None false s
                  100 100 100 (Some (plain_block 0)) (plain_block 2) _ _
                  eq_refl eq_refl eq_refl Hrun1 Hs) as H.
    cbv zeta in H. cbv iota beta in H. rewrite H.
    change (if 0 <=? number (plain_block 0) then length (ledger_numbers run1.2)
            else length (rpc_blocks run1.2)) with (length (ledger_numbers run1.2)).
    rewrite Hl1. reflexivity.
  - pose proof (window_advances E 10 ToUndefined None (Some false) false s
                  100 100 100 (Some (plain_block 0)) (plain_block 2) _ _
                  eq_refl eq_refl eq_refl Hrun2 Hs) as H.
    cbv zeta in H. cbv iota beta in H. rewrite H, Hr2. reflexivity.
Defined.
(** ** The peers, at the edges *)



Section leaves.
Context {W : Type} {E : Env W}.

Lemma bind_assoc {A B C} (m : M E A) (f : A -> M E B) (g : B -> M E C) s :
  bind (bind m f) g s = bind m (fun a => bind (f a) g) s.
Proof.
  unfold bind. destruct (m s) as [[[a|e|] s1] t1]; try done.
  destruct (f a s1) as [[[b|e|] s2] t2]; try done.
  destruct (g b s2) as [[r s3] t3]. by rewrite app_assoc.
Qed.

Lemma bind_ext {A B} (m : M E A) (f g : A -> M E B) s :
  (forall a s1, f a s1 = g a s1) -> bind m f s = bind m g s.
Proof.
  intros Hfg. unfold bind. destruct (m s) as [[[a|e|] s1] t1]; try done.
  by rewrite Hfg.
Qed.

(** The loop over the leaves of a list in two parts. *)
Lemma add_leaves_app to pre post (s : state E) :
  add_leaves E to (pre ++ post) s =
  bind (add_leaves E to pre) (fun _ => add_leaves E to post) s.
Proof.
  revert s. induction pre as [|leaf pre IH]; intros s; simpl.
  - unfold bind, ret. by destruct (add_leaves E to post s) as [[r s1] t1].
  - rewrite bind_assoc. apply bind_ext. intros json3 s1.
    rewrite bind_assoc. apply bind_ext. intros [] s2.
    rewrite bind_assoc. apply bind_ext. intros [] s3. apply IH.
Qed.
End leaves.

(** X16. In the loop over the missing leaves no error of [submitP] is set
    aside, [ALREADY_RECORDED] and [UNKNOWN_REFERENCE_BLOCK] included: when
    [submitP] throws [e] for a leaf, the loop throws [e] there, and the
    leaves after this one are neither asked to the remote nor submitted. *)
Theorem leaf_error_ends_the_loop {W} (E : Env W) to pre leaf post (s : state E)
    s1 t1 w1 a w2 e :
  add_leaves E to pre s = (Ok tt, s1, t1) ->
  peers_leaf E leaf (world s1) = (w1, Ok a) ->
  submitP E (Peering.Json (Peering.fields a) []) (Some (false, is_undefined to)) w1
    = (w2, Err e) ->
  let o := add_leaves E to (pre ++ leaf :: post) s in
  o.1.1 = Err e /\
  o.2 = t1 ++ leaf_exchange to leaf a /\
  leaf_fetches o.2 = pre ++ [leaf].
Proof.
  intros Hpre Hleaf Hsubmit o.
  assert (Hrun : exists s', o = (Err e, s', t1 ++ leaf_exchange to leaf a)).
  { assert (Hone : exists s', add_leaves E to (leaf :: post) s1
                                = (Err e, s', leaf_exchange to leaf a)).
    { simpl. unfold bind at 1. rewrite call_run, Hleaf. simpl.
      unfold bind at 1, watcher_writeStatus at 1.
      unfold bind at 1. rewrite call_run. simpl. rewrite Hsubmit. simpl.
      by eexists. }
    destruct Hone as [s' Hone].
    subst o. rewrite add_leaves_app, (bind_Ok _ _ _ _ _ _ Hpre), Hone. simpl.
    by eexists. }
  destruct Hrun as [s' ->]. simpl. split_and!; try done.
  apply add_leaves_Ok in Hpre as (answers & Hans & ->).
  rewrite leaf_fetches_app, leaf_fetches_exchanges by (by eapply Forall2_length).
  done.
Qed.

Lemma leaf_error_ends_the_loop_witness :
  let E := faulty catching_up known_leaf in
  let o := add_leaves E ToUndefined ["a"; "b"; "c"] (Synchroniser E 0) in
  o.1.1 = Err (Thrown "Peer already recorded") /\ leaf_fetches o.2 = ["a"; "b"].
Proof.
  set (E := faulty catching_up known_leaf).
  set (pre := add_leaves E ToUndefined ["a"] (Synchroniser E 0)).
  assert (Hpre : pre = (Ok tt, pre.1.2, pre.2)) by (vm_compute; reflexivity).
  pose proof (leaf_error_ends_the_loop E ToUndefined ["a"] "b" ["c"] (Synchroniser E 0)
                _ _ _ _ _ _ Hpre eq_refl eq_refl) as (H1 & _ & H3).
  split; [exact H1 | exact H3].
Defined.
(** ** The base watchers *)

(** X17. Whatever calls a [LoggerWatcher] receives, in whatever order, the
    status lines they add to its log are the statuses asked for, in order,
    without those that repeat the status asked just before (for the first
    one, the last status written before these calls): a status is logged
    again only after a different one, and the calls on the percentages in
    between do not change this. For a new watcher the log holds no status
    and there is no last message. *)
Theorem logger_logs_each_change (calls : list watcher_call) (w : logger_watcher) :
  let w' := watcher_calls LoggerWatcher.watcher calls w in
  statuses_logged (logged w') =
    statuses_logged (logged w) ++ squeeze (lastMsg w) (statuses_asked calls).
Proof.
  revert w. induction calls as [|c calls IH]; intros w; simpl.
  - by rewrite app_nil_r.
  - rewrite IH. clear IH. destruct c as [str|[p|]|[p|]|]; simpl.
    + unfold LoggerWatcher.writeStatus.
      destruct (decide (Some str = lastMsg w)) as [Heq|Hne]; [done|]. simpl.
      unfold statuses_logged. rewrite omap_app. simpl.
      by rewrite <- app_assoc.
    + destruct (js_lt (downPct w) p); simpl; [|done].
      unfold statuses_logged. rewrite omap_app. simpl. by rewrite app_nil_r.
    + done.
    + destruct (js_lt (appliedPct w) p); simpl; [|done].
      unfold statuses_logged. rewrite omap_app. simpl. by rewrite app_nil_r.
    + done.
    + done.
Qed.

(** X18. A [MultimeterWatcher] keeps every status it is asked to write, in
    order and with the repetitions, in [writtens]; the calls on the
    percentages and [end] add nothing to it. *)
Theorem multimeter_keeps_every_status (B : Bar) (calls : list watcher_call)
    (w : multimeter_watcher B) :
  writtens (watcher_calls (MultimeterWatcher.watcher B) calls w)
  = writtens w ++ statuses_asked calls.
Proof.
  revert w. induction calls as [|c calls IH]; intros w; simpl.
  - by rewrite app_nil_r.
  - rewrite IH. clear IH. destruct c as [str|pct|pct|]; simpl.
    + by rewrite <- app_assoc.
    + unfold MultimeterWatcher.downloadPercent.
      by destruct (bar_percent B pct (downloadBar w)).
    + unfold MultimeterWatcher.appliedPercent.
      by destruct (bar_percent B pct (appliedBar w)).
    + done.
Qed.
(** ** What the ledger is handed, and when the peers come *)

Section answers.
Context {W : Type} {E : Env W}.

(** The applier hands the ledger the answers of the remote, each sorted
    by number. *)
Lemma apply_chunks_answers chunkLen L R c chunks previous (s : state E) final s' t :
  apply_chunks E chunkLen L R c chunks previous s = (Ok final, s', t) ->
  exists answers,
    Forall2 (fun (ch : chunk) bs =>
               blockchain_blocks E (ch.2 - ch.1 + 1) ch.1 = Ok bs) chunks answers /\
    ledger_numbers t
      = concat ((fun bs => number <$> sortBy_number bs) <$> answers).
Proof.
  revert previous s t. induction chunks as [|ch chunks IH]; intros previous s t; simpl.
  - intros [= _ _ <-]. exists []. by split; [constructor|].
  - intros H.
    apply bind_inv_Ok in H as (bs & s1 & t1 & ? & H1 & H & ->).
    apply bind_inv_Ok in H as ([] & s2 & t2 & ? & H2 & H & ->).
    apply download_Ok in H1 as [Hbs Ht1]. apply apply_step_Ok in H2.
    destruct (IH _ _ _ H) as (answers & Hans & Ht).
    exists (bs :: answers). split; [by constructor|].
    by rewrite !ledger_numbers_app, Ht1, H2, Ht.
Qed.

Lemma sync_blocks_ends fuel chunkLen h (s : state E) s' t :
  sync_blocks E fuel chunkLen h s = (Ok tt, s', t) ->
  SetInterval ∈ t /\ exists b, SaveParametersForRootBlock b ∈ t.
Proof.
  rewrite sync_blocks_of_download.
  destruct (download_and_apply E fuel chunkLen h (set_logInterval E true s))
    as [[r s2] t2] eqn:Hd. simpl. intros [= -> -> <-].
  split; [set_solver|].
  unfold download_and_apply in Hd.
  apply bind_inv_Ok in Hd as (chunks & s3 & t3 & ? & _ & Hd & ->).
  apply bind_inv_Ok in Hd as (final & s4 & t4 & ? & _ & Hd & ->).
  apply bind_inv_Ok in Hd as ([] & s5 & t5 & ? & _ & Hd & ->).
  apply bind_inv_Ok in Hd as (? & s6 & t6 & ? & _ & Hd & ->).
  apply bind_inv_Ok in Hd as (rootBlock & s7 & t7 & ? & _ & Hd & ->).
  apply call_Ok in Hd as [-> _]. exists rootBlock. set_solver.
Qed.

Lemma on_error_events (P : event -> Prop) err (s : state E) :
  (forall e, error_event e -> P e) -> Forall P (on_error E err s).2.
Proof.
  intros Perr. destruct (on_error_run err s) as [_ ->].
  constructor; [by apply Perr|]. apply Forall_app. split.
  - destruct (logInterval s); repeat constructor. by apply Perr.
  - apply Forall_app. split; [|repeat constructor; by apply Perr].
    unfold status_of. destruct (error_status err); repeat constructor.
    by apply Perr.
Qed.

(** A run in phases: the events of [connect], those of the block phase
    and the rest, which holds events about peers only if the block phase
    has returned. *)
Lemma sync_phases fuel to chunkLen asked (nopeers : bool) (s : state E) :
  exists t1 t2 rest,
    (sync E fuel to chunkLen asked nopeers s).2 = t1 ++ t2 ++ rest /\
    Forall (fun e => is_peer_event e = false) (t1 ++ t2) /\
    Forall (fun e => is_transfer e = false) rest /\
    (Exists (fun e => is_peer_event e = true) rest ->
     SetInterval ∈ t2 /\ exists b, SaveParametersForRootBlock b ∈ t2).
Proof.
  assert (Hquiet : forall err (s0 : state E),
            Forall (fun e => is_transfer e = false) (on_error E err s0).2 /\
            ~ Exists (fun e => is_peer_event e = true) (on_error E err s0).2).
  { intros err s0. split.
    - apply on_error_events. by intros [[]| | | | | | | | | | | | | | | | |].
    - intros Hex. apply Exists_exists in Hex as (e' & Hin & He').
      pose proof (on_error_events (fun e => is_peer_event e = false) err s0
                    ltac:(by intros [])) as Hnone.
      rewrite Forall_forall in Hnone. by rewrite (Hnone e' Hin) in He'. }
  destruct (connect E to asked (set_logInterval E false s))
    as [[r1 s1] t1] eqn:Hc.
  assert (Ht1 : Forall (fun e => is_peer_event e = false) t1).
  { destruct (emits_connect to asked (set_logInterval E false s)) as [_ Ht].
    rewrite Hc in Ht. eapply Forall_impl; [exact Ht|]. by intros []. }
  destruct r1 as [h|e|].
  - destruct (sync_blocks E fuel (chunkLen_or_default chunkLen) h s1)
      as [[r2 s2] t2] eqn:Hb.
    assert (Ht2 : Forall (fun e => is_peer_event e = false) (t1 ++ t2)).
    { apply Forall_app. split; [done|].
      destruct (sync_blocks_run _ _ _ _ _ _ _ Hb) as (t2' & -> & Ht2 & _).
      constructor; [done|]. eapply Forall_impl; [exact Ht2|]. by intros []. }
    destruct r2 as [[]|e|].
    + assert (Hpeers : emits (fun e => is_transfer e = false)
                         (if nopeers then ret tt else sync_peers E to)).
      { destruct nopeers; [emits_step|].
        eapply emits_mono; [|apply emits_sync_peers]. by intros []. }
      destruct (sync_around_blocks (fun e => is_transfer e = false) fuel to chunkLen
                  asked nopeers s h s1 t1 Hc Hpeers eq_refl eq_refl
                  ltac:(by intros [[]| | | | | | | | | | | | | | | | |]))
        as (rest & Hrun & Hrest).
      rewrite Hb in Hrun. exists t1, t2, rest. split_and!; try done.
      intros _. by eapply sync_blocks_ends.
    + assert (Htry : sync_try E fuel to (chunkLen_or_default chunkLen) asked nopeers
                       (set_logInterval E false s) = (Err e, s2, t1 ++ t2)).
      { unfold sync_try. rewrite (bind_Ok _ _ _ _ _ _ Hc).
        by rewrite (bind_Err _ _ _ _ _ _ Hb). }
      rewrite (sync_of_try _ _ _ _ _ _ _ _ _ Htry). simpl.
      destruct (Hquiet e s2) as [Hq1 Hq2].
      exists t1, t2, (on_error E e s2).2. rewrite <- app_assoc.
      split_and!; try done.
    + assert (Htry : sync_try E fuel to (chunkLen_or_default chunkLen) asked nopeers
                       (set_logInterval E false s) = (Hang, s2, t1 ++ t2)).
      { unfold sync_try. rewrite (bind_Ok _ _ _ _ _ _ Hc).
        by rewrite (bind_Hang _ _ _ _ _ Hb). }
      rewrite (sync_of_try _ _ _ _ _ _ _ _ _ Htry). simpl.
      exists t1, t2, []. rewrite app_nil_r. split_and!; try done.
      intros Hex. by apply Exists_nil in Hex.
  - assert (Htry : sync_try E fuel to (chunkLen_or_default chunkLen) asked nopeers
                     (set_logInterval E false s) = (Err e, s1, t1))
      by (unfold sync_try; by rewrite (bind_Err _ _ _ _ _ _ Hc)).
    rewrite (sync_of_try _ _ _ _ _ _ _ _ _ Htry). simpl.
    destruct (Hquiet e s1) as [Hq1 Hq2].
    exists t1, [], (on_error E e s1).2. rewrite app_nil_r. split_and!; try done.
  - assert (Htry : sync_try E fuel to (chunkLen_or_default chunkLen) asked nopeers
                     (set_logInterval E false s) = (Hang, s1, t1))
      by (unfold sync_try; by rewrite (bind_Hang _ _ _ _ _ Hc)).
    rewrite (sync_of_try _ _ _ _ _ _ _ _ _ Htry). simpl.
    exists t1, [], []. rewrite !app_nil_r. split_and!; try done.
    intros Hex. by apply Exists_nil in Hex.
Qed.
End answers.

Lemma app_cons_split {A} (P : A -> Prop) (l1 rest before after : list A) (e : A) :
  l1 ++ rest = before ++ e :: after -> Forall P l1 -> ~ P e ->
  exists middle, before = l1 ++ middle /\ rest = middle ++ e :: after.
Proof.
  revert before. induction l1 as [|x l1 IH]; intros before Heq Hl1 He.
  - by exists before.
  - destruct before as [|y before]; simpl in Heq.
    + injection Heq as -> _. by apply Forall_cons_1 in Hl1 as [? _].
    + injection Heq as -> Heq. apply Forall_cons_1 in Hl1 as [_ Hl1].
      destruct (IH _ Heq Hl1 He) as (middle & -> & ->). by exists middle.
Qed.

(** X19. The peers come after the blocks: whenever a run of [sync] asks the
    remote for its peering entry or its peers, reads the local Merkle tree
    of peers or submits a peer, the timer is set,
    [saveParametersForRootBlock] has been called, and from there on the run
    requests no block, hands nothing to the ledger and pushes no download
    percentage. *)
Theorem peers_follow_blocks {W} (E : Env W) fuel to chunkLen asked nopeers
    (s : state E) before e after :
  (sync E fuel to chunkLen asked nopeers s).2 = before ++ e :: after ->
  is_peer_event e = true ->
  SetInterval ∈ before /\
  (exists b, SaveParametersForRootBlock b ∈ before) /\
  Forall (fun e' => is_transfer e' = false) after.
Proof.
  intros Hrun He.
  destruct (sync_phases fuel to chunkLen asked nopeers s)
    as (t1 & t2 & rest & Ht & Hblocks & Hrest & Hpeers).
  rewrite Ht, app_assoc in Hrun.
  destruct (app_cons_split _ _ _ _ _ _ Hrun Hblocks ltac:(simpl; congruence))
    as (middle & -> & ->).
  destruct Hpeers as (Hset & b & Hb).
  { apply Exists_app. right. by constructor. }
  apply Forall_app in Hrest as [_ Hrest]. apply Forall_cons_1 in Hrest as [_ Hrest].
  split_and!; [set_solver | exists b; set_solver | done].
Qed.

Lemma peers_follow_blocks_witness :
  let E := demo catching_up in
  let o := sync E 10 ToUndefined None None false (Synchroniser E 0) in
  exists before after,
    o.2 = before ++ RemotePeering :: after /\
    SetInterval ∈ before /\
    Forall (fun e' => is_transfer e' = false) after.
Proof.
  cbv zeta. set (E := demo catching_up).
  set (run := sync E 10 ToUndefined None None false (Synchroniser E 0)).
  assert (Hsplit : exists before after, run.2 = before ++ RemotePeering :: after).
  { eexists (take 16 run.2), (drop 17 run.2). vm_compute. reflexivity. }
  destruct Hsplit as (before & after & Hrun).
  exists before, after. split; [exact Hrun|].
  destruct (peers_follow_blocks E 10 ToUndefined None None false (Synchroniser E 0)
              before RemotePeering after Hrun eq_refl) as (H1 & _ & H3).
  split; [exact H1 | exact H3].
Defined.

(** X20. [sync] hands the ledger what the remote answers, without a check of
    the count or of the numbers: in a run that returns, the numbers of the
    blocks handed to the ledger are those of the answers to the requests of
    blocks, in the order of the requests, each answer sorted by number. *)
Theorem ledger_trusts_the_remote {W} (E : Env W) fuel to chunkLen asked nopeers
    (s : state E) s' t :
  sync E fuel to chunkLen asked nopeers s = (Ok tt, s', t) ->
  exists answers,
    Forall2 (fun (q : Z * Z) bs => blockchain_blocks E q.1 q.2 = Ok bs)
            (rpc_blocks t) answers /\
    ledger_numbers t = concat ((fun bs => number <$> sortBy_number bs) <$> answers).
Proof.
  intros Hrun.
  apply sync_Ok_parts in Hrun
    as (h & s1 & t1 & s2 & t2 & s3 & t3 & Hc & Hd & Hp & -> & _).
  assert (Hq1 : rpc_blocks t1 = [] /\ ledger_numbers t1 = []).
  { destruct (emits_connect to asked (set_logInterval E false s)) as [_ Ht].
    rewrite Hc in Ht. simpl in Ht. split.
    - apply no_request. eapply Forall_impl; [exact Ht|]. by intros [].
    - apply ledger_numbers_silent. eapply Forall_impl; [exact Ht|]. by intros []. }
  assert (Hq3 : rpc_blocks t3 = [] /\ ledger_numbers t3 = []).
  { destruct nopeers; [by injection Hp as _ <-|].
    destruct (emits_sync_peers to s2) as [_ Ht].
    rewrite Hp in Ht. simpl in Ht. split.
    - apply no_request. eapply Forall_impl; [exact Ht|]. by intros [].
    - apply ledger_numbers_silent. eapply Forall_impl; [exact Ht|]. by intros []. }
  destruct Hq1 as [Hr1 Hl1]. destruct Hq3 as [Hr3 Hl3].
  destruct (download_and_apply_requests _ _ _ _ _ _ Hd) as (chunks0 & Hplan0 & Hr & _).
  unfold download_and_apply in Hd.
  apply bind_inv_Ok in Hd as (chunks & s4 & t4 & ? & Hplan & Hd & ->).
  apply bind_inv_Ok in Hd as (final & s5 & t5 & t6 & Ha & Hd & ->).
  unfold plan in Hplan. rewrite Hplan0 in Hplan. injection Hplan as <- <- <-.
  destruct (apply_chunks_answers _ _ _ _ _ _ _ _ _ _ Ha) as (answers & Hans & Hl5).
  assert (Hl6 : ledger_numbers t6 = []).
  { eapply silent_run; [exact Hd|].
    repeat first [ by apply emits_appliedPercent_gen | emits_step ]. }
  exists answers. split.
  - rewrite rpc_blocks_app, Hr1.
    change (rpc_blocks (SetInterval :: ?t)) with (rpc_blocks t).
    rewrite rpc_blocks_app, Hr, rpc_blocks_app, Hr3. simpl. rewrite app_nil_r.
    by apply Forall2_fmap_l.
  - rewrite ledger_numbers_app, Hl1.
    change (ledger_numbers (SetInterval :: ?t)) with (ledger_numbers t).
    rewrite !ledger_numbers_app, Hl5, Hl6, Hl3. simpl.
    by rewrite !app_nil_r.
Qed.

Lemma ledger_trusts_the_remote_witness :
  let E := faulty catching_up stray_blocks in
  let o := sync E 10 ToUndefined None None true (Synchroniser E 0) in
  o.1.1 = Ok tt /\ rpc_blocks o.2 = [(2, 1)] /\ ledger_numbers o.2 = [5; 7; 7].
Proof.
  cbv zeta. set (E := faulty catching_up stray_blocks).
  set (run := sync E 10 ToUndefined None None true (Synchroniser E 0)).
  assert (Hrun : run = (Ok tt, run.1.2, run.2)) by (vm_compute; reflexivity).
  assert (Hr : rpc_blocks run.2 = [(2, 1)]) by (vm_compute; reflexivity).
  split; [by rewrite Hrun|]. split; [exact Hr|].
  destruct (ledger_trusts_the_remote E 10 ToUndefined None None true
              (Synchroniser E 0) _ _ Hrun) as (answers & Hans & Hl).
  rewrite Hr in Hans.
  apply Forall2_cons_inv_l in Hans as (bs & rest & Hbs & Hrest & ->).
  apply Forall2_nil_inv_l in Hrest as ->.
  injection Hbs as <-. exact Hl.
Defined.
(** ** The reconciliation, in a run of [sync] *)

Lemma leaf_lists_app t1 t2 : leaf_lists (t1 ++ t2) = (leaf_lists t1 + leaf_lists t2)%nat.
Proof. unfold leaf_lists. by rewrite filter_app, length_app. Qed.

(** The events that are no exchange about a leaf. *)
Lemma leafless t :
  Forall (fun e => match e with
                   | RemotePeers QLeaves | RemotePeers (QLeaf _)
                   | SubmitP _ (Some _) => False
                   | _ => True
                   end) t ->
  leaf_lists t = 0%nat /\ leaf_fetches t = [] /\ leaf_submissions t = [].
Proof.
  intros Ht. split_and!.
  - apply leaf_lists_none. eapply Forall_impl; [exact Ht|].
    intros e He. destruct e; try done.
    by match goal with q : peers_query |- _ => destruct q end.
  - unfold leaf_fetches. induction Ht as [|e t He _ IH]; [done|].
    destruct e; try done.
    by match goal with q : peers_query |- _ => destruct q end.
  - unfold leaf_submissions. induction Ht as [|e t He _ IH]; [done|].
    destruct e; try done.
    by match goal with a : option (bool * bool) |- _ => destruct a end.
Qed.

Section exchanges.
Context {W : Type} {E : Env W}.

(** The loop over the missing leaves, when it returns. *)
Lemma add_leaves_exchanged to leaves (s : state E) s' t :
  add_leaves E to leaves s = (Ok tt, s', t) ->
  exists answers,
    leaves_exchanged E to (world s) leaves answers /\
    length leaves = length answers /\
    t = concat (zip_with (leaf_exchange to) leaves answers).
Proof.
  revert s t. induction leaves as [|leaf leaves IH]; intros s t; simpl.
  - intros [= _ <-]. by exists [].
  - intros H.
    apply bind_inv_Ok in H as (a & s1 & t1 & ? & H1 & H & ->).
    apply bind_inv_Ok in H as ([] & s2 & t2 & ? & [= <- <-] & H & ->).
    apply bind_inv_Ok in H as ([] & s3 & t3 & ? & H3 & H & ->).
    rewrite call_run in H1. injection H1 as Ha <- <-.
    rewrite call_run in H3. injection H3 as Hsub <- <-.
    destruct (IH _ _ H) as (answers & Hex & Hlen & ->).
    exists (a :: answers). simpl in *. split_and!; [|by f_equal|done].
    destruct (peers_leaf E leaf (world s)) as [w1 r1]. simpl in *. subst r1.
    destruct (submitP E _ _ w1) as [w2 r2] eqn:Hs. simpl in *. subst r2.
    by exists w1, w2.
Qed.

(** The reconciliation of the peers, with [local] the Merkle summary of
    the local peers and [rm] the remote's: when the two roots are equal
    the only event is the status line; when they differ the list of leaves
    is asked once, and the leaves asked one by one are, in order, the
    leaves of the remote's list that are not local leaves. *)
Lemma reconcile_run (to : js_to) (local : merkle) (rm : nodes_merkle) (s : state E) :
  let o := reconcile E to local rm s in
  (root rm = merkle_root local ->
     o.1.1 = Ok tt /\
     o.2 = [WriteStatus "Peers already known"] /\
     leaf_lists o.2 = 0%nat /\ leaf_fetches o.2 = [] /\ leaf_submissions o.2 = []) /\
  (root rm <> merkle_root local ->
     forall w leaves, peers_leaves E (world s) = (w, Ok leaves) ->
       let missing := filter (fun leaf => leaf ∉ merkle_leaves local) leaves in
       (forall leaf, leaf ∈ missing <-> leaf ∈ leaves /\ leaf ∉ merkle_leaves local) /\
       leaf_lists o.2 = 1%nat /\
       leaf_fetches o.2 `prefix_of` missing /\
       (o.1.1 = Ok tt ->
          exists answers,
            leaves_exchanged E to w missing answers /\
            o.2 = RemotePeers QLeaves
                    :: concat (zip_with (leaf_exchange to) missing answers) /\
            leaf_fetches o.2 = missing /\
            leaf_submissions o.2 =
              (fun a => (Peering.Json (Peering.fields a) [], (false, is_undefined to)))
                <$> answers)).
Proof.
  intros o. subst o. unfold reconcile. split.
  - intros Heq. rewrite bool_decide_eq_false_2 by (by intros ?). done.
  - intros Hne w leaves Hleaves.
    rewrite bool_decide_eq_true_2 by done.
    split; [intros leaf; rewrite list_elem_of_filter; tauto|].
    unfold bind, call, leavesToAdd. rewrite Hleaves. simpl.
    set (missing := filter (fun leaf => leaf ∉ merkle_leaves local) leaves).
    pose proof (add_leaves_fetches to missing (set_world E w s)) as Hpre.
    pose proof (add_leaves_no_list to missing (set_world E w s)) as [_ Hev].
    destruct (add_leaves E to missing (set_world E w s)) as [[r s'] t] eqn:Hadd.
    simpl in *. split_and!.
    + unfold leaf_lists. rewrite filter_cons. simpl.
      fold (leaf_lists t). by rewrite leaf_lists_none.
    + done.
    + intros ->.
      destruct (add_leaves_exchanged _ _ _ _ _ Hadd) as (answers & Hex & Hlen & ->).
      exists answers. split_and!; auto.
      * change (leaf_fetches (concat (zip_with (leaf_exchange to) missing answers))
                = missing).
        by apply leaf_fetches_exchanges.
      * change (leaf_submissions
                  (concat (zip_with (leaf_exchange to) missing answers)) =
                (fun a => (Peering.Json (Peering.fields a) [], (false, is_undefined to)))
                  <$> answers).
        by apply leaf_submissions_exchanges.
Qed.
End exchanges.

Section reconciliation_in_sync.
Context {W : Type} {E : Env W}.

(** The peers, when the remote's own entry has been dealt with and the
    two Merkle summaries have been read: [sync_peers] goes on with the
    reconciliation of these two summaries. *)
Lemma sync_peers_run to (s : state E) s3 t3 w4 local w5 rm :
  syncPeer E (watcher_writeStatus E "Peers..." s).1.2 = (Ok tt, s3, t3) ->
  merkleForPeers E (world s3) = (w4, Ok local) ->
  peers_summary E w4 = (w5, Ok rm) ->
  let o := reconcile E to local rm (set_world E w5 (set_world E w4 s3)) in
  sync_peers E to s =
    (o.1.1, o.1.2,
     WriteStatus "Peers..." :: t3 ++ [MerkleForPeers; RemotePeers QSummary] ++ o.2).
Proof.
  intros Hsp Hm Hsum o. subst o.
  unfold sync_peers. unfold bind at 1, watcher_writeStatus at 1.
  unfold watcher_writeStatus in Hsp. simpl in Hsp.
  unfold bind at 1. rewrite Hsp.
  unfold bind at 1. rewrite call_run, Hm. simpl.
  unfold bind at 1. rewrite call_run. simpl. rewrite Hsum. simpl.
  destruct (reconcile E to local rm (set_world E w5 (set_world E w4 s3)))
    as [[r s'] t]. done.
Qed.

(** A run of [sync] that comes to the reconciliation: its outcome is the
    one of the reconciliation, and the exchanges about leaves are those
    of the reconciliation. *)
Lemma sync_reconcile fuel to chunkLen asked (s : state E)
    h s1 t1 s2 t2 s3 t3 w4 local w5 rm :
  connect E to asked (set_logInterval E false s) = (Ok h, s1, t1) ->
  sync_blocks E fuel (chunkLen_or_default chunkLen) h s1 = (Ok tt, s2, t2) ->
  syncPeer E (watcher_writeStatus E "Peers..." s2).1.2 = (Ok tt, s3, t3) ->
  merkleForPeers E (world s3) = (w4, Ok local) ->
  peers_summary E w4 = (w5, Ok rm) ->
  let o := sync E fuel to chunkLen asked false s in
  let rec := reconcile E to local rm (set_world E w5 (set_world E w4 s3)) in
  let before := t1 ++ t2 ++ WriteStatus "Peers..." :: t3
                   ++ [MerkleForPeers; RemotePeers QSummary] in
  o.1.1 = rec.1.1 /\
  o.2 = before ++ rec.2
          ++ match rec.1.1 with
             | Ok _ => [WatcherEnd; Push (EvSync true None)]
             | Err e => Push (EvSync false (Some e)) :: ClearInterval
                          :: status_of e ++ [WatcherEnd]
             | Hang => []
             end /\
  leaf_lists o.2 = leaf_lists rec.2 /\
  leaf_fetches o.2 = leaf_fetches rec.2 /\
  leaf_submissions o.2 = leaf_submissions rec.2.
Proof.
  intros Hc Hb Hsp Hm Hsum o rec before.
  pose proof (sync_peers_run to s2 s3 t3 w4 local w5 rm Hsp Hm Hsum) as Hp.
  cbv zeta in Hp. fold rec in Hp.
  destruct (sync_with_peers fuel to chunkLen asked s h s1 t1 s2 t2 _ _ _ Hc Hb Hp)
    as (s' & Hsync).
  assert (Hshape :
    o.1.1 = rec.1.1 /\
    o.2 = before ++ rec.2
            ++ match rec.1.1 with
               | Ok _ => [WatcherEnd; Push (EvSync true None)]
               | Err e => Push (EvSync false (Some e)) :: ClearInterval
                            :: status_of e ++ [WatcherEnd]
               | Hang => []
               end).
  { subst o before. rewrite Hsync. clear Hsync Hp.
    destruct rec as [[[[]|e|] sr] tr]; simpl;
      (split; [done|]); rewrite <- ?app_assoc; simpl; rewrite <- ?app_assoc;
      simpl; by rewrite ?app_nil_r. }
  destruct Hshape as [Hres Htrace]. split; [done|]. split; [done|].
  assert (Hbefore : leaf_lists before = 0%nat /\ leaf_fetches before = [] /\
                    leaf_submissions before = []).
  { apply leafless. subst before. rewrite !Forall_app. split_and!.
    - destruct (emits_connect to asked (set_logInterval E false s)) as [_ Ht].
      rewrite Hc in Ht. eapply Forall_impl; [exact Ht|]. by intros [].
    - destruct (sync_blocks_run _ _ _ _ _ _ _ Hb) as (t2' & -> & Ht2 & _).
      constructor; [done|]. eapply Forall_impl; [exact Ht2|]. by intros [].
    - constructor; [done|]. rewrite Forall_app. split; [|by repeat constructor].
      assert (Hm' : emits (fun e => match e with
                                    | RemotePeers QLeaves | RemotePeers (QLeaf _)
                                    | SubmitP _ (Some _) => False
                                    | _ => True
                                    end) (syncPeer E))
        by (unfold syncPeer; repeat emits_step).
      destruct (Hm' (watcher_writeStatus E "Peers..." s2).1.2) as [_ Ht].
      by rewrite Hsp in Ht. }
  assert (Hending : leaf_lists (match rec.1.1 with
                                | Ok _ => [WatcherEnd; Push (EvSync true None)]
                                | Err e => Push (EvSync false (Some e)) :: ClearInterval
                                             :: status_of e ++ [WatcherEnd]
                                | Hang => []
                                end) = 0%nat /\
                    leaf_fetches (match rec.1.1 with
                                | Ok _ => [WatcherEnd; Push (EvSync true None)]
                                | Err e => Push (EvSync false (Some e)) :: ClearInterval
                                             :: status_of e ++ [WatcherEnd]
                                | Hang => []
                                end) = [] /\
                    leaf_submissions (match rec.1.1 with
                                | Ok _ => [WatcherEnd; Push (EvSync true None)]
                                | Err e => Push (EvSync false (Some e)) :: ClearInterval
                                             :: status_of e ++ [WatcherEnd]
                                | Hang => []
                                end) = []).
  { apply leafless. destruct (rec.1.1) as [?|e|]; [by repeat constructor| |done].
    do 2 (constructor; [done|]). rewrite Forall_app. split; [|by repeat constructor].
    unfold status_of. destruct (error_status e); by repeat constructor. }
  destruct Hbefore as (Hb1 & Hb2 & Hb3). destruct Hending as (He1 & He2 & He3).
  rewrite Htrace, !leaf_lists_app, !leaf_fetches_app, !leaf_submissions_app.
  rewrite Hb1, Hb2, Hb3, He1, He2, He3. simpl. rewrite !app_nil_r.
  split_and!; [lia|done|done].
Qed.
End reconciliation_in_sync.

(** C5. Take a run of [sync] that comes to the reconciliation of the peers:
    the blocks are done, the remote's own entry has been dealt with,
    [dal.merkleForPeers()] has answered the summary [local] and the
    remote's [peers.get({})] the summary [rm]. When the two roots are equal
    the run asks the remote neither for its list of leaves nor for a leaf
    and submits no leaf: it writes the status line and ends well. When they
    differ the list of leaves is asked once; the leaves asked one by one
    are, in order, the leaves of the remote's list that are not local
    leaves (all of them when the run ends well, the first ones when it is
    cut short by an error), and in a run that ends well each of these
    leaves is followed by the [submitP] of the entry made of the six fields
    of the value the remote answered for it, which [submitP] accepts before
    the next leaf is asked. *)
Theorem reconciliation_fetches_missing_leaves {W} (E : Env W) fuel (to : js_to)
    chunkLen asked (s : state E) h s1 t1 s2 t2 s3 t3 w4 local w5 rm :
  connect E to asked (set_logInterval E false s) = (Ok h, s1, t1) ->
  sync_blocks E fuel (chunkLen_or_default chunkLen) h s1 = (Ok tt, s2, t2) ->
  syncPeer E (watcher_writeStatus E "Peers..." s2).1.2 = (Ok tt, s3, t3) ->
  merkleForPeers E (world s3) = (w4, Ok local) ->
  peers_summary E w4 = (w5, Ok rm) ->
  let o := sync E fuel to chunkLen asked false s in
  let before := t1 ++ t2 ++ WriteStatus "Peers..." :: t3
                   ++ [MerkleForPeers; RemotePeers QSummary] in
  (root rm = merkle_root local ->
     o.1.1 = Ok tt /\
     o.2 = before ++ [ WriteStatus "Peers already known";
                       WatcherEnd; Push (EvSync true None) ] /\
     leaf_lists o.2 = 0%nat /\ leaf_fetches o.2 = [] /\ leaf_submissions o.2 = []) /\
  (root rm <> merkle_root local ->
     forall w leaves, peers_leaves E w5 = (w, Ok leaves) ->
       let missing := filter (fun leaf => leaf ∉ merkle_leaves local) leaves in
       (forall leaf, leaf ∈ missing <-> leaf ∈ leaves /\ leaf ∉ merkle_leaves local) /\
       leaf_lists o.2 = 1%nat /\
       leaf_fetches o.2 `prefix_of` missing /\
       (o.1.1 = Ok tt ->
          exists answers,
            leaves_exchanged E to w missing answers /\
            o.2 = before ++ RemotePeers QLeaves
                    :: concat (zip_with (leaf_exchange to) missing answers)
                    ++ [WatcherEnd; Push (EvSync true None)] /\
            leaf_fetches o.2 = missing /\
            leaf_submissions o.2 =
              (fun a => (Peering.Json (Peering.fields a) [], (false, is_undefined to)))
                <$> answers)).
Proof.
  intros Hc Hb Hsp Hm Hsum o before.
  destruct (sync_reconcile fuel to chunkLen asked s h s1 t1 s2 t2 s3 t3 w4 local w5 rm
              Hc Hb Hsp Hm Hsum) as (Hres & Htrace & Hlists & Hfetches & Hsubs).
  fold o in Hres, Htrace, Hlists, Hfetches, Hsubs. fold before in Htrace.
  destruct (reconcile_run to local rm (set_world E w5 (set_world E w4 s3)))
    as [Heq Hne].
  split.
  - intros Hroot. destruct (Heq Hroot) as (Hr & Ht & Hl & Hf & Hsb).
    rewrite Hr, Ht in Htrace. rewrite Hres, Hlists, Hfetches, Hsubs.
    by split_and!.
  - intros Hroot w leaves Hleaves.
    destruct (Hne Hroot w leaves Hleaves) as (Hmissing & Hl & Hpre & Hok).
    split; [exact Hmissing|]. rewrite Hlists, Hfetches, Hsubs.
    split; [done|]. split; [done|].
    rewrite Hres. intros Hreturns.
    destruct (Hok Hreturns) as (answers & Hans & Ht & Hf & Hsb).
    exists answers. rewrite Hreturns, Ht in Htrace. by split_and!.
Qed.

Lemma reconciliation_fetches_missing_leaves_witness :
  let E := demo catching_up in
  let o := sync E 10 ToUndefined None None false (Synchroniser E 0) in
  o.1.1 = Ok tt /\
  leaf_lists o.2 = 1%nat /\ leaf_fetches o.2 = ["b"; "c"] /\
  fst <$> leaf_submissions o.2
    = [ Peering.Json (Peering.fields (peer_of "b")) [];
        Peering.Json (Peering.fields (peer_of "c")) [] ].
Proof.
  cbv zeta. set (E := demo catching_up).
  set (c := connect E ToUndefined None (set_logInterval E false (Synchroniser E 0))).
  assert (Hc : c = (Ok (Heights 0 2 true), c.1.2, c.2)) by (vm_compute; reflexivity).
  set (b := sync_blocks E 10 (chunkLen_or_default None) (Heights 0 2 true) c.1.2).
  assert (Hb : b = (Ok tt, b.1.2, b.2)) by (vm_compute; reflexivity).
  set (p := syncPeer E (watcher_writeStatus E "Peers..." b.1.2).1.2).
  assert (Hp : p = (Ok tt, p.1.2, p.2)) by (vm_compute; reflexivity).
  destruct (reconciliation_fetches_missing_leaves E 10 ToUndefined None None
              (Synchroniser E 0) _ _ _ _ _ _ _ (world p.1.2)
              (Merkle "a" ["a"]) (world p.1.2) (NodesMerkle 1 3 3 "a+b+c")
              Hc Hb Hp eq_refl eq_refl) as [_ H].
  destruct (H ltac:(discriminate) (world p.1.2) ["a"; "b"; "c"] eq_refl)
    as (_ & Hlists & _ & Hok).
  assert (Hrun : (sync E 10 ToUndefined None None false (Synchroniser E 0)).1.1 = Ok tt)
    by (vm_compute; reflexivity).
  destruct (Hok Hrun) as (answers & Hans & _ & Hfetched & Hsubs).
  split; [exact Hrun|]. split; [exact Hlists|]. split; [exact Hfetched|].
  rewrite Hsubs, <- list_fmap_compose.
  match type of Hans with
  | leaves_exchanged _ _ ?w0 ?m _ =>
      assert (Hm : m = ["b"; "c"]) by (vm_compute; reflexivity); rewrite Hm in Hans;
      clear Hm; revert Hans; generalize w0; intros w Hans
  end.
  destruct answers as [|a1 [|a2 [|a3 answers]]]; cbn [leaves_exchanged] in Hans.
  - contradiction.
  - destruct Hans as (? & ? & _ & _ & []).
  - destruct Hans as (wa & wa' & Ha1 & _ & wb & wb' & Ha2 & _).
    injection Ha1 as _ <-. injection Ha2 as _ <-. reflexivity.
  - destruct Hans as (? & ? & _ & _ & ? & ? & _ & _ & []).
Defined.
(** ** A falsy [to] that is not [undefined] *)

Section requests.
Context {W : Type} {E : Env W}.

(** The requests of blocks of a run that returns are those of the chunks
    planned from what [connect] has computed. *)
Lemma returning_run_requests fuel to chunkLen asked nopeers (s : state E) s' t :
  sync E fuel to chunkLen asked nopeers s = (Ok tt, s', t) ->
  exists h s1 t1 chunks,
    connect E to asked (set_logInterval E false s) = (Ok h, s1, t1) /\
    plan_chunks fuel (localNumber h) (remoteNumber h) (chunkLen_or_default chunkLen)
      = Some chunks /\
    rpc_blocks t = (fun ch : chunk => (ch.2 - ch.1 + 1, ch.1)) <$> chunks.
Proof.
  intros Hrun.
  apply sync_Ok_parts in Hrun
    as (h & s1 & t1 & s2 & t2 & s3 & t3 & Hc & Hd & Hp & -> & _).
  apply download_and_apply_requests in Hd as (chunks & Hplan & Hr & _).
  exists h, s1, t1, chunks. split; [done|]. split; [done|].
  assert (Hr1 : rpc_blocks t1 = []).
  { destruct (emits_connect to asked (set_logInterval E false s)) as [_ Ht].
    rewrite Hc in Ht. simpl in Ht.
    apply no_request. eapply Forall_impl; [exact Ht|]. by intros []. }
  assert (Hr3 : rpc_blocks t3 = []).
  { destruct nopeers; [by injection Hp as _ <-|].
    destruct (emits_sync_peers to s2) as [_ Ht].
    rewrite Hp in Ht. simpl in Ht.
    apply no_request. eapply Forall_impl; [exact Ht|]. by intros []. }
  rewrite rpc_blocks_app, Hr1.
  change (rpc_blocks (SetInterval :: ?t)) with (rpc_blocks t).
  rewrite !rpc_blocks_app, Hr, Hr3. simpl. by rewrite app_nil_r.
Qed.
End requests.

(** C9. Take a [sync] called with a [to] that is falsy without being
    [undefined] ([null] or [0]), the remote being reached and its
    [current()] answering the block [rCurrent] of a recent protocol. The
    part that computes the target runs as it does for an [undefined] [to],
    and the target is the number of [rCurrent]: a run that returns has
    asked the remote for the blocks from [L+1] to this number. Yet no
    three-argument [submitP] of the run passes [true] as its erase flag,
    and in a run that comes to the reconciliation with different roots and
    returns, each missing leaf is submitted with the arguments [false] and
    [false]: no check of the signature, and no erasing. *)
Theorem falsy_to_targets_tip_without_erase {W} (E : Env W) fuel (to : js_to)
    chunkLen asked nopeers (s : state E) w1 w2 w3 lCurrent rCurrent :
  falsy to = true -> is_undefined to = false ->
  vucoin E (host E) (port E) (world s) = (w1, Ok tt) ->
  getCurrentBlockOrNull E w1 = (w2, Ok lCurrent) ->
  blockchain_current E w2 = (w3, Ok rCurrent) ->
  2 <= block_version rCurrent ->
  let L := match lCurrent with Some b => number b | None => -1 end in
  let cautious := match asked with
                  | Some a => a
                  | None => 0 <=? L
                  end in
  let h := Heights L (number rCurrent) cautious in
  let o := sync E fuel to chunkLen asked nopeers s in
  (forall asked' (s' : state E),
     connect E to asked' s' = connect E ToUndefined asked' s') /\
  (exists s1,
     connect E to asked (set_logInterval E false s) =
       (Ok h, s1,
        [ Connect (host E) (port E); GetCurrentBlockOrNull;
          WriteStatus ("Connecting to " +:+ host E +:+ "..."); RemoteCurrent ])) /\
  (o.1.1 = Ok tt ->
     concat ((fun q : Z * Z => seqZ q.2 q.1) <$> rpc_blocks o.2)
       = seqZ (L + 1) (number rCurrent - L)) /\
  Forall (fun e => forall p verify erase,
            e = SubmitP p (Some (verify, erase)) -> erase = false) o.2 /\
  (nopeers = false ->
   forall s1 t1 s2 t2 s3 t3 w4 local w5 rm w6 leaves,
     connect E to asked (set_logInterval E false s) = (Ok h, s1, t1) ->
     sync_blocks E fuel (chunkLen_or_default chunkLen) h s1 = (Ok tt, s2, t2) ->
     syncPeer E (watcher_writeStatus E "Peers..." s2).1.2 = (Ok tt, s3, t3) ->
     merkleForPeers E (world s3) = (w4, Ok local) ->
     peers_summary E w4 = (w5, Ok rm) ->
     root rm <> merkle_root local ->
     peers_leaves E w5 = (w6, Ok leaves) ->
     o.1.1 = Ok tt ->
     exists answers,
       leaves_exchanged E to w6
         (filter (fun leaf => leaf ∉ merkle_leaves local) leaves) answers /\
       leaf_submissions o.2 =
         (fun a => (Peering.Json (Peering.fields a) [], (false, false))) <$> answers).
Proof.
  intros Hf Hu H1 H2 H3 Hv L mode h o.
  destruct (connect_run to asked (set_logInterval E false s) _ _ _ _ _ H1 H2 H3 Hv)
    as (s1 & Hc & _).
  rewrite to_or_falsy, Z.min_id in Hc by done. fold L mode h in Hc.
  split_and!.
  - intros asked' s'. by destruct to as [| |[]].
  - by exists s1.
  - intros Hok. destruct o as [[r s'] t] eqn:Hrun. simpl in Hok. subst r. simpl.
    destruct (returning_run_requests _ _ _ _ _ _ _ _ Hrun)
      as (h' & s1' & t1' & chunks & Hc' & Hplan & ->).
    rewrite Hc in Hc'. injection Hc' as <- _ _. simpl in Hplan.
    rewrite <- list_fmap_compose. by rewrite <- (planned_numbers _ _ _ _ _ Hplan).
  - destruct o as [[r s'] t] eqn:Hrun.
    destruct (sync_shape _ _ _ _ _ _ _ _ _ Hrun)
      as (t1 & t2 & t3 & -> & Ht1 & Ht2 & Ht3).
    simpl. rewrite !Forall_app. split_and!.
    + eapply Forall_impl; [exact Ht1|]. by intros [].
    + destruct Ht2 as [->|(t2' & -> & Hb)]; [done|].
      constructor; [done|]. eapply Forall_impl; [exact Hb|].
      intros e He p verify erase ->. unfold body_event in He. simpl in He.
      rewrite Hu in He. by destruct verify, erase.
    + destruct r as [[]|err|]; [by destruct Ht3 as [_ ->] | | by subst t3].
      subst t3. constructor; [done|]. apply Forall_app. split.
      * by destruct t2; repeat constructor.
      * apply Forall_app. split; [|by repeat constructor].
        unfold status_of. by destruct (error_status err); repeat constructor.
  - intros -> s1' t1 s2 t2 s3 t3 w4 local w5 rm w6 leaves
      Hc' Hb Hsp Hm Hsum Hroot Hleaves Hok.
    destruct (sync_reconcile fuel to chunkLen asked s h s1' t1 s2 t2 s3 t3 w4 local
                w5 rm Hc' Hb Hsp Hm Hsum) as (Hres & _ & _ & _ & Hsubs).
    fold o in Hres, Hsubs. rewrite Hsubs.
    destruct (reconcile_run to local rm (set_world E w5 (set_world E w4 s3)))
      as [_ Hne].
    destruct (Hne Hroot w6 leaves Hleaves) as (_ & _ & _ & Hreturns).
    rewrite <- Hres in Hreturns.
    destruct (Hreturns Hok) as (answers & Hans & _ & _ & Hsb).
    exists answers. split; [done|]. by rewrite Hsb, Hu.
Qed.

Lemma falsy_to_targets_tip_without_erase_witness :
  let E := demo catching_up in
  let o := sync E 10 (ToNumber 0) None None false (Synchroniser E 0) in
  falsy (ToNumber 0) = true /\ is_undefined (ToNumber 0) = false /\
  o.1.1 = Ok tt /\
  concat ((fun q : Z * Z => seqZ q.2 q.1) <$> rpc_blocks o.2) = [1; 2] /\
  leaf_submissions o.2
    = [ (Peering.Json (Peering.fields (peer_of "b")) [], (false, false));
        (Peering.Json (Peering.fields (peer_of "c")) [], (false, false)) ].
Proof.
  cbv zeta. set (E := demo catching_up).
  split; [reflexivity|]. split; [reflexivity|].
  set (c := connect E (ToNumber 0) None (set_logInterval E false (Synchroniser E 0))).
  assert (Hc : c = (Ok (Heights 0 2 true), c.1.2, c.2)) by (vm_compute; reflexivity).
  set (b := sync_blocks E 10 (chunkLen_or_default None) (Heights 0 2 true) c.1.2).
  assert (Hb : b = (Ok tt, b.1.2, b.2)) by (vm_compute; reflexivity).
  set (p := syncPeer E (watcher_writeStatus E "Peers..." b.1.2).1.2).
  assert (Hp : p = (Ok tt, p.1.2, p.2)) by (vm_compute; reflexivity).
  assert (Hrun : (sync E 10 (ToNumber 0) None None false (Synchroniser E 0)).1.1
                 = Ok tt) by (vm_compute; reflexivity).
  destruct (falsy_to_targets_tip_without_erase E 10 (ToNumber 0) None None false
              (Synchroniser E 0) 100 100 100 (Some (plain_block 0)) (plain_block 2)
              eq_refl eq_refl eq_refl eq_refl eq_refl ltac:(simpl; lia))
    as (_ & _ & Hrequests & _ & Hleaves).
  split; [exact Hrun|]. split; [exact (Hrequests Hrun)|].
  destruct (Hleaves eq_refl _ _ _ _ _ _ (world p.1.2) (Merkle "a" ["a"])
              (world p.1.2) (NodesMerkle 1 3 3 "a+b+c") (world p.1.2) ["a"; "b"; "c"]
              Hc Hb Hp eq_refl eq_refl ltac:(discriminate) eq_refl Hrun)
    as (answers & Hans & Hsubs).
  rewrite Hsubs.
  match type of Hans with
  | leaves_exchanged _ _ ?w0 ?m _ =>
      assert (Hm : m = ["b"; "c"]) by (vm_compute; reflexivity); rewrite Hm in Hans;
      clear Hm; revert Hans; generalize w0; intros w Hans
  end.
  destruct answers as [|a1 [|a2 [|a3 answers]]]; cbn [leaves_exchanged] in Hans.
  - contradiction.
  - destruct Hans as (? & ? & _ & _ & []).
  - destruct Hans as (wa & wa' & Ha1 & _ & wb & wb' & Ha2 & _).
    injection Ha1 as _ <-. injection Ha2 as _ <-. reflexivity.
  - destruct Hans as (? & ? & _ & _ & ? & ? & _ & _ & []).
Defined.
